(** * Provider resilience layer of AI Council: a shallow embedding

    The development follows the Python sources of the backend services:
    - [backend/app/services/cloud_ai/circuit_breaker.py]
    - [backend/app/services/rate_limiter.py]
    - [backend/app/services/cloud_ai/model_registry.py]
    - [backend/app/services/execution_mode_config.py]
    - [backend/app/services/provider_health_checker.py]
    - [backend/app/services/cloud_ai/config.py]
    - [backend/app/core/middleware.py]

    Conventions of the embedding:
    - Python [int] is [Z]; Python [float] (timestamps, durations, prices,
      scores) is an exact rational [Q], so rounding is not modelled;
    - a [dict] keyed by strings is a [gmap string _];
    - every call of [time.time()] or [datetime.utcnow()] consumes one reading
      of a clock, which is an arbitrary function from the number of readings
      taken so far to the value read;
    - an exception is a value of type [Exception] (instances of Python's
      [Exception] class; interpreter exits such as [KeyboardInterrupt] are
      outside the model);
    - an [async] function that runs beside others is a coroutine that gives
      way at its [await]s, and the order in which the event loop resumes the
      coroutines is an arbitrary schedule. *)

From Stdlib Require Import ZArith QArith Qminmax Lqa Lia List String Ascii Bool.
From Stdlib Require Import DecimalString.
From Stdlib Require DecimalZ.
From stdpp Require Import base option gmap strings list relations.

Local Open Scope Z_scope.
#[local] Set Warnings "-clear-no-such-hyp,-register-all".

(** ** Python values shared by the services *)

Record Exception := mkException { exc_class : string; exc_msg : string }.

(** What a Python call produces: a value, or a raised exception. *)
Inductive Outcome (R : Type) : Type :=
| Returned (r : R)
| Raised (e : Exception).
Arguments Returned {R} r.
Arguments Raised {R} e.

(** [min(a, b)] on floats: the first argument unless the second is smaller. *)
Definition py_min (a b : Q) : Q := if Qlt_le_dec b a then b else a.

(** Truth value of an [Optional[float]]: [None] and [0.0] are false. *)
Definition truthy (o : option Q) : bool :=
  match o with
  | None => false
  | Some t => negb (Qeq_bool t 0)
  end.

(** [str(n)] for an [int], as an f-string formats it. *)
Definition str_int (n : Z) : string := NilZero.string_of_int (Z.to_int n).

(** ** circuit_breaker.py *)

Module CircuitBreaker.

Inductive CircuitState := CLOSED | OPEN | HALF_OPEN.

Definition CircuitState_eqb (a b : CircuitState) : bool :=
  match a, b with
  | CLOSED, CLOSED | OPEN, OPEN | HALF_OPEN, HALF_OPEN => true
  | _, _ => false
  end.

(** [CircuitState.value] *)
Definition value (s : CircuitState) : string :=
  match s with
  | CLOSED => "closed"
  | OPEN => "open"
  | HALF_OPEN => "half_open"
  end.

Module Config.
Record CircuitBreakerConfig := mk {
  failure_threshold : Z;
  timeout : Q;
  success_threshold : Z;
  max_timeout : Q }.
End Config.
Abbreviation CircuitBreakerConfig := Config.CircuitBreakerConfig.

(** [CircuitBreakerConfig()] *)
Definition default_config : CircuitBreakerConfig :=
  Config.mk 5 60 2 300.

Record CircuitBreakerState := mkState {
  state : CircuitState;
  failure_count : Z;
  success_count : Z;
  last_failure_time : option Q;
  opened_at : option Q;
  timeout : Q }.

(** [CircuitBreakerState()] *)
Definition init_state : CircuitBreakerState :=
  mkState CLOSED 0 0 None None 60.

Definition set_state v (s : CircuitBreakerState) :=
  mkState v (failure_count s) (success_count s) (last_failure_time s) (opened_at s) (timeout s).
Definition set_failure_count v (s : CircuitBreakerState) :=
  mkState (state s) v (success_count s) (last_failure_time s) (opened_at s) (timeout s).
Definition set_success_count v (s : CircuitBreakerState) :=
  mkState (state s) (failure_count s) v (last_failure_time s) (opened_at s) (timeout s).
Definition set_last_failure_time v (s : CircuitBreakerState) :=
  mkState (state s) (failure_count s) (success_count s) v (opened_at s) (timeout s).
Definition set_opened_at v (s : CircuitBreakerState) :=
  mkState (state s) (failure_count s) (success_count s) (last_failure_time s) v (timeout s).
Definition set_timeout v (s : CircuitBreakerState) :=
  mkState (state s) (failure_count s) (success_count s) (last_failure_time s) (opened_at s) v.

(** The breaker object ([self.states]) together with the clock it reads. *)
Record World := mkWorld {
  states : gmap string CircuitBreakerState;
  clock : nat -> Q;
  ticks : nat }.

Definition M (A : Type) : Type := World -> A * World.

Definition ret {A} (a : A) : M A := fun w => (a, w).
Definition bind {A B} (m : M A) (k : A -> M B) : M B :=
  fun w => let (a, w') := m w in k a w'.

Notation "x <- m ;; k" := (bind m (fun x => k))
  (at level 100, m at next level, right associativity).
Notation "m ;;; k" := (bind m (fun _ => k))
  (at level 100, right associativity).

(** [time.time()] *)
Definition time_time : M Q :=
  fun w => (clock w (ticks w), mkWorld (states w) (clock w) (S (ticks w))).

(** [if provider not in self.states: self.states[provider] = CircuitBreakerState()]
    followed by [state = self.states[provider]]. *)
Definition state_of (provider : string) : M CircuitBreakerState :=
  fun w => match states w !! provider with
           | Some s => (s, w)
           | None => (init_state,
                      mkWorld (<[provider := init_state]> (states w)) (clock w) (ticks w))
           end.

(** Field assignments on the state object are visible through the dict. *)
Definition store (provider : string) (s : CircuitBreakerState) : M unit :=
  fun w => (tt, mkWorld (<[provider := s]> (states w)) (clock w) (ticks w)).

Section Breaker.
Variable config : CircuitBreakerConfig.

Definition get_state (provider : string) : M CircuitState :=
  s <- state_of provider ;;
  if CircuitState_eqb (state s) OPEN && truthy (opened_at s) then
    now <- time_time ;;
    let elapsed := (now - default 0%Q (opened_at s))%Q in
    if Qle_bool (timeout s) elapsed then
      let s := set_state HALF_OPEN s in
      let s := set_success_count 0 s in
      store provider s ;;;
      ret (state s)
    else ret (state s)
  else ret (state s).

Definition record_success (provider : string) : M unit :=
  s <- state_of provider ;;
  match state s with
  | HALF_OPEN =>
      let s := set_success_count (success_count s + 1) s in
      if Config.success_threshold config <=? success_count s then
        let s := set_state CLOSED s in
        let s := set_failure_count 0 s in
        let s := set_success_count 0 s in
        let s := set_timeout (Config.timeout config) s in
        store provider s
      else store provider s
  | CLOSED => store provider (set_failure_count 0 s)
  | OPEN => ret tt
  end.

Definition record_failure (provider : string) : M unit :=
  s <- state_of provider ;;
  let s := set_failure_count (failure_count s + 1) s in
  t <- time_time ;;
  let s := set_last_failure_time (Some t) s in
  match state s with
  | HALF_OPEN =>
      let s := set_state OPEN s in
      t' <- time_time ;;
      let s := set_opened_at (Some t') s in
      let s := set_timeout (py_min (timeout s * 2) (Config.max_timeout config)) s in
      store provider s
  | CLOSED =>
      if Config.failure_threshold config <=? failure_count s then
        let s := set_state OPEN s in
        t' <- time_time ;;
        let s := set_opened_at (Some t') s in
        let s := set_timeout (Config.timeout config) s in
        store provider s
      else store provider s
  | OPEN => store provider s
  end.

Definition is_available (provider : string) : M bool :=
  current_state <- get_state provider ;;
  ret (negb (CircuitState_eqb current_state OPEN)).

Definition CircuitBreakerOpenError (provider : string) : Exception :=
  mkException "CircuitBreakerOpenError"
    ("Circuit breaker is open for provider: " +:+ provider).

(** [call]: [func] is the operation with its arguments applied; it may do
    anything to the world, the breaker included. *)
Definition call {R} (provider : string) (func : M (Outcome R)) : M (Outcome R) :=
  ok <- is_available provider ;;
  if negb ok then ret (Raised (CircuitBreakerOpenError provider))
  else
    r <- func ;;
    match r with
    | Returned result => record_success provider ;;; ret (Returned result)
    | Raised e => record_failure provider ;;; ret (Raised e)
    end.

(** [n] calls of [record_failure] in a row. *)
Fixpoint fail_times (n : nat) (provider : string) : M unit :=
  match n with
  | O => ret tt
  | S n' => record_failure provider ;;; fail_times n' provider
  end.

Fixpoint succeed_times (n : nat) (provider : string) : M unit :=
  match n with
  | O => ret tt
  | S n' => record_success provider ;;; succeed_times n' provider
  end.

End Breaker.

(** The provider is in the state a fresh breaker gives it: no entry yet (it
    is created on first reference), or Closed with no failure counted. *)
Definition initially_closed (provider : string) (w : World) : Prop :=
  match states w !! provider with
  | None => True
  | Some s => state s = CLOSED /\ failure_count s = 0
  end.

(** The world in which the entry of [provider] has been created. *)
Definition with_init (provider : string) (w : World) : World :=
  mkWorld (<[provider := init_state]> (states w)) (clock w) (ticks w).

Definition run {A} (m : M A) (w : World) : World := snd (m w).
Definition result {A} (m : M A) (w : World) : A := fst (m w).

(** *** The rest of the breaker's interface *)

Fixpoint get_fallback_provider (failed_provider : string)
    (available_providers : list string) : M (option string) :=
  match available_providers with
  | [] => ret None
  | provider :: rest =>
      if negb (String.eqb provider failed_provider) then
        ok <- is_available provider ;;
        if ok then ret (Some provider)
        else get_fallback_provider failed_provider rest
      else get_fallback_provider failed_provider rest
  end.

Definition reset (provider : string) : M unit :=
  fun w => match states w !! provider with
           | Some _ =>
               (tt, mkWorld (<[provider := init_state]> (states w)) (clock w) (ticks w))
           | None => (tt, w)
           end.

(** The dict of [get_stats]; the two time stamps are keys of the dict only
    when the provider has an entry. *)
Record Stats := mkStats {
  stats_state : string;
  stats_failure_count : Z;
  stats_success_count : Z;
  stats_timeout : Q;
  stats_last_failure_time : option (option Q);
  stats_opened_at : option (option Q) }.

Definition get_stats (config : CircuitBreakerConfig) (provider : string) : M Stats :=
  fun w => match states w !! provider with
           | None =>
               (mkStats "closed" 0 0 (Config.timeout config) None None, w)
           | Some s =>
               (mkStats (value (state s)) (failure_count s) (success_count s)
                  (timeout s) (Some (last_failure_time s)) (Some (opened_at s)), w)
           end.

(** A call of the breaker's interface; the operation that [call] wraps is
    one that leaves the breaker alone and returns or raises. *)
Inductive Op :=
| GetState (provider : string)
| RecordSuccess (provider : string)
| RecordFailure (provider : string)
| IsAvailable (provider : string)
| Call (provider : string) (raises : bool)
| GetFallbackProvider (failed_provider : string) (available_providers : list string)
| Reset (provider : string)
| GetStats (provider : string).

Definition run_op (config : CircuitBreakerConfig) (op : Op) : M unit :=
  match op with
  | GetState p => get_state p ;;; ret tt
  | RecordSuccess p => record_success config p
  | RecordFailure p => record_failure config p
  | IsAvailable p => is_available p ;;; ret tt
  | Call p raises =>
      call config p
        (ret (if raises then Raised (mkException "Exception" "") else Returned tt)) ;;;
      ret tt
  | GetFallbackProvider failed candidates =>
      get_fallback_provider failed candidates ;;; ret tt
  | Reset p => reset p
  | GetStats p => get_stats config p ;;; ret tt
  end.

Fixpoint run_ops (config : CircuitBreakerConfig) (ops : list Op) : M unit :=
  match ops with
  | [] => ret tt
  | op :: ops' => run_op config op ;;; run_ops config ops'
  end.

(** The providers an operation may touch. *)
Definition op_targets (op : Op) : list string :=
  match op with
  | GetState p | RecordSuccess p | RecordFailure p | IsAvailable p
  | Call p _ | Reset p | GetStats p => [p]
  | GetFallbackProvider failed candidates =>
      List.filter (fun c => negb (String.eqb c failed)) candidates
  end.

(** A fresh breaker reading the given clock. *)
Definition fresh (clk : nat -> Q) : World := mkWorld ∅ clk 0.

(** Reports about one provider: [true] for a failure, [false] for a success. *)
Fixpoint report (config : CircuitBreakerConfig) (provider : string) (failures : list bool)
  : M unit :=
  match failures with
  | [] => ret tt
  | true :: rest => record_failure config provider ;;; report config provider rest
  | false :: rest => record_success config provider ;;; report config provider rest
  end.

(** Every run of consecutive failures in [failures], the current run being
    [run] long already, stays shorter than [threshold]. *)
Fixpoint runs_below (threshold run : Z) (failures : list bool) : bool :=
  match failures with
  | [] => true
  | true :: rest => (run + 1 <? threshold) && runs_below threshold (run + 1) rest
  | false :: rest => runs_below threshold 0 rest
  end.

(** One failed recovery: the timeout has elapsed, the state query lets a
    trial through, and the trial fails. *)
Fixpoint failed_recoveries (config : CircuitBreakerConfig) (n : nat) (provider : string)
  : M unit :=
  match n with
  | O => ret tt
  | S n' =>
      get_state provider ;;; record_failure config provider ;;;
      failed_recoveries config n' provider
  end.

(** Every entry of the breaker satisfies [good]. *)
Definition all_entries (good : CircuitBreakerState -> Prop) (w : World) : Prop :=
  forall p s, states w !! p = Some s -> good s.

(** From [w] to [w'] only entries of the providers [ps] may differ, and the
    entries keep satisfying [good]. *)
Definition touches_only (good : CircuitBreakerState -> Prop) (ps : list string)
    (w w' : World) : Prop :=
  clock w' = clock w /\
  (forall q, q ∉ ps -> states w' !! q = states w !! q) /\
  (all_entries good w -> all_entries good w').

(** What the counters and time stamps of an entry satisfy. *)
Definition well_formed (config : CircuitBreakerConfig) (s : CircuitBreakerState) : Prop :=
  0 <= failure_count s /\
  0 <= success_count s < Config.success_threshold config /\
  (state s = CLOSED -> failure_count s < Config.failure_threshold config) /\
  (state s <> CLOSED -> is_Some (opened_at s) /\ is_Some (last_failure_time s)) /\
  (state s = HALF_OPEN -> truthy (opened_at s) = true).

Definition timeout_in_range (config : CircuitBreakerConfig) (s : CircuitBreakerState)
  : Prop :=
  (0 < timeout s)%Q /\ (timeout s <= Config.max_timeout config)%Q.

End CircuitBreaker.


(** ** rate_limiter.py *)

Module RateLimiter.

(** *** The shared counting store

    The Redis commands the limiter issues, on a store of integer counters
    with an optional expiry instant.  [now] is the time at which the server
    handles the command, in the seconds of [int(time.time())]. *)

Record Entry := mkEntry { value : Z; expire_at : option Z }.

Definition live (now : Z) (e : Entry) : bool :=
  match expire_at e with
  | Some t => now <? t
  | None => true
  end.

(** [GET key]; the limiter converts the answer with [int(...)]. *)
Definition redis_get (now : Z) (key : string) (db : gmap string Entry) : option Z :=
  match db !! key with
  | Some e => if live now e then Some (value e) else None
  | None => None
  end.

(** [INCR key]: a missing or expired key counts from 0 and gets no expiry. *)
Definition redis_incr (now : Z) (key : string) (db : gmap string Entry)
  : gmap string Entry :=
  match db !! key with
  | Some e =>
      if live now e then <[key := mkEntry (value e + 1) (expire_at e)]> db
      else <[key := mkEntry 1 None]> db
  | None => <[key := mkEntry 1 None]> db
  end.

(** [EXPIRE key seconds] *)
Definition redis_expire (now : Z) (key : string) (seconds : Z) (db : gmap string Entry)
  : gmap string Entry :=
  match db !! key with
  | Some e =>
      if live now e then <[key := mkEntry (value e) (Some (now + seconds))]> db
      else db
  | None => db
  end.

(** [pipe.incr(key); pipe.expire(key, seconds); await pipe.execute()]: the
    two queued commands are handled by the server in one go. *)
Definition pipeline_incr_expire (now : Z) (key : string) (seconds : Z)
    (db : gmap string Entry) : gmap string Entry :=
  redis_expire now key seconds (redis_incr now key db).

(** *** The limiter *)

(** The limits are read from [settings.RATE_LIMIT_AUTHENTICATED],
    [settings.RATE_LIMIT_DEMO] and [settings.RATE_LIMIT_ADMIN] when the
    limiter is created. *)
Record RateLimiter := mk {
  authenticated_limit : Z;
  demo_limit : Z;
  admin_limit : Z }.

(** Modelled from the spec: the settings of [app/core/config.py], which is
    not among the sources; the tiers are ordered admin, authenticated, demo,
    and these are the values the test-suite asserts. *)
Definition shipped : RateLimiter := mk 100 3 1000.

Definition window_seconds : Z := 3600.

Definition tier_limit (self : RateLimiter) (is_demo is_admin : bool) : Z :=
  if is_admin then admin_limit self
  else if is_demo then demo_limit self
  else authenticated_limit self.

Definition window_start_of (current_time : Z) : Z :=
  current_time - current_time mod window_seconds.

Definition key_of (identifier : string) (is_demo : bool) (window_start : Z) : string :=
  if is_demo then
    "rate_limit:demo:" +:+ identifier +:+ ":hour:" +:+ str_int window_start
  else
    "rate_limit:" +:+ identifier +:+ ":hour:" +:+ str_int window_start.

(** [check_limit]; [current_time] is the value of [int(time.time())] the call
    reads, and the result is [(is_allowed, remaining, reset_at)]. *)
Definition check_limit (self : RateLimiter) (current_time : Z)
    (identifier : string) (is_demo is_admin : bool) (db : gmap string Entry)
  : (bool * Z * Z) * gmap string Entry :=
  let limit := tier_limit self is_demo is_admin in
  let window_start := window_start_of current_time in
  let key := key_of identifier is_demo window_start in
  let current_count :=
    match redis_get current_time key db with
    | None => 0
    | Some c => c
    end in
  let reset_at := window_start + window_seconds in
  if limit <=? current_count then
    ((false, 0, reset_at), db)
  else
    let db := pipeline_incr_expire current_time key window_seconds db in
    ((true, limit - current_count - 1, reset_at), db).

(** Calls made one after the other, at the given times. *)
Fixpoint check_limit_seq (self : RateLimiter) (times : list Z)
    (identifier : string) (is_demo is_admin : bool) (db : gmap string Entry)
  : list (bool * Z * Z) * gmap string Entry :=
  match times with
  | [] => ([], db)
  | t :: times' =>
      let (r, db1) := check_limit self t identifier is_demo is_admin db in
      let (rs, db2) := check_limit_seq self times' identifier is_demo is_admin db1 in
      (r :: rs, db2)
  end.

(** The counter of [identifier] for window [W] holds [c] and does not expire
    before the window ends; a counter not yet created counts as 0. *)
Definition counted (identifier : string) (is_demo : bool) (W : Z)
    (c : Z) (db : gmap string Entry) : Prop :=
  (c = 0 /\ db !! key_of identifier is_demo W = None) \/
  (exists e, db !! key_of identifier is_demo W = Some (mkEntry c (Some e)) /\
             W + window_seconds <= e).

(** What a call in window [W] answers when it finds the count at [c]. *)
Definition answer (self : RateLimiter) (is_demo is_admin : bool) (W : Z) (c : Z)
  : bool * Z * Z :=
  if c <? tier_limit self is_demo is_admin then
    (true, tier_limit self is_demo is_admin - c - 1, W + window_seconds)
  else (false, 0, W + window_seconds).

(** *** Concurrent callers

    [check_limit] is a coroutine: it gives way to other callers at its two
    [await]s, the [GET] and the pipeline.  Between them it only computes on
    the count it has read. *)

Record Request := mkRequest {
  rq_time : Z;
  rq_identifier : string;
  rq_is_demo : bool;
  rq_is_admin : bool }.

Inductive Coroutine :=
| AtGet (rq : Request)
    (* suspended in [await self.redis.get(key)] *)
| AtExecute (rq : Request) (current_count : Z)
    (* suspended in [await pipe.execute()] *)
| Done (r : bool * Z * Z).

(** The server handles the command a coroutine waits for, and the coroutine
    runs up to its next [await] or to its [return]. *)
Definition resume (self : RateLimiter) (c : Coroutine) (db : gmap string Entry)
  : Coroutine * gmap string Entry :=
  match c with
  | AtGet rq =>
      let limit := tier_limit self (rq_is_demo rq) (rq_is_admin rq) in
      let window_start := window_start_of (rq_time rq) in
      let key := key_of (rq_identifier rq) (rq_is_demo rq) window_start in
      let current_count :=
        match redis_get (rq_time rq) key db with
        | None => 0
        | Some c => c
        end in
      let reset_at := window_start + window_seconds in
      if limit <=? current_count then (Done (false, 0, reset_at), db)
      else (AtExecute rq current_count, db)
  | AtExecute rq current_count =>
      let limit := tier_limit self (rq_is_demo rq) (rq_is_admin rq) in
      let window_start := window_start_of (rq_time rq) in
      let key := key_of (rq_identifier rq) (rq_is_demo rq) window_start in
      let reset_at := window_start + window_seconds in
      let db := pipeline_incr_expire (rq_time rq) key window_seconds db in
      (Done (true, limit - current_count - 1, reset_at), db)
  | Done r => (Done r, db)
  end.

(** The event loop resumes the coroutines in the order of [schedule]. *)
Fixpoint run_schedule (self : RateLimiter) (schedule : list nat)
    (tasks : list Coroutine) (db : gmap string Entry)
  : list Coroutine * gmap string Entry :=
  match schedule with
  | [] => (tasks, db)
  | i :: schedule' =>
      match tasks !! i with
      | Some c =>
          let (c', db') := resume self c db in
          run_schedule self schedule' (<[i := c']> tasks) db'
      | None => run_schedule self schedule' tasks db
      end
  end.

(** *** The read-only and the administrative call *)

(** [get_current_usage]: [(current_count, reset_at)]. *)
Definition get_current_usage (self : RateLimiter) (current_time : Z)
    (identifier : string) (is_demo : bool) (db : gmap string Entry) : Z * Z :=
  let window_start := window_start_of current_time in
  let key := key_of identifier is_demo window_start in
  let current_count :=
    match redis_get current_time key db with
    | None => 0
    | Some c => c
    end in
  let reset_at := window_start + window_seconds in
  (current_count, reset_at).

(** [reset_limit]: [DEL key]. *)
Definition reset_limit (self : RateLimiter) (current_time : Z)
    (identifier : string) (is_demo : bool) (db : gmap string Entry)
  : gmap string Entry :=
  let window_start := window_start_of current_time in
  let key := key_of identifier is_demo window_start in
  delete key db.

(** The part of a string after its last colon, the whole string if it has
    none. *)
Fixpoint has_colon (s : string) : bool :=
  match s with
  | EmptyString => false
  | String c s' => Ascii.eqb c ":" || has_colon s'
  end.

Fixpoint after_last_colon (s : string) : string :=
  match s with
  | EmptyString => EmptyString
  | String c s' =>
      if has_colon s' then after_last_colon s'
      else if Ascii.eqb c ":" then s' else String c s'
  end.

End RateLimiter.

(** ** middleware.py, the rate-limiting dependency *)

Module Middleware.
Import RateLimiter.

(** Modelled from the spec: the user model of [app/models/user.py], which is
    not among the sources; [check_rate_limit] reads [str(user.id)] and
    [user.role] of an authenticated caller. *)
Record User := mkUser { id : string; role : string }.

(** What [check_rate_limit] leaves in [request.state]. *)
Record RequestState := mkRequestState {
  rate_limit_remaining : Z;
  rate_limit_reset : Z }.

(** The [HTTPException] it raises: status code, the [detail] dict and the
    two headers. *)
Record HTTPException := mkHTTPException {
  status_code : Z;
  detail_message : string;
  detail_retry_after : Z;
  detail_reset_at : Z;
  header_Retry_After : string;
  header_X_RateLimit_Reset : string }.

Definition HTTP_429_TOO_MANY_REQUESTS : Z := 429.

(** [check_rate_limit]: [client_host] is [request.client.host], [None] when
    the request has no client; [now] is the time [check_limit] reads and
    [now'] the time read for [retry_after].  The result is the request
    state, the exception if one is raised, and the store. *)
Definition check_rate_limit (rate_limiter : RateLimiter)
    (client_host : option string) (user : option User) (now now' : Z)
    (db : gmap string Entry)
  : RequestState * option HTTPException * gmap string Entry :=
  let '(identifier, is_demo, is_admin) :=
    match user with
    | None =>
        let client_ip := match client_host with Some h => h | None => "unknown" end in
        (client_ip, true, false)
    | Some u => (id u, false, String.eqb (role u) "admin")
    end in
  let '((is_allowed, remaining, reset_at), db) :=
    check_limit rate_limiter now identifier is_demo is_admin db in
  let state := mkRequestState remaining reset_at in
  if negb is_allowed then
    let retry_after := reset_at - now' in
    (state,
     Some (mkHTTPException HTTP_429_TOO_MANY_REQUESTS "Rate limit exceeded"
             retry_after reset_at (str_int retry_after) (str_int reset_at)),
     db)
  else (state, None, db).

(** Requests of one caller handled one after the other; each comes with its
    two clock readings. *)
Fixpoint check_rate_limit_seq (rate_limiter : RateLimiter)
    (client_host : option string) (user : option User) (times : list (Z * Z))
    (db : gmap string Entry)
  : list (RequestState * option HTTPException) * gmap string Entry :=
  match times with
  | [] => ([], db)
  | (now, now') :: times' =>
      let '(state, exc, db1) := check_rate_limit rate_limiter client_host user now now' db in
      let (rs, db2) := check_rate_limit_seq rate_limiter client_host user times' db1 in
      ((state, exc) :: rs, db2)
  end.

(** The identifier and the tier a caller is limited under. *)
Definition caller_identifier (client_host : option string) (user : option User) : string :=
  match user with
  | None => match client_host with Some h => h | None => "unknown" end
  | Some u => id u
  end.

Definition caller_limit (rate_limiter : RateLimiter) (user : option User) : Z :=
  match user with
  | None => demo_limit rate_limiter
  | Some u =>
      if String.eqb (role u) "admin" then admin_limit rate_limiter
      else authenticated_limit rate_limiter
  end.

Definition caller_is_demo (user : option User) : bool :=
  match user with None => true | Some _ => false end.

End Middleware.

(** ** provider_health_checker.py *)

Module ProviderHealthChecker.

Record ProviderHealthStatus := mkStatus {
  status : string;  (* "healthy", "degraded", or "down" *)
  last_check : Q;
  response_time_ms : option Q;
  error_message : option string }.

Definition set_status v (h : ProviderHealthStatus) :=
  mkStatus v (last_check h) (response_time_ms h) (error_message h).
Definition set_error_message v (h : ProviderHealthStatus) :=
  mkStatus (status h) (last_check h) (response_time_ms h) v.

(** [HEALTH_CHECK_ENDPOINTS], in the order of the dict literal. *)
Definition HEALTH_CHECK_ENDPOINTS : list (string * string) :=
  [ ("groq", "https://api.groq.com/openai/v1/models");
    ("together", "https://api.together.xyz/v1/models");
    ("openrouter", "https://openrouter.ai/api/v1/models");
    ("huggingface", "https://huggingface.co/api/models") ].

Definition endpoint_of (provider : string) : option string :=
  snd <$> List.find (fun kv => String.eqb (fst kv) provider) HEALTH_CHECK_ENDPOINTS.

Definition CACHE_TTL : Z := 60.
Definition TIMEOUT : Q := 5.

(** [_get_cache_key] *)
Definition _get_cache_key (provider : string) : string :=
  "provider:health:" +:+ provider.

(** What [await client.get(url)] does under [httpx.AsyncClient(timeout=TIMEOUT)]. *)
Inductive ProbeOutcome :=
| Response (status_code : Z)
| TimeoutException
| ProbeError (e : Exception).

(** What lies outside the checker: the providers' endpoints, and whether the
    cache store answers or raises. *)
Record Environment := mkEnv {
  http_get : string -> ProbeOutcome;
  cache_get_raises : bool;
  cache_setex_raises : bool }.

(** The global circuit breaker with its clock, and the health cache: for
    each key the cached status (the JSON object of [to_dict]) and the time
    to live it was stored with. *)
Record World := mkWorld {
  breaker : CircuitBreaker.World;
  cache : gmap string (ProviderHealthStatus * Z) }.

Definition M (A : Type) : Type := World -> A * World.

Definition ret {A} (a : A) : M A := fun w => (a, w).
Definition bind {A B} (m : M A) (k : A -> M B) : M B :=
  fun w => let (a, w') := m w in k a w'.

Notation "x <- m ;; k" := (bind m (fun x => k))
  (at level 100, m at next level, right associativity).
Notation "m ;;; k" := (bind m (fun _ => k))
  (at level 100, right associativity).

(** An operation of the circuit breaker, run on the global instance. *)
Definition on_breaker {A} (m : CircuitBreaker.M A) : M A :=
  fun w => let (a, b) := m (breaker w) in (a, mkWorld b (cache w)).

(** [time.time()] and [datetime.utcnow()] read the same clock. *)
Definition time_time : M Q := on_breaker CircuitBreaker.time_time.
Definition utcnow : M Q := on_breaker CircuitBreaker.time_time.

(** [await redis_client.client.setex(key, ttl, data)] *)
Definition setex (key : string) (ttl : Z) (data : ProviderHealthStatus) : M unit :=
  fun w => (tt, mkWorld (breaker w) (<[key := (data, ttl)]> (cache w))).

(** An [Optional[str]] is false when it is [None] or empty. *)
Definition str_truthy (o : option string) : bool :=
  match o with
  | None => false
  | Some s => negb (String.eqb s "")
  end.

Section Checker.
Variable env : Environment.

Definition _check_provider_endpoint (provider url : string) : M ProviderHealthStatus :=
  start_time <- time_time ;;
  match http_get env url with
  | Response status_code =>
      t <- time_time ;;
      let response_time_ms := ((t - start_time) * 1000)%Q in
      let '(status, error_message) :=
        if status_code =? 200 then
          ("healthy", None)
        else if (200 <? status_code) && (status_code <? 500) then
          ("degraded", Some ("HTTP " +:+ str_int status_code))
        else
          ("down", Some ("HTTP " +:+ str_int status_code)) in
      now <- utcnow ;;
      ret (mkStatus status now (Some response_time_ms) error_message)
  | TimeoutException =>
      t <- time_time ;;
      let response_time_ms := ((t - start_time) * 1000)%Q in
      now <- utcnow ;;
      ret (mkStatus "down" now (Some response_time_ms) (Some "Request timeout"))
  | ProbeError e =>
      t <- time_time ;;
      let response_time_ms := ((t - start_time) * 1000)%Q in
      now <- utcnow ;;
      ret (mkStatus "down" now (Some response_time_ms) (Some (exc_msg e)))
  end.

(** The part of [check_provider_health] after the cache lookup has missed. *)
Definition check_after_miss (provider : string) : M ProviderHealthStatus :=
  match endpoint_of provider with
  | None =>
      now <- utcnow ;;
      ret (mkStatus "down" now None (Some ("Unknown provider: " +:+ provider)))
  | Some url =>
      health_status <- _check_provider_endpoint provider url ;;
      circuit_state <- on_breaker (CircuitBreaker.get_state provider) ;;
      let health_status :=
        if String.eqb (CircuitBreaker.value circuit_state) "open" then
          let h := set_status "down" health_status in
          if negb (str_truthy (error_message h))
          then set_error_message (Some "Circuit breaker open") h
          else h
        else if String.eqb (CircuitBreaker.value circuit_state) "half_open" then
          if String.eqb (status health_status) "healthy"
          then set_status "degraded" health_status
          else health_status
        else health_status in
      (if cache_setex_raises env then ret tt
       else setex (_get_cache_key provider) CACHE_TTL health_status) ;;;
      ret health_status
  end.

Definition check_provider_health (provider : string) : M ProviderHealthStatus :=
  fun w =>
    if cache_get_raises env then check_after_miss provider w
    else
      match cache w !! _get_cache_key provider with
      | Some (data, _) => (data, w)
      | None => check_after_miss provider w
      end.

End Checker.

(** *** Concurrent checks

    A check is a coroutine: it gives way to the other checks at each of its
    [await]s.  A coroutine has ended, with what it returned or raised, or is
    suspended at an [await]; resumed, it runs on the shared state up to its
    next [await] or to its end. *)
Inductive Coro (A : Type) : Type :=
| Finished (o : Outcome A)
| Suspended (k : M (Coro A)).

Arguments Finished {A} o.
Arguments Suspended {A} k.

Definition resume {A} (c : Coro A) : M (Coro A) :=
  match c with
  | Finished o => ret (Finished o)
  | Suspended k => k
  end.

(** The event loop resumes the tasks in the order of [schedule]. *)
Fixpoint run_schedule {A} (schedule : list nat) (tasks : list (Coro A))
  : M (list (Coro A)) :=
  match schedule with
  | [] => ret tasks
  | i :: schedule' =>
      match tasks !! i with
      | Some c =>
          c' <- resume c ;;
          run_schedule schedule' (<[i := c']> tasks)
      | None => run_schedule schedule' tasks
      end
  end.

(** A coroutine resumed, with nobody in between, until it ends. *)
Fixpoint run_to_end {A} (c : Coro A) : M (Outcome A) :=
  match c with
  | Finished o => ret o
  | Suspended k => fun w => let (c', w') := k w in run_to_end c' w'
  end.

Fixpoint run_all_to_end {A} (tasks : list (Coro A)) : M (list (Outcome A)) :=
  match tasks with
  | [] => ret []
  | c :: tasks' =>
      o <- run_to_end c ;;
      os <- run_all_to_end tasks' ;;
      ret (o :: os)
  end.

(** [await asyncio.gather] over the tasks, with [return_exceptions=True]:
    the event loop resumes the tasks, in an order that is not the caller's
    to choose, until all have ended; that order is [schedule], followed, for
    the tasks it leaves suspended, by the order of the tasks.  There is one
    result per task, in the order of the tasks, and an exception a task
    raised is its result. *)
Definition gather {A} (schedule : list nat) (tasks : list (Coro A))
  : M (list (Outcome A)) :=
  tasks' <- run_schedule schedule tasks ;;
  run_all_to_end tasks'.

(** One step of the event loop: some suspended task is resumed. *)
Inductive loop_step {A} : list (Coro A) * World -> list (Coro A) * World -> Prop :=
| loop_resume tasks w (i : nat) k c' w' :
    tasks !! i = Some (Suspended k) -> k w = (c', w') ->
    loop_step (tasks, w) (<[i := c']> tasks, w').

(** An interleaved run of the tasks: any number of steps of the loop. *)
Definition interleaving {A} : relation (list (Coro A) * World) := rtc loop_step.

(** The loop of [check_all_providers] over [zip(providers, results)]. *)
Fixpoint collect (pairs : list (string * Outcome ProviderHealthStatus))
    (health_statuses : gmap string ProviderHealthStatus)
  : M (gmap string ProviderHealthStatus) :=
  match pairs with
  | [] => ret health_statuses
  | (provider, Raised e) :: pairs' =>
      now <- utcnow ;;
      collect pairs'
        (<[provider := mkStatus "down" now None (Some (exc_msg e))]> health_statuses)
  | (provider, Returned r) :: pairs' =>
      collect pairs' (<[provider := r]> health_statuses)
  end.

(** [check_all_providers], for any behaviour of [self.check_provider_health]
    (the tests replace it by one that raises). *)
Definition check_all_providers_with (schedule : list nat)
    (check : string -> Coro ProviderHealthStatus)
  : M (Outcome (gmap string ProviderHealthStatus)) :=
  let providers := map fst HEALTH_CHECK_ENDPOINTS in
  let tasks := map check providers in
  results <- gather schedule tasks ;;
  health_statuses <- collect (zip providers results) ∅ ;;
  ret (Returned health_statuses).

(** [check_provider_health] as the coroutine it is.  It awaits the cache
    read, the opening of the HTTP client, the GET on the endpoint, the
    closing of the client, and the cache write. *)
Section Task.
Variable env : Environment.

(** From the circuit-breaker lookup on: the status is folded with the phase,
    and the coroutine awaits [setex]. *)
Definition after_endpoint (provider : string) (health_status : ProviderHealthStatus)
  : M (Coro ProviderHealthStatus) :=
  circuit_state <- on_breaker (CircuitBreaker.get_state provider) ;;
  let health_status :=
    if String.eqb (CircuitBreaker.value circuit_state) "open" then
      let h := set_status "down" health_status in
      if negb (str_truthy (error_message h))
      then set_error_message (Some "Circuit breaker open") h
      else h
    else if String.eqb (CircuitBreaker.value circuit_state) "half_open" then
      if String.eqb (status health_status) "healthy"
      then set_status "degraded" health_status
      else health_status
    else health_status in
  ret (Suspended
         ((if cache_setex_raises env then ret tt
           else setex (_get_cache_key provider) CACHE_TTL health_status) ;;;
          ret (Finished (Returned health_status)))).

(** From the answer of [await client.get(url)] on.  A response is turned
    into a status inside the [async with] block, which is then left; an
    exception leaves the block first and is handled after it. *)
Definition after_probe (provider url : string) (start_time : Q)
  : M (Coro ProviderHealthStatus) :=
  match http_get env url with
  | Response status_code =>
      t <- time_time ;;
      let response_time_ms := ((t - start_time) * 1000)%Q in
      let '(status, error_message) :=
        if status_code =? 200 then
          ("healthy", None)
        else if (200 <? status_code) && (status_code <? 500) then
          ("degraded", Some ("HTTP " +:+ str_int status_code))
        else
          ("down", Some ("HTTP " +:+ str_int status_code)) in
      now <- utcnow ;;
      ret (Suspended
             (after_endpoint provider
                (mkStatus status now (Some response_time_ms) error_message)))
  | TimeoutException =>
      ret (Suspended
             (t <- time_time ;;
              let response_time_ms := ((t - start_time) * 1000)%Q in
              now <- utcnow ;;
              after_endpoint provider
                (mkStatus "down" now (Some response_time_ms) (Some "Request timeout"))))
  | ProbeError e =>
      ret (Suspended
             (t <- time_time ;;
              let response_time_ms := ((t - start_time) * 1000)%Q in
              now <- utcnow ;;
              after_endpoint provider
                (mkStatus "down" now (Some response_time_ms) (Some (exc_msg e)))))
  end.

Definition check_provider_health_task (provider : string) : Coro ProviderHealthStatus :=
  Suspended (fun w =>
    match (if cache_get_raises env then None
           else cache w !! _get_cache_key provider) with
    | Some (data, _) => (Finished (Returned data), w)
    | None =>
        match endpoint_of provider with
        | None =>
            (now <- utcnow ;;
             ret (Finished
                    (Returned
                       (mkStatus "down" now None
                          (Some ("Unknown provider: " +:+ provider)))))) w
        | Some url =>
            (start_time <- time_time ;;
             ret (Suspended (ret (Suspended (after_probe provider url start_time))))) w
        end
    end).

End Task.

Definition check_all_providers (schedule : list nat) (env : Environment)
  : M (Outcome (gmap string ProviderHealthStatus)) :=
  check_all_providers_with schedule (check_provider_health_task env).

(** Resumed in a state whose cached statuses are valid, the coroutine keeps
    them valid, and it ends by returning a valid status. *)
Fixpoint keeps_valid (valid : World -> Prop) (ok : ProviderHealthStatus -> Prop)
    (c : Coro ProviderHealthStatus) : Prop :=
  match c with
  | Finished o => exists h, o = Returned h /\ ok h
  | Suspended k =>
      forall w, valid w -> let (c', w') := k w in valid w' /\ keeps_valid valid ok c'
  end.

(** The breaker after [n] more readings of the clock. *)
Definition advance (n : nat) (b : CircuitBreaker.World) : CircuitBreaker.World :=
  CircuitBreaker.mkWorld (CircuitBreaker.states b) (CircuitBreaker.clock b)
    (n + CircuitBreaker.ticks b).

(** The status and the message [_check_provider_endpoint] derives from what
    the endpoint did. *)
Definition probe_status (o : ProbeOutcome) : string :=
  match o with
  | Response c =>
      if c =? 200 then "healthy"
      else if (200 <? c) && (c <? 500) then "degraded" else "down"
  | _ => "down"
  end.

Definition probe_message (o : ProbeOutcome) : option string :=
  match o with
  | Response c => if c =? 200 then None else Some ("HTTP " +:+ str_int c)
  | TimeoutException => Some "Request timeout"
  | ProbeError e => Some (exc_msg e)
  end.

(** The statuses fold the breaker phase in as follows. *)
Definition fold_phase (phase : CircuitBreaker.CircuitState) (raw : string) : string :=
  match phase with
  | CircuitBreaker.OPEN => "down"
  | CircuitBreaker.HALF_OPEN => if String.eqb raw "healthy" then "degraded" else raw
  | CircuitBreaker.CLOSED => raw
  end.

(** The entry [collect] makes for one result. *)
Definition entry_for (o : Outcome ProviderHealthStatus) (h : ProviderHealthStatus) : Prop :=
  match o with
  | Returned r => h = r
  | Raised e => exists t, h = mkStatus "down" t None (Some (exc_msg e))
  end.

(** The message after the breaker phase has been folded in. *)
Definition fold_message (phase : CircuitBreaker.CircuitState) (m : option string)
  : option string :=
  match phase with
  | CircuitBreaker.OPEN => if str_truthy m then m else Some "Circuit breaker open"
  | _ => m
  end.

Definition valid_status (st : string) : Prop :=
  st = "healthy" \/ st = "degraded" \/ st = "down".

(** Every cached status is one of the three. *)
Definition cache_valid (w : World) : Prop :=
  forall k h ttl, cache w !! k = Some (h, ttl) -> valid_status (status h).

(** What an entry of the breaker keeps when only state queries are made. *)
Definition same_record (s s' : CircuitBreaker.CircuitBreakerState) : Prop :=
  CircuitBreaker.failure_count s' = CircuitBreaker.failure_count s /\
  CircuitBreaker.last_failure_time s' = CircuitBreaker.last_failure_time s /\
  CircuitBreaker.opened_at s' = CircuitBreaker.opened_at s /\
  CircuitBreaker.timeout s' = CircuitBreaker.timeout s.

(** What is stored for [q] before and after: an entry stays, with its
    record of failures; the only entry that can appear is a fresh one for
    [provider]. *)
Definition entry_kept (provider q : string)
    (before after : option CircuitBreaker.CircuitBreakerState) : Prop :=
  match before, after with
  | Some s, Some s' => same_record s s' /\ (q <> provider -> s' = s)
  | None, Some s' => q = provider /\ s' = CircuitBreaker.init_state
  | None, None => True
  | Some _, None => False
  end.

End ProviderHealthChecker.

(** ** model_registry.py *)

Module ModelRegistry.

(** Modelled from the spec: the enum [TaskType] of [ai_council/core/models.py],
    which is not among the sources; its members are the capabilities that
    the registry and the test-suite name. *)
Inductive TaskType :=
| REASONING | RESEARCH | CODE_GENERATION | DEBUGGING
| CREATIVE_OUTPUT | IMAGE_GENERATION | FACT_CHECKING | VERIFICATION.

Definition TaskType_eqb (a b : TaskType) : bool :=
  match a, b with
  | REASONING, REASONING | RESEARCH, RESEARCH
  | CODE_GENERATION, CODE_GENERATION | DEBUGGING, DEBUGGING
  | CREATIVE_OUTPUT, CREATIVE_OUTPUT | IMAGE_GENERATION, IMAGE_GENERATION
  | FACT_CHECKING, FACT_CHECKING | VERIFICATION, VERIFICATION => true
  | _, _ => false
  end.

(** [str(task_type)] *)
Definition TaskType_str (t : TaskType) : string :=
  match t with
  | REASONING => "TaskType.REASONING"
  | RESEARCH => "TaskType.RESEARCH"
  | CODE_GENERATION => "TaskType.CODE_GENERATION"
  | DEBUGGING => "TaskType.DEBUGGING"
  | CREATIVE_OUTPUT => "TaskType.CREATIVE_OUTPUT"
  | IMAGE_GENERATION => "TaskType.IMAGE_GENERATION"
  | FACT_CHECKING => "TaskType.FACT_CHECKING"
  | VERIFICATION => "TaskType.VERIFICATION"
  end.

(** One value of the [MODEL_REGISTRY] dict; [local_only] is [None] where the
    key is absent. *)
Record ModelConfig := mkModel {
  provider : string;
  model_name : string;
  capabilities : list TaskType;
  cost_per_input_token : Q;
  cost_per_output_token : Q;
  average_latency : Q;
  max_context : Z;
  reliability_score : Q;
  local_only : option bool }.

(** The dict literal, in its order. *)
Definition MODEL_REGISTRY : list (string * ModelConfig) :=
  [
    ("groq-llama3-70b",
     mkModel "groq" "llama3-70b-8192"
       [REASONING; RESEARCH; CODE_GENERATION]
       0.00000059 0.00000079 0.5 8192 0.95 None);
    ("groq-mixtral-8x7b",
     mkModel "groq" "mixtral-8x7b-32768"
       [REASONING; CREATIVE_OUTPUT]
       0.00000027 0.00000027 0.4 32768 0.93 None);
    ("together-mixtral-8x7b",
     mkModel "together" "mistralai/Mixtral-8x7B-Instruct-v0.1"
       [REASONING; CODE_GENERATION]
       0.0000006 0.0000006 1.2 32768 0.92 None);
    ("together-llama2-70b",
     mkModel "together" "meta-llama/Llama-2-70b-chat-hf"
       [RESEARCH; CREATIVE_OUTPUT]
       0.0000009 0.0000009 1.5 4096 0.90 None);
    ("openrouter-claude-3-sonnet",
     mkModel "openrouter" "anthropic/claude-3-sonnet"
       [REASONING; RESEARCH; CODE_GENERATION; FACT_CHECKING]
       0.000003 0.000015 2.0 200000 0.98 None);
    ("openrouter-gpt4-turbo",
     mkModel "openrouter" "openai/gpt-4-turbo"
       [REASONING; CODE_GENERATION; DEBUGGING]
       0.00001 0.00003 3.0 128000 0.97 None);
    ("huggingface-mistral-7b",
     mkModel "huggingface" "mistralai/Mistral-7B-Instruct-v0.2"
       [REASONING; CREATIVE_OUTPUT]
       0.0000002 0.0000002 2.5 32768 0.85 None);
    ("ollama-llama2",
     mkModel "ollama" "llama2"
       [REASONING; RESEARCH; CREATIVE_OUTPUT]
       0.0 0.0 3.0 4096 0.85 (Some true));
    ("ollama-mistral",
     mkModel "ollama" "mistral"
       [REASONING; CODE_GENERATION; CREATIVE_OUTPUT]
       0.0 0.0 2.5 8192 0.87 (Some true));
    ("ollama-codellama",
     mkModel "ollama" "codellama"
       [CODE_GENERATION; DEBUGGING]
       0.0 0.0 3.5 4096 0.83 (Some true))
  ].

(** [MODEL_REGISTRY[model_id]], a [KeyError] for an unknown id. *)
Definition get_model_config (model_id : string) : Outcome ModelConfig :=
  match List.find (fun kv => String.eqb (fst kv) model_id) MODEL_REGISTRY with
  | Some kv => Returned (snd kv)
  | None => Raised (mkException "KeyError" model_id)
  end.

(** [task_type in config["capabilities"]] *)
Definition supports (task_type : TaskType) (config : ModelConfig) : bool :=
  existsb (TaskType_eqb task_type) (capabilities config).

Definition get_models_for_task_type (task_type : TaskType) : list string :=
  map fst (List.filter (fun kv => supports task_type (snd kv)) MODEL_REGISTRY).

(** [min(models, key=...)] and [max(models, key=...)]: the keys are computed
    left to right and the first item with the best key wins. *)
Fixpoint min_from {A} (key : A -> Outcome Q) (best : A) (best_key : Q) (rest : list A)
  : Outcome A :=
  match rest with
  | [] => Returned best
  | x :: rest' =>
      match key x with
      | Raised e => Raised e
      | Returned k =>
          if negb (Qle_bool best_key k) then min_from key x k rest'
          else min_from key best best_key rest'
      end
  end.

Definition py_min_key {A} (l : list A) (key : A -> Outcome Q) : Outcome A :=
  match l with
  | [] => Raised (mkException "ValueError" "min() arg is an empty sequence")
  | x :: rest =>
      match key x with
      | Raised e => Raised e
      | Returned k => min_from key x k rest
      end
  end.

Fixpoint max_from {A} (key : A -> Outcome Q) (best : A) (best_key : Q) (rest : list A)
  : Outcome A :=
  match rest with
  | [] => Returned best
  | x :: rest' =>
      match key x with
      | Raised e => Raised e
      | Returned k =>
          if negb (Qle_bool k best_key) then max_from key x k rest'
          else max_from key best best_key rest'
      end
  end.

Definition py_max_key {A} (l : list A) (key : A -> Outcome Q) : Outcome A :=
  match l with
  | [] => Raised (mkException "ValueError" "max() arg is an empty sequence")
  | x :: rest =>
      match key x with
      | Raised e => Raised e
      | Returned k => max_from key x k rest
      end
  end.

(** [m] is the first item of [l] with the least key. *)
Definition first_least {A} (key : A -> Outcome Q) (l : list A) (m : A) : Prop :=
  exists l1 l2 km,
    l = l1 ++ m :: l2 /\ key m = Returned km /\
    (forall x kx, x ∈ l1 -> key x = Returned kx -> (km < kx)%Q) /\
    (forall x kx, x ∈ l2 -> key x = Returned kx -> (km <= kx)%Q).

(** [m] is the first item of [l] with the greatest key. *)
Definition first_greatest {A} (key : A -> Outcome Q) (l : list A) (m : A) : Prop :=
  exists l1 l2 km,
    l = l1 ++ m :: l2 /\ key m = Returned km /\
    (forall x kx, x ∈ l1 -> key x = Returned kx -> (kx < km)%Q) /\
    (forall x kx, x ∈ l2 -> key x = Returned kx -> (kx <= km)%Q).

Definition all_keyed {A} (key : A -> Outcome Q) (l : list A) : Prop :=
  forall x, x ∈ l -> exists k, key x = Returned k.

(** The value of a key lambda that reads fields of [MODEL_REGISTRY[m]]. *)
Definition field_of (f : ModelConfig -> Q) (m : string) : Outcome Q :=
  match get_model_config m with
  | Returned config => Returned (f config)
  | Raised e => Raised e
  end.

Definition no_models_found (task_type : TaskType) : Exception :=
  mkException "ValueError" ("No models found for task type: " +:+ TaskType_str task_type).

Definition total_cost (config : ModelConfig) : Q :=
  (cost_per_input_token config + cost_per_output_token config)%Q.

Definition get_cheapest_model_for_task (task_type : TaskType) : Outcome string :=
  let models := get_models_for_task_type task_type in
  match models with
  | [] => Raised (no_models_found task_type)
  | _ => py_min_key models (field_of total_cost)
  end.

Definition get_fastest_model_for_task (task_type : TaskType) : Outcome string :=
  let models := get_models_for_task_type task_type in
  match models with
  | [] => Raised (no_models_found task_type)
  | _ => py_min_key models (field_of average_latency)
  end.

Definition get_best_quality_model_for_task (task_type : TaskType) : Outcome string :=
  let models := get_models_for_task_type task_type in
  match models with
  | [] => Raised (no_models_found task_type)
  | _ => py_max_key models (field_of reliability_score)
  end.

(** [m] supports [task_type], no supporting model has a smaller [metric],
    and those before [m] in the catalog have a strictly greater one. *)
Definition minimal_in_catalog (task_type : TaskType) (metric : ModelConfig -> Q)
    (m : string) : Prop :=
  exists config r1 r2,
    MODEL_REGISTRY = r1 ++ (m, config) :: r2 /\
    supports task_type config = true /\
    (forall m' config', (m', config') ∈ r1 -> supports task_type config' = true ->
       (metric config < metric config')%Q) /\
    (forall m' config', (m', config') ∈ r2 -> supports task_type config' = true ->
       (metric config <= metric config')%Q).

Definition maximal_in_catalog (task_type : TaskType) (metric : ModelConfig -> Q)
    (m : string) : Prop :=
  exists config r1 r2,
    MODEL_REGISTRY = r1 ++ (m, config) :: r2 /\
    supports task_type config = true /\
    (forall m' config', (m', config') ∈ r1 -> supports task_type config' = true ->
       (metric config' < metric config)%Q) /\
    (forall m' config', (m', config') ∈ r2 -> supports task_type config' = true ->
       (metric config' <= metric config)%Q).

Definition has_registered_model (task_type : TaskType) : Prop :=
  exists m config, (m, config) ∈ MODEL_REGISTRY /\ supports task_type config = true.

(** *** Cloud and local models *)

(** [config.get("local_only", False)] *)
Definition get_local_only (config : ModelConfig) : bool :=
  default false (local_only config).

Definition get_cloud_models_only : list string :=
  map fst (List.filter (fun kv => negb (get_local_only (snd kv))) MODEL_REGISTRY).

Definition get_local_models_only : list string :=
  map fst (List.filter (fun kv => get_local_only (snd kv)) MODEL_REGISTRY).

Definition is_local_model (model_id : string) : bool :=
  match List.find (fun kv => String.eqb (fst kv) model_id) MODEL_REGISTRY with
  | None => false
  | Some kv => get_local_only (snd kv)
  end.

End ModelRegistry.

(** ** execution_mode_config.py *)

Module ExecutionModeConfigs.

(** Modelled from the spec: the enum [ExecutionMode] of
    [ai_council/core/models.py], which is not among the sources; the spec
    names the three modes fast, balanced and best-quality, and the keys of
    [EXECUTION_MODE_CONFIGS] are their values. *)
Inductive ExecutionMode := FAST | BALANCED | BEST_QUALITY.

Definition value (m : ExecutionMode) : string :=
  match m with
  | FAST => "fast"
  | BALANCED => "balanced"
  | BEST_QUALITY => "best_quality"
  end.

(** Modelled from the spec: the dataclass [ExecutionModeConfig] of
    [ai_council/utils/config.py], which is not among the sources; its fields
    are the keyword arguments the presets are built with (the execution mode
    config of the data model). *)
Record ExecutionModeConfig := mkConfig {
  mode : ExecutionMode;
  max_parallel_executions : Z;
  timeout_seconds : Q;
  max_retries : Z;
  enable_arbitration : bool;
  enable_synthesis : bool;
  accuracy_requirement : Q;
  cost_limit : option Q;
  preferred_model_types : list string;
  fallback_strategy : string }.

Definition EXECUTION_MODE_CONFIGS : list (string * ExecutionModeConfig) :=
  [ ("fast",
     mkConfig FAST 3 30.0 1 false true 0.7 (Some 1.0%Q)
       ["groq-mixtral-8x7b"; "huggingface-mistral-7b"; "together-mixtral-8x7b"]
       "cheapest");
    ("balanced",
     mkConfig BALANCED 5 60.0 3 true true 0.8 (Some 5.0%Q)
       ["groq-llama3-70b"; "together-mixtral-8x7b"; "groq-mixtral-8x7b";
        "together-llama2-70b"]
       "automatic");
    ("best_quality",
     mkConfig BEST_QUALITY 8 120.0 5 true true 0.95 None
       ["openrouter-claude-3-sonnet"; "openrouter-gpt4-turbo"; "groq-llama3-70b";
        "together-llama2-70b"]
       "highest_quality") ].

(** [str.lower()] on the ASCII letters. *)
Definition lower_ascii (c : ascii) : ascii :=
  let n := nat_of_ascii c in
  if (65 <=? n)%nat && (n <=? 90)%nat then ascii_of_nat (n + 32) else c.

Fixpoint lower (s : string) : string :=
  match s with
  | EmptyString => EmptyString
  | String c s' => String (lower_ascii c) (lower s')
  end.

Definition get_execution_mode_config (execution_mode : ExecutionMode)
  : Outcome ExecutionModeConfig :=
  let mode_key := lower (value execution_mode) in
  match List.find (fun kv => String.eqb (fst kv) mode_key) EXECUTION_MODE_CONFIGS with
  | None =>
      Raised (mkException "ValueError"
                ("Unknown execution mode: " +:+ value execution_mode))
  | Some kv => Returned (snd kv)
  end.

(** The accessors, on a mode whose config exists. *)
Definition config_field {A} (f : ExecutionModeConfig -> A) (execution_mode : ExecutionMode)
  : Outcome A :=
  match get_execution_mode_config execution_mode with
  | Returned config => Returned (f config)
  | Raised e => Raised e
  end.

Definition get_max_parallel_executions := config_field max_parallel_executions.
Definition get_accuracy_requirement := config_field accuracy_requirement.
Definition get_cost_limit := config_field cost_limit.
Definition get_model_preferences_for_mode := config_field preferred_model_types.
Definition should_enable_arbitration := config_field enable_arbitration.

End ExecutionModeConfigs.

(** ** cloud_ai/config.py *)

Module CloudConfig.

Inductive DeploymentMode := CLOUD | LOCAL | HYBRID.

(** What lies outside: the process environment, and what a GET on a URL
    gives under [httpx.Client(timeout=2.0)], the status code of the response
    or [None] when an exception is raised. *)
Record Environment := mkEnv {
  environ : gmap string string;
  http_get : string -> option Z }.

(** [os.getenv(name)] and [os.getenv(name, default)] *)
Definition getenv (env : Environment) (name : string) : option string :=
  environ env !! name.

Definition getenv_or (env : Environment) (name default_value : string) : string :=
  default default_value (environ env !! name).

(** The truth value of an [Optional[str]]. *)
Definition truthy_str (o : option string) : bool :=
  match o with
  | None => false
  | Some v => negb (String.eqb v "")
  end.

Definition get_deployment_mode (env : Environment) : DeploymentMode :=
  let mode := ExecutionModeConfigs.lower (getenv_or env "AI_DEPLOYMENT_MODE" "cloud") in
  if String.eqb mode "local" then LOCAL
  else if String.eqb mode "hybrid" then HYBRID
  else CLOUD.

Definition should_use_cloud_providers (env : Environment) : bool :=
  match get_deployment_mode env with
  | CLOUD | HYBRID => true
  | LOCAL => false
  end.

Definition should_use_local_providers (env : Environment) : bool :=
  match get_deployment_mode env with
  | LOCAL | HYBRID => true
  | CLOUD => false
  end.

Definition get_ollama_base_url (env : Environment) : string :=
  getenv_or env "OLLAMA_BASE_URL" "http://localhost:11434".

Definition is_ollama_available (env : Environment) : bool :=
  let base_url := get_ollama_base_url env in
  match http_get env (base_url +:+ "/api/tags") with
  | Some status_code => status_code =? 200
  | None => false
  end.

Definition get_available_providers (env : Environment) : list string :=
  let providers := [] in
  let providers :=
    if should_use_cloud_providers env then
      let providers :=
        if truthy_str (getenv env "GROQ_API_KEY") then providers ++ ["groq"]
        else providers in
      let providers :=
        if truthy_str (getenv env "TOGETHER_API_KEY") then providers ++ ["together"]
        else providers in
      let providers :=
        if truthy_str (getenv env "OPENROUTER_API_KEY") then providers ++ ["openrouter"]
        else providers in
      let providers :=
        if truthy_str (getenv env "HUGGINGFACE_API_KEY") then providers ++ ["huggingface"]
        else providers in
      providers
    else providers in
  let providers :=
    if should_use_local_providers env && is_ollama_available env
    then providers ++ ["ollama"]
    else providers in
  providers.

Definition get_provider_priority (env : Environment) : list string :=
  match get_deployment_mode env with
  | LOCAL => ["ollama"]
  | CLOUD => ["groq"; "together"; "openrouter"; "huggingface"]
  | HYBRID => ["groq"; "together"; "openrouter"; "huggingface"; "ollama"]
  end.

(** The environment variable whose value [get_available_providers] tests
    for each cloud provider. *)
Definition API_KEY_NAMES : list (string * string) :=
  [ ("groq", "GROQ_API_KEY"); ("together", "TOGETHER_API_KEY");
    ("openrouter", "OPENROUTER_API_KEY"); ("huggingface", "HUGGINGFACE_API_KEY") ].

End CloudConfig.

(** * Properties *)

(** ** The circuit breaker *)

Module CircuitBreakerFacts.
Import CircuitBreaker.

Lemma run_bind {A B} (m : M A) (k : A -> M B) w :
  run (bind m k) w = run (k (result m w)) (run m w).
Proof. unfold run, result, bind. now destruct (m w). Qed.

Lemma result_bind {A B} (m : M A) (k : A -> M B) w :
  result (bind m k) w = result (k (result m w)) (run m w).
Proof. unfold run, result, bind. now destruct (m w). Qed.

Lemma run_eq {A} (m : M A) w a w' : m w = (a, w') -> run m w = w'.
Proof. unfold run. now intros ->. Qed.

Lemma result_eq {A} (m : M A) w a w' : m w = (a, w') -> result m w = a.
Proof. unfold result. now intros ->. Qed.

Lemma state_of_present p w s :
  states w !! p = Some s -> state_of p w = (s, w).
Proof. intros H. unfold state_of. now rewrite H. Qed.

Lemma state_of_absent p w :
  states w !! p = None -> state_of p w = (init_state, with_init p w).
Proof. intros H. unfold state_of. now rewrite H. Qed.

Lemma with_init_lookup p w : states (with_init p w) !! p = Some init_state.
Proof. apply lookup_insert_eq. Qed.

(** An operation that starts with [state_of] does the same from [w] and from
    [with_init p w] when [p] has no entry in [w]. *)
Lemma bind_state_of_absent {A} p (k : CircuitBreakerState -> M A) w :
  states w !! p = None ->
  bind (state_of p) k w = bind (state_of p) k (with_init p w).
Proof.
  intros H. unfold bind.
  rewrite (state_of_absent p w H).
  now rewrite (state_of_present p (with_init p w) init_state (with_init_lookup p w)).
Qed.

Lemma record_failure_absent cfg p w :
  states w !! p = None ->
  record_failure cfg p w = record_failure cfg p (with_init p w).
Proof. apply bind_state_of_absent. Qed.

Lemma record_success_absent cfg p w :
  states w !! p = None ->
  record_success cfg p w = record_success cfg p (with_init p w).
Proof. apply bind_state_of_absent. Qed.

Lemma get_state_absent p w :
  states w !! p = None ->
  get_state p w = get_state p (with_init p w).
Proof. apply bind_state_of_absent. Qed.

(** *** One step of [record_failure], by phase *)

Lemma record_failure_closed_below cfg p w s :
  states w !! p = Some s -> state s = CLOSED ->
  failure_count s + 1 < Config.failure_threshold cfg ->
  record_failure cfg p w =
    (tt, mkWorld (<[p := set_last_failure_time (Some (clock w (ticks w)))
                          (set_failure_count (failure_count s + 1) s)]> (states w))
                 (clock w) (S (ticks w))).
Proof.
  intros Hs Hst Hlt. unfold record_failure, bind.
  rewrite (state_of_present _ _ _ Hs). cbn. rewrite Hst.
  destruct (Z.leb_spec (Config.failure_threshold cfg) (failure_count s + 1)); [lia|].
  reflexivity.
Qed.

Lemma record_failure_closed_reach cfg p w s :
  states w !! p = Some s -> state s = CLOSED ->
  Config.failure_threshold cfg <= failure_count s + 1 ->
  record_failure cfg p w =
    (tt, mkWorld (<[p := mkState OPEN (failure_count s + 1) (success_count s)
                          (Some (clock w (ticks w))) (Some (clock w (S (ticks w))))
                          (Config.timeout cfg)]> (states w))
                 (clock w) (S (S (ticks w)))).
Proof.
  intros Hs Hst Hle. unfold record_failure, bind.
  rewrite (state_of_present _ _ _ Hs). cbn. rewrite Hst.
  destruct (Z.leb_spec (Config.failure_threshold cfg) (failure_count s + 1)); [|lia].
  reflexivity.
Qed.

Lemma record_failure_half_open cfg p w s :
  states w !! p = Some s -> state s = HALF_OPEN ->
  record_failure cfg p w =
    (tt, mkWorld (<[p := mkState OPEN (failure_count s + 1) (success_count s)
                          (Some (clock w (ticks w))) (Some (clock w (S (ticks w))))
                          (py_min (timeout s * 2) (Config.max_timeout cfg))]> (states w))
                 (clock w) (S (S (ticks w)))).
Proof.
  intros Hs Hst. unfold record_failure, bind.
  rewrite (state_of_present _ _ _ Hs). cbn. rewrite Hst. reflexivity.
Qed.

Lemma record_failure_open cfg p w s :
  states w !! p = Some s -> state s = OPEN ->
  record_failure cfg p w =
    (tt, mkWorld (<[p := set_last_failure_time (Some (clock w (ticks w)))
                          (set_failure_count (failure_count s + 1) s)]> (states w))
                 (clock w) (S (ticks w))).
Proof.
  intros Hs Hst. unfold record_failure, bind.
  rewrite (state_of_present _ _ _ Hs). cbn. rewrite Hst. reflexivity.
Qed.

(** *** [get_state], by phase *)

Lemma get_state_not_open p w s :
  states w !! p = Some s -> state s <> OPEN ->
  get_state p w = (state s, w).
Proof.
  intros Hs Hst. unfold get_state, bind.
  rewrite (state_of_present _ _ _ Hs).
  destruct (state s); try congruence; reflexivity.
Qed.

Lemma get_state_open_unset p w s :
  states w !! p = Some s -> state s = OPEN -> truthy (opened_at s) = false ->
  get_state p w = (OPEN, w).
Proof.
  intros Hs Hst Ht. unfold get_state, bind.
  rewrite (state_of_present _ _ _ Hs), Hst, Ht. reflexivity.
Qed.

Lemma get_state_open_waiting p w s t :
  states w !! p = Some s -> state s = OPEN -> opened_at s = Some t ->
  (clock w (ticks w) - t < timeout s)%Q ->
  result (get_state p) w = OPEN /\ states (run (get_state p) w) = states w.
Proof.
  intros Hs Hst Ho Hlt. unfold result, run, get_state, bind.
  rewrite (state_of_present _ _ _ Hs), Hst, Ho. cbn.
  destruct (negb (Qeq_bool t 0)); cbn; [|now split].
  destruct (Qle_bool (timeout s) (clock w (ticks w) - t)) eqn:E.
  - apply Qle_bool_iff in E. lra.
  - now split.
Qed.

Lemma get_state_open_elapsed p w s t :
  states w !! p = Some s -> state s = OPEN -> opened_at s = Some t ->
  ~ (t == 0)%Q -> (timeout s <= clock w (ticks w) - t)%Q ->
  get_state p w =
    (HALF_OPEN,
     mkWorld (<[p := set_success_count 0 (set_state HALF_OPEN s)]> (states w))
             (clock w) (S (ticks w))).
Proof.
  intros Hs Hst Ho Hnz Hle. unfold get_state, bind.
  rewrite (state_of_present _ _ _ Hs), Hst, Ho. cbn.
  destruct (Qeq_bool t 0) eqn:E0; [apply Qeq_bool_iff in E0; contradiction|]. cbn.
  apply Qle_bool_iff in Hle. rewrite Hle. reflexivity.
Qed.

Lemma is_available_result p w :
  result (is_available p) w = negb (CircuitState_eqb (result (get_state p) w) OPEN).
Proof.
  unfold result, is_available, bind, ret. now destruct (get_state p w).
Qed.

Lemma is_available_run p w : run (is_available p) w = run (get_state p) w.
Proof.
  unfold run, is_available, bind, ret. now destruct (get_state p w).
Qed.

(** *** Consecutive failures below the threshold *)

Lemma fail_times_below cfg p n : forall w s,
  states w !! p = Some s -> state s = CLOSED ->
  failure_count s + Z.of_nat n < Config.failure_threshold cfg ->
  exists s',
    states (run (fail_times cfg n p) w) !! p = Some s' /\
    state s' = CLOSED /\
    failure_count s' = failure_count s + Z.of_nat n /\
    clock (run (fail_times cfg n p) w) = clock w /\
    ticks (run (fail_times cfg n p) w) = (ticks w + n)%nat.
Proof.
  induction n as [|n IH]; intros w s Hs Hst Hlt.
  - exists s. cbn. repeat split; auto; lia.
  - cbn [fail_times]. rewrite run_bind.
    assert (Hlt' : failure_count s + 1 < Config.failure_threshold cfg) by lia.
    rewrite (run_eq _ _ _ _ (record_failure_closed_below cfg p w s Hs Hst Hlt')).
    set (s1 := set_last_failure_time _ _).
    set (w1 := mkWorld _ _ _).
    destruct (IH w1 s1) as (s' & H1 & H2 & H3 & H4 & H5).
    + apply lookup_insert_eq.
    + exact Hst.
    + cbn. lia.
    + exists s'. repeat split; auto.
      * rewrite H3. cbn. lia.
      * rewrite H5. cbn. lia.
Qed.

Lemma fail_times_absent cfg p n w :
  states w !! p = None -> (0 < n)%nat ->
  fail_times cfg n p w = fail_times cfg n p (with_init p w).
Proof.
  intros H Hn. destruct n; [lia|]. cbn [fail_times]. unfold bind.
  now rewrite (record_failure_absent cfg p w H).
Qed.

Lemma fail_times_snoc cfg p n w :
  run (fail_times cfg (S n) p) w =
  run (record_failure cfg p) (run (fail_times cfg n p) w).
Proof.
  revert w. induction n as [|n IH]; intros w.
  - cbn [fail_times]. now rewrite run_bind.
  - change (fail_times cfg (S (S n)) p)
      with (bind (record_failure cfg p) (fun _ => fail_times cfg (S n) p)).
    rewrite run_bind, IH. f_equal.
    cbn [fail_times]. now rewrite run_bind.
Qed.

(** A provider without an entry behaves as one whose entry is the fresh
    state: every operation creates the entry first. *)
Lemma initially_closed_entry cfg p w :
  initially_closed p w ->
  exists w0 s0,
    states w0 !! p = Some s0 /\ state s0 = CLOSED /\ failure_count s0 = 0 /\
    clock w0 = clock w /\ ticks w0 = ticks w /\
    get_state p w = (CLOSED, w0) /\
    forall n, (0 < n)%nat -> fail_times cfg n p w = fail_times cfg n p w0.
Proof.
  unfold initially_closed. intros H.
  destruct (states w !! p) as [s|] eqn:E.
  - destruct H as [Hst Hfc]. exists w, s. repeat split; auto.
    rewrite (get_state_not_open p w s E) by congruence. now rewrite Hst.
  - exists (with_init p w), init_state. repeat split; auto.
    + apply with_init_lookup.
    + rewrite (get_state_absent p w E).
      now rewrite (get_state_not_open _ _ _ (with_init_lookup p w)).
    + intros n Hn. now apply fail_times_absent.
Qed.

Lemma get_state_closed_entry p w s :
  states w !! p = Some s -> state s = CLOSED ->
  result (get_state p) w = CLOSED /\ result (is_available p) w = true.
Proof.
  intros Hs Hst.
  assert (E : result (get_state p) w = CLOSED).
  { rewrite (result_eq _ _ _ _ (get_state_not_open p w s Hs ltac:(congruence))).
    exact Hst. }
  split; [exact E|]. rewrite is_available_result, E. reflexivity.
Qed.

(** C1. Starting from the initial Closed state, any number of consecutive
    [record_failure] calls below [failure_threshold] leaves the provider
    Closed and available; the [failure_threshold]-th consecutive failure
    opens the circuit, with [opened_at] set to the clock reading taken at
    that moment and the current timeout set to the base timeout, and the
    provider is then unavailable (for an availability query made before the
    base timeout has elapsed since [opened_at]). *)
Theorem C1_failures_open_at_threshold cfg p w :
  let th := Z.to_nat (Config.failure_threshold cfg) in
  initially_closed p w ->
  1 <= Config.failure_threshold cfg ->
  (clock w (ticks w + th + 1) - clock w (ticks w + th) < Config.timeout cfg)%Q ->
  (forall n, (n < th)%nat ->
     result (get_state p) (run (fail_times cfg n p) w) = CLOSED /\
     result (is_available p) (run (fail_times cfg n p) w) = true) /\
  (exists s,
     states (run (fail_times cfg th p) w) !! p = Some s /\
     state s = OPEN /\
     opened_at s = Some (clock w (ticks w + th)) /\
     timeout s = Config.timeout cfg) /\
  result (get_state p) (run (fail_times cfg th p) w) = OPEN /\
  result (is_available p) (run (fail_times cfg th p) w) = false.
Proof.
  intros th Hinit Hth Hwait.
  destruct (initially_closed_entry cfg p w Hinit)
    as (w0 & s0 & Hs0 & Hst0 & Hfc0 & Hck & Htk & Hget & Hfail).
  assert (Hbelow : forall n, (n < th)%nat ->
            exists s', states (run (fail_times cfg n p) w0) !! p = Some s' /\
              state s' = CLOSED /\ failure_count s' = Z.of_nat n /\
              clock (run (fail_times cfg n p) w0) = clock w /\
              ticks (run (fail_times cfg n p) w0) = (ticks w + n)%nat).
  { intros n Hn.
    destruct (fail_times_below cfg p n w0 s0 Hs0 Hst0) as (s' & H1 & H2 & H3 & H4 & H5).
    - subst th. lia.
    - exists s'. repeat split; auto; try congruence. lia. }
  split; [|].
  - intros n Hn. destruct n as [|n].
    + cbn [fail_times]. unfold run at 1 2, ret. cbn [snd].
      rewrite is_available_result.
      rewrite (result_eq _ _ _ _ Hget). now split.
    + unfold run. rewrite (Hfail (S n)) by lia. fold (run (fail_times cfg (S n) p) w0).
      destruct (Hbelow (S n) Hn) as (s' & H1 & H2 & _).
      exact (get_state_closed_entry p _ s' H1 H2).
  - assert (Hpos : exists m, th = S m) by (exists (pred th); subst th; lia).
    destruct Hpos as [m Hm].
    assert (Hrun : run (fail_times cfg th p) w = run (fail_times cfg th p) w0).
    { unfold run. rewrite (Hfail th) by lia. reflexivity. }
    rewrite Hrun, Hm, fail_times_snoc.
    destruct (Hbelow m ltac:(lia)) as (s' & H1 & H2 & H3 & H4 & H5).
    set (w1 := run (fail_times cfg m p) w0) in *.
    assert (Hreach : Config.failure_threshold cfg <= failure_count s' + 1)
      by (subst th; lia).
    rewrite (run_eq _ _ _ _ (record_failure_closed_reach cfg p w1 s' H1 H2 Hreach)).
    set (s2 := mkState OPEN _ _ _ _ _).
    set (w2 := mkWorld _ _ _).
    assert (Hs2 : states w2 !! p = Some s2) by apply lookup_insert_eq.
    assert (Hopen : opened_at s2 = Some (clock w (ticks w + th))).
    { subst s2. cbn. rewrite H4, H5, Hm. do 2 f_equal. lia. }
    rewrite <- Hm.
    split; [exists s2; repeat split; auto|].
    assert (Hq : (clock w2 (ticks w2) - clock w (ticks w + th) < timeout s2)%Q).
    { subst w2 s2. cbn. rewrite H4, H5.
      replace (S (S (ticks w + m))) with (ticks w + th + 1)%nat by lia.
      exact Hwait. }
    destruct (get_state_open_waiting p w2 s2 _ Hs2 eq_refl Hopen Hq) as [Hg _].
    split; [exact Hg|]. rewrite is_available_result, Hg. reflexivity.
Qed.

Lemma C1_failures_open_at_threshold_witness :
  let w := mkWorld ∅ (fun n => inject_Z (1000 + Z.of_nat n)) 0 in
  initially_closed "groq" w /\
  result (is_available "groq") (run (fail_times default_config 4 "groq") w) = true /\
  result (is_available "groq") (run (fail_times default_config 5 "groq") w) = false.
Proof.
  intros w.
  assert (Hi : initially_closed "groq" w) by exact I.
  assert (Ht : 1 <= Config.failure_threshold default_config) by (cbn; lia).
  assert (Hw : (clock w (ticks w + Z.to_nat (Config.failure_threshold default_config) + 1)
                - clock w (ticks w + Z.to_nat (Config.failure_threshold default_config))
                < Config.timeout default_config)%Q) by (vm_compute; reflexivity).
  destruct (C1_failures_open_at_threshold default_config "groq" w Hi Ht Hw)
    as (Hlow & _ & _ & Hopen).
  split; [exact Hi|]. split; [|exact Hopen].
  apply (Hlow 4%nat). cbn. lia.
Defined.

(** *** One step of [record_success], by phase *)

Lemma record_success_half_open_below cfg p w s :
  states w !! p = Some s -> state s = HALF_OPEN ->
  success_count s + 1 < Config.success_threshold cfg ->
  record_success cfg p w =
    (tt, mkWorld (<[p := set_success_count (success_count s + 1) s]> (states w))
                 (clock w) (ticks w)).
Proof.
  intros Hs Hst Hlt. unfold record_success, bind.
  rewrite (state_of_present _ _ _ Hs), Hst. cbn.
  destruct (Z.leb_spec (Config.success_threshold cfg) (success_count s + 1)); [lia|].
  reflexivity.
Qed.

Lemma record_success_half_open_reach cfg p w s :
  states w !! p = Some s -> state s = HALF_OPEN ->
  Config.success_threshold cfg <= success_count s + 1 ->
  record_success cfg p w =
    (tt, mkWorld (<[p := mkState CLOSED 0 0 (last_failure_time s) (opened_at s)
                          (Config.timeout cfg)]> (states w))
                 (clock w) (ticks w)).
Proof.
  intros Hs Hst Hle. unfold record_success, bind.
  rewrite (state_of_present _ _ _ Hs), Hst. cbn.
  destruct (Z.leb_spec (Config.success_threshold cfg) (success_count s + 1)); [|lia].
  reflexivity.
Qed.

Lemma record_success_closed cfg p w s :
  states w !! p = Some s -> state s = CLOSED ->
  record_success cfg p w =
    (tt, mkWorld (<[p := set_failure_count 0 s]> (states w)) (clock w) (ticks w)).
Proof.
  intros Hs Hst. unfold record_success, bind.
  rewrite (state_of_present _ _ _ Hs), Hst. reflexivity.
Qed.

Lemma record_success_open cfg p w s :
  states w !! p = Some s -> state s = OPEN ->
  record_success cfg p w = (tt, w).
Proof.
  intros Hs Hst. unfold record_success, bind.
  rewrite (state_of_present _ _ _ Hs), Hst. reflexivity.
Qed.

(** Successes while Closed keep the provider Closed, with the failure count
    at zero and the timeout untouched. *)
Lemma succeed_times_closed cfg p n : forall w s,
  states w !! p = Some s -> state s = CLOSED -> failure_count s = 0 ->
  exists s',
    states (run (succeed_times cfg n p) w) !! p = Some s' /\
    state s' = CLOSED /\ failure_count s' = 0 /\ timeout s' = timeout s.
Proof.
  induction n as [|n IH]; intros w s Hs Hst Hfc.
  - exists s. cbn. auto.
  - cbn [succeed_times]. rewrite run_bind.
    rewrite (run_eq _ _ _ _ (record_success_closed cfg p w s Hs Hst)).
    destruct (IH (mkWorld (<[p := set_failure_count 0 s]> (states w)) (clock w) (ticks w))
                 (set_failure_count 0 s)) as (s' & H1 & H2 & H3 & H4); auto.
    + apply lookup_insert_eq.
    + exists s'. auto.
Qed.

(** Successes while Half-Open are counted until the threshold is reached. *)
Lemma succeed_times_half_open_below cfg p n : forall w s,
  states w !! p = Some s -> state s = HALF_OPEN ->
  ((0 < n)%nat -> success_count s + Z.of_nat n < Config.success_threshold cfg) ->
  exists s',
    states (run (succeed_times cfg n p) w) !! p = Some s' /\
    state s' = HALF_OPEN /\
    success_count s' = success_count s + Z.of_nat n /\
    timeout s' = timeout s.
Proof.
  induction n as [|n IH]; intros w s Hs Hst Hlt.
  - exists s. cbn. repeat split; auto; lia.
  - cbn [succeed_times]. rewrite run_bind.
    specialize (Hlt ltac:(lia)).
    assert (Hlt' : success_count s + 1 < Config.success_threshold cfg) by lia.
    rewrite (run_eq _ _ _ _ (record_success_half_open_below cfg p w s Hs Hst Hlt')).
    set (s1 := set_success_count _ _).
    set (w1 := mkWorld _ _ _).
    destruct (IH w1 s1) as (s' & H1 & H2 & H3 & H4).
    + apply lookup_insert_eq.
    + exact Hst.
    + cbn. lia.
    + exists s'. repeat split; auto. rewrite H3. cbn. lia.
Qed.

Lemma succeed_times_app cfg p n m w :
  run (succeed_times cfg (n + m) p) w =
  run (succeed_times cfg m p) (run (succeed_times cfg n p) w).
Proof.
  revert w. induction n as [|n IH]; intros w.
  - reflexivity.
  - cbn [Nat.add succeed_times]. now rewrite !run_bind, IH.
Qed.

Lemma succeed_times_half_open_closes cfg p w s :
  states w !! p = Some s -> state s = HALF_OPEN ->
  0 <= success_count s -> 1 <= Config.success_threshold cfg ->
  exists s',
    states (run (succeed_times cfg (Z.to_nat (Config.success_threshold cfg)) p) w) !! p
      = Some s' /\
    state s' = CLOSED /\ failure_count s' = 0 /\ timeout s' = Config.timeout cfg.
Proof.
  intros Hs Hst Hsc Hth.
  remember (Config.success_threshold cfg) as th eqn:Eth in *.
  (* [a] successes are counted, the next one closes, [b] more find it Closed *)
  set (a := Z.to_nat (Z.max 0 (th - 1 - success_count s))).
  set (b := (Z.to_nat th - S a)%nat).
  replace (Z.to_nat th) with (a + (1 + b))%nat by (subst a b; lia).
  rewrite succeed_times_app, succeed_times_app.
  destruct (succeed_times_half_open_below cfg p a w s Hs Hst) as (s1 & H1 & H2 & H3 & H4).
  { rewrite <- Eth. subst a. lia. }
  set (w1 := run (succeed_times cfg a p) w) in *.
  assert (Hreach : th <= success_count s1 + 1).
  { rewrite H3. subst a. lia. }
  rewrite Eth in Hreach.
  cbn [succeed_times]. rewrite run_bind.
  rewrite (run_eq _ _ _ _ (record_success_half_open_reach cfg p w1 s1 H1 H2 Hreach)).
  unfold run at 2, ret. cbn [snd].
  set (s2 := mkState CLOSED _ _ _ _ _).
  set (w2 := mkWorld _ _ _).
  destruct (succeed_times_closed cfg p b w2 s2) as (s' & G1 & G2 & G3 & G4); auto.
  - apply lookup_insert_eq.
  - exists s'. auto.
Qed.

Lemma py_min_Qmin a b : (py_min a b == Qmin a b)%Q.
Proof.
  unfold py_min. destruct (Qlt_le_dec b a) as [Hlt|Hle].
  - symmetry. apply Q.min_r. lra.
  - symmetry. now apply Q.min_l.
Qed.

(** C2. An Open provider whose [opened_at] is set and whose current timeout
    has elapsed is reported Half-Open by the next [get_state], with the
    half-open success count reset to 0.  From Half-Open, successes are
    counted while below [success_threshold], and [success_threshold]
    consecutive [record_success] calls leave the provider Closed with the
    failure count 0 and the current timeout reset to the base timeout; one
    [record_failure] sends it back to Open with the current timeout doubled,
    capped at [max_timeout]. *)
Theorem C2_half_open_recovery cfg p wo so t wh sh :
  states wo !! p = Some so -> state so = OPEN ->
  opened_at so = Some t -> truthy (opened_at so) = true ->
  (timeout so <= clock wo (ticks wo) - t)%Q ->
  states wh !! p = Some sh -> state sh = HALF_OPEN ->
  0 <= success_count sh -> 1 <= Config.success_threshold cfg ->
  (result (get_state p) wo = HALF_OPEN /\
   exists s', states (run (get_state p) wo) !! p = Some s' /\
              state s' = HALF_OPEN /\ success_count s' = 0) /\
  (forall n, success_count sh + Z.of_nat n < Config.success_threshold cfg ->
     exists s', states (run (succeed_times cfg n p) wh) !! p = Some s' /\
                state s' = HALF_OPEN) /\
  (exists s',
     states (run (succeed_times cfg (Z.to_nat (Config.success_threshold cfg)) p) wh) !! p
       = Some s' /\
     state s' = CLOSED /\ failure_count s' = 0 /\ timeout s' = Config.timeout cfg) /\
  (exists s',
     states (run (record_failure cfg p) wh) !! p = Some s' /\
     state s' = OPEN /\
     opened_at s' = Some (clock wh (S (ticks wh))) /\
     (timeout s' == Qmin (timeout sh * 2) (Config.max_timeout cfg))%Q).
Proof.
  intros Hso Hsto Hopen Hset Hel Hsh Hsth Hsc Hth.
  assert (Hnz : ~ (t == 0)%Q).
  { rewrite Hopen in Hset. cbn in Hset. intros E.
    apply Qeq_bool_iff in E. rewrite E in Hset. discriminate. }
  repeat split.
  - exact (result_eq _ _ _ _ (get_state_open_elapsed p wo so t Hso Hsto Hopen Hnz Hel)).
  - rewrite (run_eq _ _ _ _ (get_state_open_elapsed p wo so t Hso Hsto Hopen Hnz Hel)).
    eexists. split; [apply lookup_insert_eq|]. now split.
  - intros n Hn.
    destruct (succeed_times_half_open_below cfg p n wh sh Hsh Hsth (fun _ => Hn))
      as (s' & H1 & H2 & _).
    now exists s'.
  - exact (succeed_times_half_open_closes cfg p wh sh Hsh Hsth Hsc Hth).
  - rewrite (run_eq _ _ _ _ (record_failure_half_open cfg p wh sh Hsh Hsth)).
    eexists. split; [apply lookup_insert_eq|]. cbn. repeat split.
    apply py_min_Qmin.
Qed.

Lemma C2_half_open_recovery_witness :
  let so := mkState OPEN 5 0 (Some 1000%Q) (Some 1000%Q) 60 in
  let wo := mkWorld {[ "groq" := so ]} (fun _ => 1060%Q) 0 in
  let sh := mkState HALF_OPEN 5 0 (Some 1000%Q) (Some 1000%Q) 240 in
  let wh := mkWorld {[ "groq" := sh ]} (fun _ => 1300%Q) 0 in
  result (get_state "groq") wo = HALF_OPEN /\
  exists s', states (run (record_failure default_config "groq") wh) !! "groq" = Some s' /\
             state s' = OPEN /\ (timeout s' == 300)%Q.
Proof.
  intros so wo sh wh.
  destruct (C2_half_open_recovery default_config "groq" wo so 1000%Q wh sh)
    as ((Hg & _) & _ & _ & (s' & H1 & H2 & _ & H4)).
  - reflexivity.
  - reflexivity.
  - reflexivity.
  - reflexivity.
  - vm_compute. discriminate.
  - reflexivity.
  - reflexivity.
  - vm_compute. discriminate.
  - vm_compute. discriminate.
  - split; [exact Hg|]. exists s'. repeat split; auto.
Defined.

(** C10. While a provider is Open, [record_success] changes nothing at all,
    and [record_failure] only counts the failure and stamps its time: the
    phase stays Open and [opened_at], the current timeout and the half-open
    success count are as before, so reports arriving during an outage do not
    move the backoff window. *)
Theorem C10_open_phase_frame cfg p w s :
  states w !! p = Some s -> state s = OPEN ->
  record_success cfg p w = (tt, w) /\
  exists s',
    states (run (record_failure cfg p) w) = <[p := s']> (states w) /\
    state s' = OPEN /\
    opened_at s' = opened_at s /\
    timeout s' = timeout s /\
    success_count s' = success_count s /\
    failure_count s' = failure_count s + 1 /\
    last_failure_time s' = Some (clock w (ticks w)).
Proof.
  intros Hs Hst. split.
  - exact (record_success_open cfg p w s Hs Hst).
  - rewrite (run_eq _ _ _ _ (record_failure_open cfg p w s Hs Hst)).
    eexists. split; [reflexivity|]. cbn. repeat split. exact Hst.
Qed.

Lemma C10_open_phase_frame_witness :
  let s := mkState OPEN 5 0 (Some 1000%Q) (Some 1000%Q) 120 in
  let w := mkWorld {[ "together" := s ]} (fun n => inject_Z (1010 + Z.of_nat n)) 0 in
  record_success default_config "together" w = (tt, w) /\
  exists s', states (run (record_failure default_config "together") w)
               = <[ "together" := s' ]> (states w) /\
             state s' = OPEN /\ opened_at s' = Some 1000%Q /\ timeout s' = 120%Q.
Proof.
  intros s w.
  destruct (C10_open_phase_frame default_config "together" w s eq_refl eq_refl)
    as (Hsucc & s' & H1 & H2 & H3 & H4 & _).
  split; [exact Hsucc|]. exists s'. auto.
Defined.

(** *** [call] *)

(** A state query answered [OPEN] has changed nothing in the breaker. *)
Lemma get_state_open_states p w :
  result (get_state p) w = OPEN -> states (run (get_state p) w) = states w.
Proof.
  unfold result, run, get_state, bind, state_of.
  destruct (states w !! p) as [s|] eqn:E; cbn; [|discriminate].
  destruct (CircuitState_eqb (state s) OPEN && truthy (opened_at s)); cbn; [|reflexivity].
  destruct (Qle_bool _ _); cbn; [discriminate|reflexivity].
Qed.

Lemma call_unfold cfg {R} p (func : M (Outcome R)) w :
  call cfg p func w =
    let w1 := run (is_available p) w in
    if result (is_available p) w then
      match func w1 with
      | (Returned v, w2) => (Returned v, run (record_success cfg p) w2)
      | (Raised e, w2) => (Raised e, run (record_failure cfg p) w2)
      end
    else (Raised (CircuitBreakerOpenError p), w1).
Proof.
  unfold call, run, result, bind at 1.
  destruct (is_available p w) as [ok w1]. cbn [fst snd].
  destruct ok; cbn [negb]; [|reflexivity].
  unfold bind at 1. destruct (func w1) as [[v|e] w2].
  - unfold bind, ret. now destruct (record_success cfg p w2).
  - unfold bind, ret. now destruct (record_failure cfg p w2).
Qed.

(** C5. When the provider is unavailable, [call] raises
    [CircuitBreakerOpenError] whatever the operation is (the operation is not
    run), and the rejection leaves every circuit state as it was; when the
    provider is available, [call] runs the operation, then records a success
    and returns its result, or records a failure and raises the operation's
    exception again. *)
Theorem C5_call_bookkeeping cfg {R} p (func : M (Outcome R)) w :
  (result (is_available p) w = false ->
     call cfg p func w = (Raised (CircuitBreakerOpenError p), run (is_available p) w) /\
     (forall func' : M (Outcome R), call cfg p func' w = call cfg p func w) /\
     states (run (call cfg p func) w) = states w) /\
  (result (is_available p) w = true ->
     forall r w2, func (run (is_available p) w) = (r, w2) ->
       match r with
       | Returned v => call cfg p func w = (Returned v, run (record_success cfg p) w2)
       | Raised e => call cfg p func w = (Raised e, run (record_failure cfg p) w2)
       end).
Proof.
  split.
  - intros Hno.
    assert (Hc : forall f : M (Outcome R),
               call cfg p f w = (Raised (CircuitBreakerOpenError p), run (is_available p) w)).
    { intros f. rewrite call_unfold. cbn zeta. now rewrite Hno. }
    split; [apply Hc|]. split; [intros f; now rewrite !Hc|].
    rewrite (run_eq _ _ _ _ (Hc func)), is_available_run.
    apply get_state_open_states.
    rewrite is_available_result in Hno.
    now destruct (result (get_state p) w).
  - intros Hyes r w2 Hf. rewrite call_unfold. cbn zeta. rewrite Hyes, Hf.
    now destruct r.
Qed.

Lemma C5_call_bookkeeping_witness :
  let s := mkState OPEN 5 0 (Some 1000%Q) (Some 1000%Q) 60 in
  let w := mkWorld {[ "groq" := s ]} (fun n => inject_Z (1010 + Z.of_nat n)) 0 in
  let w0 := mkWorld ∅ (fun n => inject_Z (1010 + Z.of_nat n)) 0 in
  let boom : M (Outcome Z) := fun w => (Raised (mkException "ValueError" "Test error"), w) in
  states (run (call default_config "groq" boom) w) = states w /\
  call default_config "groq" boom w0 =
    (Raised (mkException "ValueError" "Test error"),
     run (record_failure default_config "groq") (run (is_available "groq") w0)).
Proof.
  intros s w w0 boom. split.
  - destruct (C5_call_bookkeeping default_config "groq" boom w) as [Hrej _].
    destruct Hrej as (_ & _ & H); [vm_compute; reflexivity | exact H].
  - destruct (C5_call_bookkeeping default_config "groq" boom w0) as [_ Hok].
    exact (Hok ltac:(vm_compute; reflexivity) _ _ eq_refl).
Defined.

(** *** Every operation, entry by entry *)

Lemma get_state_cases p w s :
  states w !! p = Some s ->
  clock (run (get_state p) w) = clock w /\
  ((states (run (get_state p) w) = states w /\ result (get_state p) w = state s /\
    (state s = OPEN -> truthy (opened_at s) = true ->
       Qle_bool (timeout s) (clock w (ticks w) - default 0%Q (opened_at s)) = false)) \/
   (state s = OPEN /\ truthy (opened_at s) = true /\
    Qle_bool (timeout s) (clock w (ticks w) - default 0%Q (opened_at s)) = true /\
    result (get_state p) w = HALF_OPEN /\
    states (run (get_state p) w)
      = <[p := set_success_count 0 (set_state HALF_OPEN s)]> (states w))).
Proof.
  intros Hs. unfold run, result, get_state, bind.
  rewrite (state_of_present _ _ _ Hs).
  destruct (state s) eqn:Est; cbn;
    try (split; [reflexivity|left; split; [reflexivity|split; [congruence|congruence]]]).
  destruct (truthy (opened_at s)) eqn:Et; cbn;
    [|split; [reflexivity|left; split; [reflexivity|split; [congruence|congruence]]]].
  destruct (Qle_bool _ _) eqn:Ee; cbn.
  - split; [reflexivity|]. right. auto.
  - split; [reflexivity|]. left. split; [reflexivity|]. split; [congruence|auto].
Qed.

Section Entries.
Variable config : CircuitBreakerConfig.
Variable good : CircuitBreakerState -> Prop.

Hypothesis good_init : good init_state.
Hypothesis good_trial : forall s,
  good s -> state s = OPEN -> truthy (opened_at s) = true ->
  good (set_success_count 0 (set_state HALF_OPEN s)).
Hypothesis good_success_counted : forall s,
  good s -> state s = HALF_OPEN ->
  success_count s + 1 < Config.success_threshold config ->
  good (set_success_count (success_count s + 1) s).
Hypothesis good_recovered : forall s,
  good s -> state s = HALF_OPEN ->
  Config.success_threshold config <= success_count s + 1 ->
  good (mkState CLOSED 0 0 (last_failure_time s) (opened_at s) (Config.timeout config)).
Hypothesis good_success_closed : forall s,
  good s -> state s = CLOSED -> good (set_failure_count 0 s).
Hypothesis good_failure_counted : forall s t,
  good s -> state s = CLOSED ->
  failure_count s + 1 < Config.failure_threshold config ->
  good (set_last_failure_time (Some t) (set_failure_count (failure_count s + 1) s)).
Hypothesis good_opened : forall s t t',
  good s -> state s = CLOSED ->
  Config.failure_threshold config <= failure_count s + 1 ->
  good (mkState OPEN (failure_count s + 1) (success_count s) (Some t) (Some t')
          (Config.timeout config)).
Hypothesis good_reopened : forall s t t',
  good s -> state s = HALF_OPEN ->
  good (mkState OPEN (failure_count s + 1) (success_count s) (Some t) (Some t')
          (py_min (timeout s * 2) (Config.max_timeout config))).
Hypothesis good_failure_open : forall s t,
  good s -> state s = OPEN ->
  good (set_last_failure_time (Some t) (set_failure_count (failure_count s + 1) s)).

Local Abbreviation touches := (touches_only good).

Lemma touches_same ps w w' :
  clock w' = clock w -> states w' = states w -> touches ps w w'.
Proof.
  intros Hc Hs. split; [exact Hc|]. split.
  - intros q _. now rewrite Hs.
  - intros H q s. rewrite Hs. apply H.
Qed.

Lemma touches_insert p s' w w' :
  clock w' = clock w -> states w' = <[p := s']> (states w) ->
  (all_entries good w -> good s') -> touches [p] w w'.
Proof.
  intros Hc Hs Hg. split; [exact Hc|]. split.
  - intros q Hq. rewrite Hs. apply lookup_insert_ne. set_solver.
  - intros H q s. rewrite Hs. destruct (decide (p = q)) as [->|Hne].
    + rewrite lookup_insert_eq. intros [= <-]. now apply Hg.
    + rewrite lookup_insert_ne by exact Hne. apply H.
Qed.

Lemma touches_trans ps1 ps2 w1 w2 w3 :
  touches ps1 w1 w2 -> touches ps2 w2 w3 -> touches (ps1 ++ ps2) w1 w3.
Proof.
  intros (C1 & F1 & I1) (C2 & F2 & I2). split; [congruence|]. split.
  - intros q Hq. rewrite F2, F1; [reflexivity| |]; set_solver.
  - auto.
Qed.

Lemma touches_weaken ps ps' w w' :
  (forall q, q ∈ ps -> q ∈ ps') -> touches ps w w' -> touches ps' w w'.
Proof.
  intros Hsub (C & F & I). split; [exact C|]. split; [|exact I].
  intros q Hq. apply F. intros Hin. apply Hq. now apply Hsub.
Qed.

Lemma touches_with_init p w : touches [p] w (with_init p w).
Proof. apply (touches_insert p init_state); auto. Qed.

(** An operation that first makes sure the entry exists. *)
Lemma touches_entry {A} p (m : M A) w :
  (states w !! p = None -> m w = m (with_init p w)) ->
  (forall w0 s, states w0 !! p = Some s -> touches [p] w0 (run m w0)) ->
  touches [p] w (run m w).
Proof.
  intros Habs Hpres. destruct (states w !! p) as [s|] eqn:E.
  - now apply (Hpres w s).
  - unfold run. rewrite (Habs eq_refl). fold (run m (with_init p w)).
    apply (touches_weaken ([p] ++ [p])); [set_solver|].
    eapply touches_trans; [apply touches_with_init|].
    apply (Hpres _ init_state), with_init_lookup.
Qed.

Lemma get_state_touches p w : touches [p] w (run (get_state p) w).
Proof.
  apply touches_entry; [apply get_state_absent|].
  intros w0 s Hs. destruct (get_state_cases p w0 s Hs) as [Hc [(E & _)|(O & T & _ & _ & E)]].
  - now apply touches_same.
  - apply (touches_insert p _ w0 _ Hc E). intros H. apply good_trial; auto.
    exact (H p s Hs).
Qed.

Lemma record_success_touches p w : touches [p] w (run (record_success config p) w).
Proof.
  apply touches_entry; [apply record_success_absent|].
  intros w0 s Hs. destruct (state s) eqn:Est.
  - rewrite (run_eq _ _ _ _ (record_success_closed config p w0 s Hs Est)).
    eapply touches_insert; [reflexivity|reflexivity|].
    intros H. apply good_success_closed; [exact (H p s Hs)|exact Est].
  - rewrite (run_eq _ _ _ _ (record_success_open config p w0 s Hs Est)).
    now apply touches_same.
  - destruct (Z.lt_ge_cases (success_count s + 1) (Config.success_threshold config))
      as [Hlt|Hge].
    + rewrite (run_eq _ _ _ _ (record_success_half_open_below config p w0 s Hs Est Hlt)).
      eapply touches_insert; [reflexivity|reflexivity|].
      intros H. apply good_success_counted; auto. exact (H p s Hs).
    + rewrite (run_eq _ _ _ _ (record_success_half_open_reach config p w0 s Hs Est Hge)).
      eapply touches_insert; [reflexivity|reflexivity|].
      intros H. apply good_recovered; auto. exact (H p s Hs).
Qed.

Lemma record_failure_touches p w : touches [p] w (run (record_failure config p) w).
Proof.
  apply touches_entry; [apply record_failure_absent|].
  intros w0 s Hs. destruct (state s) eqn:Est.
  - destruct (Z.lt_ge_cases (failure_count s + 1) (Config.failure_threshold config))
      as [Hlt|Hge].
    + rewrite (run_eq _ _ _ _ (record_failure_closed_below config p w0 s Hs Est Hlt)).
      eapply touches_insert; [reflexivity|reflexivity|].
      intros H. apply good_failure_counted; auto. exact (H p s Hs).
    + rewrite (run_eq _ _ _ _ (record_failure_closed_reach config p w0 s Hs Est Hge)).
      eapply touches_insert; [reflexivity|reflexivity|].
      intros H. apply good_opened; auto. exact (H p s Hs).
  - rewrite (run_eq _ _ _ _ (record_failure_open config p w0 s Hs Est)).
    eapply touches_insert; [reflexivity|reflexivity|].
    intros H. apply good_failure_open; auto. exact (H p s Hs).
  - rewrite (run_eq _ _ _ _ (record_failure_half_open config p w0 s Hs Est)).
    eapply touches_insert; [reflexivity|reflexivity|].
    intros H. apply good_reopened; auto. exact (H p s Hs).
Qed.

Lemma is_available_touches p w : touches [p] w (run (is_available p) w).
Proof. rewrite is_available_run. apply get_state_touches. Qed.

Lemma reset_touches p w : touches [p] w (run (reset p) w).
Proof.
  unfold run, reset. destruct (states w !! p); cbn.
  - eapply touches_insert; [reflexivity|reflexivity|]. auto.
  - now apply touches_same.
Qed.

Lemma call_touches p (raises : bool) w :
  touches [p] w
    (run (call config p
            (ret (if raises then @Raised unit (mkException "Exception" "")
                  else Returned tt))) w).
Proof.
  unfold run. rewrite call_unfold. cbn zeta.
  destruct (result (is_available p) w).
  - unfold ret. cbn [fst snd].
    apply (touches_weaken ([p] ++ [p])); [set_solver|].
    destruct raises; cbn [snd].
    + eapply touches_trans; [apply is_available_touches|apply record_failure_touches].
    + eapply touches_trans; [apply is_available_touches|apply record_success_touches].
  - cbn [snd]. apply is_available_touches.
Qed.

Lemma get_fallback_provider_touches failed candidates : forall w,
  touches (List.filter (fun c => negb (String.eqb c failed)) candidates) w
    (run (get_fallback_provider failed candidates) w).
Proof.
  induction candidates as [|c candidates IH]; intros w.
  - now apply touches_same.
  - cbn [get_fallback_provider List.filter].
    destruct (negb (String.eqb c failed)); [|apply IH].
    rewrite run_bind.
    change (c :: List.filter (fun c0 => negb (String.eqb c0 failed)) candidates)
      with ([c] ++ List.filter (fun c0 => negb (String.eqb c0 failed)) candidates).
    destruct (result (is_available c) w).
    + unfold run at 1, ret. cbn [snd].
      eapply touches_weaken; [|apply is_available_touches]. set_solver.
    + eapply touches_trans; [apply is_available_touches|apply IH].
Qed.

Lemma run_op_touches op w : touches (op_targets op) w (run (run_op config op) w).
Proof.
  destruct op as [p|p|p|p|p raises|failed candidates|p|p]; cbn [run_op op_targets].
  - rewrite run_bind. unfold run at 1, ret. cbn [snd]. apply get_state_touches.
  - apply record_success_touches.
  - apply record_failure_touches.
  - rewrite run_bind. unfold run at 1, ret. cbn [snd]. apply is_available_touches.
  - rewrite run_bind. unfold run at 1, ret. cbn [snd]. apply call_touches.
  - rewrite run_bind. unfold run at 1, ret. cbn [snd].
    apply get_fallback_provider_touches.
  - apply reset_touches.
  - rewrite run_bind. unfold run at 1, ret. cbn [snd].
    apply touches_same; unfold run, get_stats; now destruct (states w !! p).
Qed.

Lemma run_ops_touches ops : forall w,
  touches (concat (map op_targets ops)) w (run (run_ops config ops) w).
Proof.
  induction ops as [|op ops IH]; intros w.
  - now apply touches_same.
  - cbn [run_ops map concat]. rewrite run_bind.
    eapply touches_trans; [apply run_op_touches|apply IH].
Qed.

End Entries.

(** *** Properties of the whole interface *)

(** Operations leave alone the providers they are not about; in particular
    [get_fallback_provider] leaves the failed provider alone. *)
Theorem ops_leave_other_providers config ops q w :
  (forall op, op ∈ ops -> q ∉ op_targets op) ->
  states (run (run_ops config ops) w) !! q = states w !! q.
Proof.
  intros Hq.
  unshelve epose proof (run_ops_touches config (fun _ => True) _ _ _ _ _ _ _ _ _ ops w)
    as (_ & F & _); try (intros; exact I).
  apply F. intros Hin.
  apply list_elem_of_In, in_concat in Hin as (l & Hll & Hl).
  apply in_map_iff in Hll as (op & <- & Hop).
  apply list_elem_of_In in Hop, Hl. exact (Hq op Hop Hl).
Qed.

Lemma ops_leave_other_providers_witness :
  let w := run (fail_times default_config 3 "together") (fresh (fun n => inject_Z (Z.of_nat n))) in
  let ops := [RecordFailure "groq"; RecordFailure "groq"; GetState "groq"; Reset "groq";
              GetFallbackProvider "together" ["together"; "groq"]; Call "groq" true] in
  states (run (run_ops default_config ops) w) !! "together" = states w !! "together".
Proof.
  intros w ops. apply ops_leave_other_providers.
  intros op Hop. subst ops.
  repeat (apply elem_of_cons in Hop as [->|Hop]; [cbn; set_solver|]).
  now apply elem_of_nil in Hop.
Defined.

Lemma well_formed_init config :
  1 <= Config.failure_threshold config -> 1 <= Config.success_threshold config ->
  well_formed config init_state.
Proof.
  intros Hf Hs. unfold well_formed. cbn.
  repeat split; try lia; intros; congruence.
Qed.

(** Whatever is done through the breaker's interface, every entry keeps its
    counters in range: the counts are not negative, the half-open success
    count stays below [success_threshold], a Closed entry holds fewer than
    [failure_threshold] failures, and an entry that is not Closed has its
    [opened_at] and [last_failure_time] set. *)
Theorem entries_stay_well_formed config ops w :
  1 <= Config.failure_threshold config ->
  1 <= Config.success_threshold config ->
  all_entries (well_formed config) w ->
  all_entries (well_formed config) (run (run_ops config ops) w).
Proof.
  intros Hf Hs.
  apply (run_ops_touches config (well_formed config)).
  - now apply well_formed_init.
  - unfold well_formed. intros s (A & B & C & D & E) Hst Ht. cbn.
    repeat split; try lia; try congruence;
      try (apply D; congruence); auto.
  - unfold well_formed. intros s (A & B & C & D & E) Hst Hlt. cbn.
    repeat split; try lia; try congruence;
      try (apply D; congruence); auto.
  - unfold well_formed. intros s (A & B & C & D & E) Hst Hge. cbn.
    repeat split; try lia; try congruence.
  - unfold well_formed. intros s (A & B & C & D & E) Hst. cbn.
    repeat split; try lia; try congruence; auto.
  - unfold well_formed. intros s t (A & B & C & D & E) Hst Hlt. cbn.
    repeat split; try lia; try congruence.
  - unfold well_formed. intros s t t' (A & B & C & D & E) Hst Hge. cbn.
    repeat split; try lia; try congruence; eauto.
  - unfold well_formed. intros s t t' (A & B & C & D & E) Hst. cbn.
    repeat split; try lia; try congruence; eauto.
  - unfold well_formed. intros s t (A & B & C & D & E) Hst. cbn.
    repeat split; try lia; try congruence; eauto;
      try (apply D; congruence).
Qed.

Lemma entries_stay_well_formed_witness :
  let ops := [RecordFailure "groq"; RecordFailure "groq"; RecordFailure "groq";
              RecordFailure "groq"; RecordFailure "groq"; GetState "groq";
              RecordSuccess "groq"; Call "groq" true; Reset "together"] in
  all_entries (well_formed default_config)
    (run (run_ops default_config ops) (fresh (fun n => inject_Z (100 * Z.of_nat n)))).
Proof.
  intros ops. apply entries_stay_well_formed; [cbn; lia|cbn; lia|].
  intros p s H. cbn in H. now rewrite lookup_empty in H.
Defined.

(** With a positive base timeout that does not exceed [max_timeout], and
    [max_timeout] at least the 60 seconds of a fresh entry, the current
    timeout of every entry stays positive and never exceeds [max_timeout]. *)
Theorem timeouts_stay_in_range config ops w :
  (0 < Config.timeout config)%Q ->
  (Config.timeout config <= Config.max_timeout config)%Q ->
  (60 <= Config.max_timeout config)%Q ->
  all_entries (timeout_in_range config) w ->
  all_entries (timeout_in_range config) (run (run_ops config ops) w).
Proof.
  intros Hpos Hle H60.
  apply (run_ops_touches config (timeout_in_range config));
    unfold timeout_in_range; cbn; try (intros; tauto); try (intros; split; lra).
  intros s t t' [A B] Hst. unfold py_min.
  destruct (Qlt_le_dec _ _); split; lra.
Qed.

Lemma timeouts_stay_in_range_witness :
  let ops := [RecordFailure "groq"; RecordFailure "groq"; RecordFailure "groq";
              RecordFailure "groq"; RecordFailure "groq"; GetState "groq";
              RecordFailure "groq"; GetState "groq"; RecordFailure "groq"] in
  all_entries (timeout_in_range default_config)
    (run (run_ops default_config ops) (fresh (fun n => inject_Z (1000 * (1 + Z.of_nat n))))).
Proof.
  intros ops. apply timeouts_stay_in_range; try (cbn; lra).
  intros p s H. cbn in H. now rewrite lookup_empty in H.
Defined.

(** *** Failures interleaved with successes *)

Lemma report_closed config p failures : forall w s,
  states w !! p = Some s -> state s = CLOSED ->
  runs_below (Config.failure_threshold config) (failure_count s) failures = true ->
  exists s', states (run (report config p failures) w) !! p = Some s' /\ state s' = CLOSED.
Proof.
  induction failures as [|[|] failures IH]; intros w s Hs Hst Hruns.
  - exists s. auto.
  - cbn [runs_below] in Hruns. apply andb_true_iff in Hruns as [Hlt Hruns].
    apply Z.ltb_lt in Hlt.
    cbn [report]. rewrite run_bind.
    rewrite (run_eq _ _ _ _ (record_failure_closed_below config p w s Hs Hst Hlt)).
    eapply IH; [apply lookup_insert_eq|exact Hst|exact Hruns].
  - cbn [runs_below] in Hruns. cbn [report]. rewrite run_bind.
    rewrite (run_eq _ _ _ _ (record_success_closed config p w s Hs Hst)).
    eapply IH; [apply lookup_insert_eq|exact Hst|exact Hruns].
Qed.

Lemma report_absent config p failures w :
  states w !! p = None -> failures <> [] ->
  report config p failures w = report config p failures (with_init p w).
Proof.
  intros H Hne. destruct failures as [|[|] failures]; [congruence| |];
    cbn [report]; unfold bind.
  - now rewrite (record_failure_absent config p w H).
  - now rewrite (record_success_absent config p w H).
Qed.

(** The threshold counts consecutive failures only: a provider that starts
    Closed stays Closed and available through any succession of failure and
    success reports in which no run of failures reaches
    [failure_threshold]. *)
Theorem short_failure_runs_keep_closed config p failures w :
  initially_closed p w ->
  runs_below (Config.failure_threshold config) 0 failures = true ->
  result (get_state p) (run (report config p failures) w) = CLOSED /\
  result (is_available p) (run (report config p failures) w) = true.
Proof.
  intros Hinit Hruns. unfold initially_closed in Hinit.
  destruct (states w !! p) as [s|] eqn:E.
  - destruct Hinit as [Hst Hfc].
    destruct (report_closed config p failures w s E Hst) as (s' & H1 & H2).
    { now rewrite Hfc. }
    exact (get_state_closed_entry p _ s' H1 H2).
  - destruct failures as [|b failures].
    + cbn [report]. unfold run at 1 2, ret. cbn [snd].
      assert (Hg : result (get_state p) w = CLOSED).
      { unfold result. rewrite (get_state_absent p w E).
        now rewrite (get_state_not_open _ _ _ (with_init_lookup p w)). }
      rewrite is_available_result, Hg. now split.
    + unfold run. rewrite (report_absent config p (b :: failures) w E) by discriminate.
      fold (run (report config p (b :: failures)) (with_init p w)).
      destruct (report_closed config p (b :: failures) (with_init p w) init_state
                  (with_init_lookup p w) eq_refl Hruns) as (s' & H1 & H2).
      exact (get_state_closed_entry p _ s' H1 H2).
Qed.

Lemma short_failure_runs_keep_closed_witness :
  let failures := [true; true; true; true; false; true; true; true; true; false; true] in
  result (is_available "groq")
    (run (report default_config "groq" failures) (fresh (fun n => inject_Z (Z.of_nat n))))
  = true.
Proof.
  intros failures.
  exact (proj2 (short_failure_runs_keep_closed default_config "groq" failures
                  (fresh (fun n => inject_Z (Z.of_nat n))) I eq_refl)).
Defined.

(** *** Exponential backoff *)

Lemma Qmin_double_step x M k :
  (0 <= M)%Q -> (1 <= k)%Q ->
  (Qmin (Qmin (x * 2) M * k) M == Qmin (x * (2 * k)) M)%Q.
Proof.
  intros HM Hk. destruct (Qlt_le_dec M (x * 2)) as [Hlt|Hle].
  - rewrite (Q.min_r (x * 2) M) by lra.
    rewrite (Q.min_r (M * k) M) by nra.
    rewrite (Q.min_r (x * (2 * k)) M) by nra. reflexivity.
  - rewrite (Q.min_l (x * 2) M) by exact Hle.
    assert (E : (x * 2 * k == x * (2 * k))%Q) by ring.
    now rewrite E.
Qed.

Lemma pow2_succ n :
  (inject_Z (2 ^ Z.of_nat (S n)) == 2 * inject_Z (2 ^ Z.of_nat n))%Q.
Proof.
  rewrite Nat2Z.inj_succ, Z.pow_succ_r by lia. now rewrite inject_Z_mult.
Qed.

Lemma pow2_ge_1 n : (1 <= inject_Z (2 ^ Z.of_nat n))%Q.
Proof.
  change 1%Q with (inject_Z 1). rewrite <- Zle_Qle.
  pose proof (Z.pow_pos_nonneg 2 (Z.of_nat n)). lia.
Qed.

(** Each failed recovery doubles the timeout up to [max_timeout]: when the
    clock moves on by at least [max_timeout] between readings (and never
    reads 0), a provider that is Open with timeout [T] has, after [n] rounds
    of a state query followed by a failure, the timeout
    [min (T * 2^n, max_timeout)] and is Open again. *)
Theorem backoff_doubles_up_to_max config p n : forall w s t,
  (0 <= Config.max_timeout config)%Q ->
  (forall k, ~ (clock w k == 0)%Q) ->
  (forall k, (Config.max_timeout config <= clock w (S k) - clock w k)%Q) ->
  states w !! p = Some s -> state s = OPEN ->
  opened_at s = Some t -> ~ (t == 0)%Q ->
  (timeout s <= Config.max_timeout config)%Q ->
  (timeout s <= clock w (ticks w) - t)%Q ->
  exists s',
    states (run (failed_recoveries config n p) w) !! p = Some s' /\
    state s' = OPEN /\
    (timeout s' == Qmin (timeout s * inject_Z (2 ^ Z.of_nat n)) (Config.max_timeout config))%Q.
Proof.
  induction n as [|n IH]; intros w s t HM Hnz Hgap Hs Hst Ho Ht HleM Hel.
  - exists s. split; [exact Hs|]. split; [exact Hst|].
    change (inject_Z (2 ^ Z.of_nat 0)) with 1%Q.
    rewrite Q.min_l by lra. ring.
  - cbn [failed_recoveries]. rewrite !run_bind.
    rewrite (run_eq _ _ _ _ (get_state_open_elapsed p w s t Hs Hst Ho Ht Hel)).
    set (s1 := set_success_count 0 (set_state HALF_OPEN s)).
    set (w1 := mkWorld _ _ _).
    assert (Hs1 : states w1 !! p = Some s1) by apply lookup_insert_eq.
    rewrite (run_eq _ _ _ _ (record_failure_half_open config p w1 s1 Hs1 eq_refl)).
    set (s2 := mkState OPEN _ _ _ _ _).
    set (w2 := mkWorld _ _ _).
    assert (Hs2 : states w2 !! p = Some s2) by apply lookup_insert_eq.
    assert (Ht2 : (timeout s2 == Qmin (timeout s * 2) (Config.max_timeout config))%Q)
      by apply py_min_Qmin.
    destruct (IH w2 s2 (clock w (S (S (ticks w)))) HM Hnz Hgap Hs2 eq_refl eq_refl)
      as (s' & H1 & H2 & H3).
    + apply Hnz.
    + rewrite Ht2. apply Q.le_min_r.
    + rewrite Ht2. cbn [w2 ticks clock w1].
      pose proof (Hgap (S (S (ticks w)))).
      pose proof (Q.le_min_r (timeout s * 2) (Config.max_timeout config)). lra.
    + exists s'. split; [exact H1|]. split; [exact H2|].
      rewrite H3, Ht2, pow2_succ.
      apply Qmin_double_step; [exact HM|apply pow2_ge_1].
Qed.


Lemma backoff_doubles_up_to_max_witness :
  let s := mkState OPEN 5 0 (Some 400%Q) (Some 500%Q) 60 in
  let w := mkWorld {[ "groq" := s ]} (fun n => inject_Z (1000 * (1 + Z.of_nat n))) 0 in
  exists s',
    states (run (failed_recoveries default_config 3 "groq") w) !! "groq" = Some s' /\
    state s' = OPEN /\ (timeout s' == 300)%Q.
Proof.
  intros s w.
  destruct (backoff_doubles_up_to_max default_config "groq" 3 w s 500%Q)
    as (s' & H1 & H2 & H3).
  - cbn. lra.
  - intros k. cbn. unfold Qeq. cbn. lia.
  - intros k. subst w. cbn [clock Config.max_timeout default_config]. unfold Qminus.
    rewrite <- inject_Z_opp, <- inject_Z_plus.
    change 300%Q with (inject_Z 300). rewrite <- Zle_Qle. lia.
  - reflexivity.
  - reflexivity.
  - reflexivity.
  - vm_compute. discriminate.
  - cbn. lra.
  - vm_compute. discriminate.
  - exists s'. split; [exact H1|]. split; [exact H2|]. rewrite H3. reflexivity.
Defined.

(** *** Fallback, reset and statistics *)

(** The phase a state query returns is the phase the entry then has. *)
Lemma get_state_stored p w :
  exists s, states (run (get_state p) w) !! p = Some s /\
            result (get_state p) w = state s.
Proof.
  assert (H : forall w0 s0, states w0 !! p = Some s0 ->
            exists s, states (run (get_state p) w0) !! p = Some s /\
                      result (get_state p) w0 = state s).
  { intros w0 s0 Hs. destruct (get_state_cases p w0 s0 Hs)
      as [_ [(E & R & _)|(_ & _ & _ & R & E)]].
    - exists s0. rewrite E. auto.
    - eexists. rewrite E, lookup_insert_eq. split; [reflexivity|]. now rewrite R. }
  destruct (states w !! p) as [s0|] eqn:E; [now apply (H w s0)|].
  unfold run, result. rewrite (get_state_absent p w E).
  apply (H (with_init p w) init_state), with_init_lookup.
Qed.

Lemma is_available_frame p w q :
  q <> p -> states (run (is_available p) w) !! q = states w !! q.
Proof.
  intros Hne.
  unshelve epose proof (is_available_touches default_config (fun _ => True)
                          _ _ _ _ _ _ _ _ _ p w)
    as (_ & F & _); try (intros; exact I).
  apply F. set_solver.
Qed.

Lemma is_available_stored p w :
  exists s, states (run (is_available p) w) !! p = Some s /\
            result (is_available p) w = negb (CircuitState_eqb (state s) OPEN).
Proof.
  destruct (get_state_stored p w) as (s & Hs & Hr).
  exists s. rewrite is_available_run, is_available_result, Hr. auto.
Qed.

Lemma is_available_rejects p w :
  result (is_available p) w = false ->
  states (run (is_available p) w) = states w /\
  exists s, states w !! p = Some s /\ state s = OPEN.
Proof.
  intros Hno. destruct (is_available_stored p w) as (s & Hs & Hr).
  assert (Hst : state s = OPEN).
  { rewrite Hno in Hr. destruct (state s); cbn in Hr; congruence. }
  assert (E : states (run (is_available p) w) = states w).
  { rewrite is_available_run. apply get_state_open_states.
    rewrite is_available_result in Hno. now destruct (result (get_state p) w). }
  split; [exact E|]. exists s. rewrite <- E. auto.
Qed.

(** [get_fallback_provider] returns the first candidate, in the order given,
    that is not the failed provider and is found available; the candidates
    before it were the failed provider or Open; with no such candidate it
    returns [None] and every candidate is the failed provider or Open.  Only
    candidates up to the one returned are looked at, and the failed provider
    never is. *)
Theorem get_fallback_provider_first_available failed candidates : forall w,
  let w' := run (get_fallback_provider failed candidates) w in
  let is_open c := exists s, states w' !! c = Some s /\ state s = OPEN in
  match result (get_fallback_provider failed candidates) w with
  | Some q =>
      exists l1 l2,
        candidates = l1 ++ q :: l2 /\ q <> failed /\
        (exists s, states w' !! q = Some s /\ state s <> OPEN) /\
        (forall c, c ∈ l1 -> c = failed \/ c = q \/ is_open c) /\
        (forall x, x = failed \/ x ∉ l1 ++ [q] -> states w' !! x = states w !! x)
  | None =>
      (forall c, c ∈ candidates -> c = failed \/ is_open c) /\
      (forall x, x = failed \/ x ∉ candidates -> states w' !! x = states w !! x)
  end.
Proof.
  induction candidates as [|c candidates IH]; intros w; cbn zeta.
  - cbn. split; [intros c Hc; now apply elem_of_nil in Hc|auto].
  - cbn [get_fallback_provider]. destruct (String.eqb_spec c failed) as [->|Hne]; cbn [negb].
    + (* the failed provider is skipped *)
      specialize (IH w). cbn zeta in IH.
      destruct (result (get_fallback_provider failed candidates) w) as [q|].
      * destruct IH as (l1 & l2 & -> & Hq & Hs & Hl1 & Hfr).
        exists (failed :: l1), l2. split; [reflexivity|]. split; [exact Hq|].
        split; [exact Hs|]. split.
        -- intros c Hc. apply elem_of_cons in Hc as [->|Hc]; [now left|now apply Hl1].
        -- intros x [->|Hx]; apply Hfr; [now left|right]. set_solver.
      * destruct IH as (Hall & Hfr). split.
        -- intros c Hc. apply elem_of_cons in Hc as [->|Hc]; [now left|now apply Hall].
        -- intros x [->|Hx]; apply Hfr; [now left|right]. set_solver.
    + rewrite result_bind, run_bind.
      destruct (result (is_available c) w) eqn:Hav.
      * (* [c] is available and returned *)
        unfold result at 1, run at 1, ret. cbn [fst snd].
        destruct (is_available_stored c w) as (s & Hs & Hr).
        exists [], candidates. split; [reflexivity|]. split; [exact Hne|].
        split.
        { exists s. split; [exact Hs|]. rewrite Hav in Hr.
          destruct (state s); cbn in Hr; congruence. }
        split; [intros x Hx; now apply elem_of_nil in Hx|].
        intros x Hx. apply is_available_frame. destruct Hx as [->|Hx]; [congruence|].
        set_solver.
      * (* [c] is Open, the search goes on *)
        destruct (is_available_rejects c w Hav) as (E & s & Hs & Hst).
        set (w1 := run (is_available c) w) in *.
        specialize (IH w1). cbn zeta in IH.
        destruct (result (get_fallback_provider failed candidates) w1) as [q|].
        -- destruct IH as (l1 & l2 & -> & Hq & Hsq & Hl1 & Hfr).
           exists (c :: l1), l2. split; [reflexivity|]. split; [exact Hq|].
           split; [exact Hsq|]. split.
           ++ intros x Hx. apply elem_of_cons in Hx as [->|Hx]; [|now apply Hl1].
              destruct (decide (c = q)) as [->|Hcq]; [auto|].
              destruct (decide (c ∈ l1)) as [Hin|Hnin]; [now apply Hl1|].
              right. right. exists s. rewrite Hfr, E by (right; set_solver). auto.
           ++ intros x Hx. rewrite Hfr, E; [reflexivity|].
              destruct Hx as [->|Hx]; [now left|right]. set_solver.
        -- destruct IH as (Hall & Hfr). split.
           ++ intros x Hx. apply elem_of_cons in Hx as [->|Hx]; [|now apply Hall].
              destruct (decide (c ∈ candidates)) as [Hin|Hnin].
              ** destruct (Hall c Hin) as [?|?]; [congruence|now right].
              ** right. exists s. rewrite Hfr, E by (right; exact Hnin). auto.
           ++ intros x Hx. rewrite Hfr, E; [reflexivity|].
              destruct Hx as [->|Hx]; [now left|right]. set_solver.
Qed.

(** [reset] puts an entry back to the fresh state (Closed, counts at zero,
    time stamps cleared, timeout 60 whatever the configured base timeout),
    creates no entry for a provider that has none, and leaves the other
    providers alone; the provider is available afterwards. *)
Theorem reset_gives_fresh_state p w :
  let w' := run (reset p) w in
  states w' !! p = (fun _ => init_state) <$> states w !! p /\
  (forall q, q <> p -> states w' !! q = states w !! q) /\
  initially_closed p w' /\
  result (is_available p) w' = true.
Proof.
  cbn zeta.
  assert (H1 : states (run (reset p) w) !! p = (fun _ => init_state) <$> states w !! p).
  { unfold run, reset. destruct (states w !! p) eqn:E; cbn.
    - apply lookup_insert_eq.
    - exact E. }
  assert (H3 : initially_closed p (run (reset p) w)).
  { unfold initially_closed. rewrite H1. now destruct (states w !! p). }
  split; [exact H1|]. split; [|split; [exact H3|]].
  - intros q Hq. unfold run, reset. destruct (states w !! p); cbn; [|reflexivity].
    now apply lookup_insert_ne.
  - destruct (initially_closed_entry default_config p _ H3)
      as (w0 & s0 & _ & _ & _ & _ & _ & Hget & _).
    rewrite is_available_result, (result_eq _ _ _ _ Hget). reflexivity.
Qed.

(** [get_stats] does not evaluate the lazy transition: for an Open entry
    whose timeout has elapsed it reports "open" although the provider is
    available, and "half_open" once a state or availability query has been
    made.  In general it reports, after a state query, the phase the query
    returned. *)
Theorem get_stats_lags_behind_queries config p w :
  stats_state (result (get_stats config p) (run (get_state p) w))
    = value (result (get_state p) w) /\
  forall s t,
    states w !! p = Some s -> state s = OPEN ->
    opened_at s = Some t -> ~ (t == 0)%Q ->
    (timeout s <= clock w (ticks w) - t)%Q ->
    stats_state (result (get_stats config p) w) = "open" /\
    result (is_available p) w = true /\
    stats_state (result (get_stats config p) (run (is_available p) w)) = "half_open".
Proof.
  assert (H : forall w0, stats_state (result (get_stats config p) (run (get_state p) w0))
                         = value (result (get_state p) w0)).
  { intros w0. destruct (get_state_stored p w0) as (s & Hs & Hr).
    unfold result at 1, get_stats. rewrite Hs. cbn. now rewrite Hr. }
  split; [apply H|].
  intros s t Hs Hst Ho Ht Hel.
  pose proof (result_eq _ _ _ _ (get_state_open_elapsed p w s t Hs Hst Ho Ht Hel)) as Hr.
  split; [|split].
  - unfold result, get_stats. rewrite Hs. cbn. now rewrite Hst.
  - rewrite is_available_result, Hr. reflexivity.
  - rewrite is_available_run, H, Hr. reflexivity.
Qed.

Lemma get_stats_lags_behind_queries_witness :
  let s := mkState OPEN 5 0 (Some 1000%Q) (Some 1000%Q) 60 in
  let w := mkWorld {[ "groq" := s ]} (fun _ => 1060%Q) 0 in
  stats_state (result (get_stats default_config "groq") w) = "open" /\
  result (is_available "groq") w = true.
Proof.
  intros s w.
  assert (Hnz : ~ (1000 == 0)%Q) by (vm_compute; discriminate).
  assert (Hel : (timeout s <= clock w (ticks w) - 1000)%Q) by (vm_compute; discriminate).
  destruct (proj2 (get_stats_lags_behind_queries default_config "groq" w) s 1000%Q
              eq_refl eq_refl eq_refl Hnz Hel) as (H1 & H2 & _).
  split; [exact H1|exact H2].
Defined.

End CircuitBreakerFacts.

(** ** The rate limiter *)

Module RateLimiterFacts.
Import RateLimiter.

Lemma window_start_bounds t : window_start_of t <= t < window_start_of t + window_seconds.
Proof.
  unfold window_start_of, window_seconds.
  pose proof (Z.mod_pos_bound t 3600 ltac:(lia)). lia.
Qed.

Section OneCounter.
Variable self : RateLimiter.
Variable identifier : string.
Variables is_demo is_admin : bool.
Variable W : Z.

Local Abbreviation limit := (tier_limit self is_demo is_admin).
Local Abbreviation key := (key_of identifier is_demo W).
Local Abbreviation counted := (RateLimiter.counted identifier is_demo W).
Local Abbreviation answer := (RateLimiter.answer self is_demo is_admin W).

Lemma redis_get_counted t c db :
  window_start_of t = W -> counted c db ->
  match redis_get t key db with None => 0 | Some c' => c' end = c.
Proof.
  intros Ht [[-> Hn]|(e & He & Hle)]; unfold redis_get.
  - now rewrite Hn.
  - rewrite He. unfold live. cbn.
    pose proof (window_start_bounds t). rewrite Ht in H.
    destruct (Z.ltb_spec t e); [reflexivity|lia].
Qed.

Lemma pipeline_counted t c db :
  window_start_of t = W -> counted c db ->
  pipeline_incr_expire t key window_seconds db
    = <[key := mkEntry (c + 1) (Some (t + window_seconds))]> db.
Proof.
  intros Ht Hc. pose proof (window_start_bounds t) as Hb. rewrite Ht in Hb.
  unfold pipeline_incr_expire.
  destruct Hc as [[-> Hn]|(e & He & Hle)].
  - unfold redis_incr. rewrite Hn.
    unfold redis_expire. rewrite lookup_insert_eq. cbn.
    now rewrite insert_insert_eq.
  - unfold redis_incr. rewrite He. unfold live at 1. cbn [expire_at value].
    destruct (Z.ltb_spec t e); [|lia].
    unfold redis_expire. rewrite lookup_insert_eq. unfold live. cbn [expire_at value].
    destruct (Z.ltb_spec t e); [|lia].
    now rewrite insert_insert_eq.
Qed.

(** One call, by the count it finds. *)
Lemma check_limit_allowed t c db :
  window_start_of t = W -> counted c db -> c < limit ->
  check_limit self t identifier is_demo is_admin db =
    ((true, limit - c - 1, W + window_seconds),
     <[key := mkEntry (c + 1) (Some (t + window_seconds))]> db).
Proof.
  intros Ht Hc Hlt. unfold check_limit. rewrite Ht.
  rewrite (redis_get_counted t c db Ht Hc).
  destruct (Z.leb_spec limit c); [lia|].
  now rewrite (pipeline_counted t c db Ht Hc).
Qed.

Lemma check_limit_rejected t c db :
  window_start_of t = W -> counted c db -> limit <= c ->
  check_limit self t identifier is_demo is_admin db =
    ((false, 0, W + window_seconds), db).
Proof.
  intros Ht Hc Hle. unfold check_limit. rewrite Ht.
  rewrite (redis_get_counted t c db Ht Hc).
  destruct (Z.leb_spec limit c); [reflexivity|lia].
Qed.

Lemma counted_after_allowed t c db :
  window_start_of t = W ->
  counted (c + 1) (<[key := mkEntry (c + 1) (Some (t + window_seconds))]> db).
Proof.
  intros Ht. right. exists (t + window_seconds). split; [apply lookup_insert_eq|].
  pose proof (window_start_bounds t). lia.
Qed.

Lemma check_limit_seq_cons_1 t times db :
  (check_limit_seq self (t :: times) identifier is_demo is_admin db).1 =
  (check_limit self t identifier is_demo is_admin db).1 ::
  (check_limit_seq self times identifier is_demo is_admin
     (check_limit self t identifier is_demo is_admin db).2).1.
Proof.
  cbn [check_limit_seq]. destruct (check_limit _ _ _ _ _ _) as [r db1].
  now destruct (check_limit_seq _ _ _ _ _ _).
Qed.

Lemma check_limit_seq_cons_2 t times db :
  (check_limit_seq self (t :: times) identifier is_demo is_admin db).2 =
  (check_limit_seq self times identifier is_demo is_admin
     (check_limit self t identifier is_demo is_admin db).2).2.
Proof.
  cbn [check_limit_seq]. destruct (check_limit _ _ _ _ _ _) as [r db1].
  now destruct (check_limit_seq _ _ _ _ _ _).
Qed.

Lemma check_limit_seq_counted times : forall c db,
  Forall (fun t => window_start_of t = W) times ->
  counted c db -> 0 <= c <= limit ->
  forall (i : nat) t, times !! i = Some t ->
    (check_limit_seq self times identifier is_demo is_admin db).1 !! i
      = Some (answer (c + Z.of_nat i)) /\
    (c + Z.of_nat i < limit ->
       (check_limit_seq self (take (S i) times) identifier is_demo is_admin db).2 !! key
         = Some (mkEntry (c + Z.of_nat i + 1) (Some (t + window_seconds)))) /\
    (limit <= c + Z.of_nat i ->
       (check_limit_seq self (take (S i) times) identifier is_demo is_admin db).2
         = (check_limit_seq self (take i times) identifier is_demo is_admin db).2).
Proof.
  induction times as [|t0 times IH]; intros c db Hall Hc Hr i t Hi; [discriminate|].
  apply Forall_cons in Hall as [Ht0 Hall].
  assert (Hone : exists c',
             (check_limit self t0 identifier is_demo is_admin db).1 = answer c /\
             counted c' (check_limit self t0 identifier is_demo is_admin db).2 /\
             0 <= c' <= limit /\
             (forall j, answer (c' + Z.of_nat j) = answer (c + Z.of_nat (S j))) /\
             (forall j, c' + Z.of_nat j < limit <-> c + Z.of_nat (S j) < limit) /\
             (c < limit -> c' = c + 1 /\
                (check_limit self t0 identifier is_demo is_admin db).2 !! key
                  = Some (mkEntry (c + 1) (Some (t0 + window_seconds)))) /\
             (limit <= c ->
                (check_limit self t0 identifier is_demo is_admin db).2 = db)).
  { destruct (Z.lt_ge_cases c limit) as [Hlt|Hge].
    - exists (c + 1). rewrite (check_limit_allowed t0 c db Ht0 Hc Hlt). cbn [fst snd].
      unfold answer at 1. destruct (Z.ltb_spec c limit); [|lia].
      split; [reflexivity|]. split; [now apply counted_after_allowed|].
      split; [lia|]. split; [intros j; f_equal; lia|]. split; [intros j; lia|].
      split; [intros _; split; [reflexivity|apply lookup_insert_eq]|lia].
    - exists c. rewrite (check_limit_rejected t0 c db Ht0 Hc Hge). cbn [fst snd].
      unfold answer at 1. destruct (Z.ltb_spec c limit); [lia|].
      split; [reflexivity|]. split; [exact Hc|]. split; [lia|].
      split.
      { intros j. unfold answer.
        destruct (Z.ltb_spec (c + Z.of_nat j) limit), (Z.ltb_spec (c + Z.of_nat (S j)) limit);
          try lia; reflexivity. }
      split; [intros j; lia|]. split; [lia|reflexivity]. }
  destruct Hone as (c' & H1 & Hc' & Hr' & Hans & Hiff & Hal & Hrej).
  destruct i as [|i].
  - injection Hi as <-. rewrite check_limit_seq_cons_1. cbn [take].
    rewrite check_limit_seq_cons_2. cbn [check_limit_seq snd].
    rewrite Z.add_0_r. split; [rewrite H1; reflexivity|].
    split; [intros H; now apply Hal|exact Hrej].
  - cbn in Hi. destruct (IH c' _ Hall Hc' Hr' i t Hi) as (I1 & I2 & I3).
    rewrite check_limit_seq_cons_1.
    change (take (S (S i)) (t0 :: times)) with (t0 :: take (S i) times).
    change (take (S i) (t0 :: times)) with (t0 :: take i times).
    rewrite !check_limit_seq_cons_2.
    split; [rewrite <- Hans; exact I1|].
    split.
    + intros H. rewrite I2 by now apply Hiff.
      destruct (Z.lt_ge_cases c limit) as [Hlt|Hge].
      * destruct (Hal Hlt) as [-> _]. do 2 f_equal. lia.
      * lia.
    + intros H. apply I3. pose proof (Hiff i). lia.
Qed.

End OneCounter.

(** C3. With no counter stored for the identifier in the window, calls made
    inside that window go as follows: the call number [i] (counting from 0)
    is allowed when [i < limit], with [remaining = limit - i - 1], and
    leaves the counter at [i + 1] with an expiry one window length after the
    call; from the call number [limit] on, every call is rejected with
    [remaining = 0] and leaves the store as it is; every call answers
    [reset_at = window_start + window_seconds] for its own
    [window_start = now - now mod window_seconds]. *)
Theorem C3_fixed_window_counting self identifier is_demo is_admin W times db :
  let limit := tier_limit self is_demo is_admin in
  let key := key_of identifier is_demo W in
  0 <= limit ->
  db !! key = None ->
  Forall (fun t => window_start_of t = W) times ->
  forall (i : nat) t, times !! i = Some t ->
    let results := (check_limit_seq self times identifier is_demo is_admin db).1 in
    let db_before := (check_limit_seq self (take i times) identifier is_demo is_admin db).2 in
    let db_after := (check_limit_seq self (take (S i) times) identifier is_demo is_admin db).2 in
    let reset_at := t - t mod window_seconds + window_seconds in
    (Z.of_nat i < limit ->
       results !! i = Some (true, limit - Z.of_nat i - 1, reset_at) /\
       db_after !! key = Some (mkEntry (Z.of_nat i + 1) (Some (t + window_seconds)))) /\
    (limit <= Z.of_nat i ->
       results !! i = Some (false, 0, reset_at) /\ db_after = db_before).
Proof.
  intros limit key Hlim Hdb Hall i t Hi results db_before db_after reset_at.
  assert (Ht : window_start_of t = W).
  { exact (Forall_lookup_1 _ _ _ _ Hall Hi). }
  assert (Hc : counted identifier is_demo W 0 db) by (left; auto).
  destruct (check_limit_seq_counted self identifier is_demo is_admin W times 0 db
              Hall Hc ltac:(fold limit; lia) i t Hi) as (H1 & H2 & H3).
  fold limit key in H1, H2, H3. rewrite Z.add_0_l in *.
  fold results in H1. fold db_after in H2, H3. fold db_before in H3.
  assert (Hreset : reset_at = W + window_seconds).
  { subst reset_at. rewrite <- Ht. reflexivity. }
  rewrite Hreset. unfold answer in H1. fold limit in H1.
  split; intros H.
  - destruct (Z.ltb_spec (Z.of_nat i) limit); [|lia]. split; [exact H1|exact (H2 H)].
  - destruct (Z.ltb_spec (Z.of_nat i) limit); [lia|]. split; [exact H1|exact (H3 H)].
Qed.

Lemma C3_fixed_window_counting_witness :
  (check_limit_seq shipped [7200; 7201; 9000; 10799] "203.0.113.7" true false ∅).1 !! 2%nat
    = Some (true, 0, 10800) /\
  (check_limit_seq shipped [7200; 7201; 9000; 10799] "203.0.113.7" true false ∅).1 !! 3%nat
    = Some (false, 0, 10800).
Proof.
  assert (Hall : Forall (fun t => window_start_of t = 7200) [7200; 7201; 9000; 10799])
    by (repeat constructor).
  split.
  - exact (proj1 (proj1 (C3_fixed_window_counting shipped "203.0.113.7" true false 7200
             [7200; 7201; 9000; 10799] ∅ ltac:(cbn; lia) eq_refl Hall 2%nat 9000 eq_refl)
             ltac:(cbn; lia))).
  - exact (proj1 (proj2 (C3_fixed_window_counting shipped "203.0.113.7" true false 7200
             [7200; 7201; 9000; 10799] ∅ ltac:(cbn; lia) eq_refl Hall 3%nat 10799 eq_refl)
             ltac:(cbn; lia))).
Defined.

(** *** Concurrent callers *)

(** A coroutine that is resumed twice with nobody in between is a plain call
    of [check_limit]. *)
Lemma resume_alone self rq db :
  let (c1, db1) := resume self (AtGet rq) db in
  let (c2, db2) := resume self c1 db1 in
  (c2, db2) =
    let (r, db') := check_limit self (rq_time rq) (rq_identifier rq)
                      (rq_is_demo rq) (rq_is_admin rq) db in
    (Done r, db').
Proof.
  unfold resume, check_limit.
  destruct (_ <=? _); reflexivity.
Qed.

Lemma resume_read self identifier is_demo is_admin t W c db :
  window_start_of t = W -> counted identifier is_demo W c db ->
  c < tier_limit self is_demo is_admin ->
  resume self (AtGet (mkRequest t identifier is_demo is_admin)) db
    = (AtExecute (mkRequest t identifier is_demo is_admin) c, db).
Proof.
  intros Ht Hc Hlt. unfold resume. cbn [rq_time rq_identifier rq_is_demo rq_is_admin].
  rewrite Ht, (redis_get_counted identifier is_demo W t c db Ht Hc).
  destruct (Z.leb_spec (tier_limit self is_demo is_admin) c); [lia|reflexivity].
Qed.

Lemma resume_count self identifier is_demo is_admin t W c c' db :
  window_start_of t = W -> counted identifier is_demo W c' db ->
  resume self (AtExecute (mkRequest t identifier is_demo is_admin) c) db
    = (Done (true, tier_limit self is_demo is_admin - c - 1, W + window_seconds),
       <[key_of identifier is_demo W := mkEntry (c' + 1) (Some (t + window_seconds))]> db).
Proof.
  intros Ht Hc. unfold resume. cbn [rq_time rq_identifier rq_is_demo rq_is_admin].
  now rewrite Ht, (pipeline_counted identifier is_demo W t c' db Ht Hc).
Qed.

(** C9.  The read of the count and the counting are not one unit: the count
    is read by a [GET] at one [await], and the pipeline of [INCR] and
    [EXPIRE] runs at a later one.  So when two calls for the same caller in
    the same window have both read before either pipeline runs, in any of
    the four orders in which that can happen, and the count [c] they read
    is below the limit, both are allowed, each as if it were the only one,
    and the counter ends at [c + 2]: with [c = limit - 1] more requests
    than the limit have passed in the window. *)
Theorem C9_concurrent_calls_exceed_limit
    self identifier is_demo is_admin1 is_admin2 t1 t2 W c db schedule :
  let rq1 := mkRequest t1 identifier is_demo is_admin1 in
  let rq2 := mkRequest t2 identifier is_demo is_admin2 in
  let limit1 := tier_limit self is_demo is_admin1 in
  let limit2 := tier_limit self is_demo is_admin2 in
  window_start_of t1 = W -> window_start_of t2 = W ->
  counted identifier is_demo W c db ->
  c < limit1 -> c < limit2 ->
  schedule ∈ [[0; 1; 0; 1]; [0; 1; 1; 0]; [1; 0; 0; 1]; [1; 0; 1; 0]]%nat ->
  (run_schedule self schedule [AtGet rq1; AtGet rq2] db).1
    = [Done (true, limit1 - c - 1, W + window_seconds);
       Done (true, limit2 - c - 1, W + window_seconds)] /\
  exists e,
    (run_schedule self schedule [AtGet rq1; AtGet rq2] db).2 !! key_of identifier is_demo W
      = Some (mkEntry (c + 2) (Some e)) /\
    W + window_seconds <= e.
Proof.
  intros rq1 rq2 limit1 limit2 Ht1 Ht2 Hc Hlt1 Hlt2 Hs.
  subst rq1 rq2 limit1 limit2.
  pose proof (resume_read self identifier is_demo is_admin1 t1 W c db Ht1 Hc Hlt1) as R1.
  pose proof (resume_read self identifier is_demo is_admin2 t2 W c db Ht2 Hc Hlt2) as R2.
  pose proof (window_start_bounds t1) as B1. rewrite Ht1 in B1.
  pose proof (window_start_bounds t2) as B2. rewrite Ht2 in B2.
  pose proof (counted_after_allowed identifier is_demo W t1 c db Ht1) as C1.
  pose proof (counted_after_allowed identifier is_demo W t2 c db Ht2) as C2.
  pose proof (resume_count self identifier is_demo is_admin1 t1 W c c db Ht1 Hc) as X1.
  pose proof (resume_count self identifier is_demo is_admin2 t2 W c c db Ht2 Hc) as X2.
  pose proof (resume_count self identifier is_demo is_admin2 t2 W c (c + 1) _ Ht2 C1) as Y2.
  pose proof (resume_count self identifier is_demo is_admin1 t1 W c (c + 1) _ Ht1 C2) as Y1.
  repeat (apply elem_of_cons in Hs as [->|Hs]); [| | | |now apply elem_of_nil in Hs];
    repeat first [ rewrite R1 | rewrite R2
                 | progress cbn [run_schedule lookup list_lookup insert list_insert] ];
    first [ rewrite X1; cbn [run_schedule lookup list_lookup insert list_insert];
            rewrite Y2
          | rewrite X2; cbn [run_schedule lookup list_lookup insert list_insert];
            rewrite Y1 ];
    cbn [run_schedule lookup list_lookup insert list_insert fst snd];
    (split; [reflexivity|]);
    eexists; rewrite lookup_insert_eq;
    replace (c + 1 + 1) with (c + 2) by lia;
    (split; [reflexivity|lia]).
Qed.

Lemma C9_concurrent_calls_exceed_limit_witness :
  let rq1 := mkRequest 7200 "203.0.113.7" true false in
  let rq2 := mkRequest 9000 "203.0.113.7" true false in
  let key := key_of "203.0.113.7" true 7200 in
  let db : gmap string Entry := {[ key := mkEntry 2 (Some 10800) ]} in
  (run_schedule shipped [0; 1; 1; 0]%nat [AtGet rq1; AtGet rq2] db).1
    = [Done (true, 0, 10800); Done (true, 0, 10800)] /\
  exists e,
    (run_schedule shipped [0; 1; 1; 0]%nat [AtGet rq1; AtGet rq2] db).2 !! key
      = Some (mkEntry 4 (Some e)) /\
    demo_limit shipped < 4.
Proof.
  intros rq1 rq2 key db.
  destruct (C9_concurrent_calls_exceed_limit shipped "203.0.113.7" true false false
              7200 9000 7200 2 db [0; 1; 1; 0]%nat) as [H1 (e & H2 & _)].
  - reflexivity.
  - reflexivity.
  - right. exists 10800. split; [apply lookup_singleton_eq|unfold window_seconds; lia].
  - reflexivity.
  - reflexivity.
  - set_solver.
  - split; [exact H1|]. exists e. split; [exact H2|reflexivity].
Defined.

(** The same two calls at the same counter, one after the other: the second
    is rejected and the counter stops at the limit. *)
Example calls_one_after_the_other_stop_at_limit :
  let rq1 := mkRequest 7200 "203.0.113.7" true false in
  let rq2 := mkRequest 9000 "203.0.113.7" true false in
  let key := key_of "203.0.113.7" true 7200 in
  let db : gmap string Entry := {[ key := mkEntry 2 (Some 10800) ]} in
  (run_schedule shipped [0; 0; 1; 1]%nat [AtGet rq1; AtGet rq2] db).1
    = [Done (true, 0, 10800); Done (false, 0, 10800)] /\
  (run_schedule shipped [0; 0; 1; 1]%nat [AtGet rq1; AtGet rq2] db).2 !! key
    = Some (mkEntry 3 (Some 10800)).
Proof. vm_compute. split; reflexivity. Qed.

(** *** Keys *)

Lemma append_cons x (a b : string) : String x a +:+ b = String x (a +:+ b).
Proof. reflexivity. Qed.

Lemma append_assoc (a b c : string) : (a +:+ b) +:+ c = a +:+ (b +:+ c).
Proof.
  induction a as [|x a IH]; [reflexivity|]. rewrite !append_cons. now f_equal.
Qed.

Lemma append_cancel_l (a b c : string) : a +:+ b = a +:+ c -> b = c.
Proof.
  induction a as [|x a IH]; [auto|]. rewrite !append_cons. intros [= H]. auto.
Qed.

Lemma append_length (a b : string) :
  String.length (a +:+ b) = (String.length a + String.length b)%nat.
Proof.
  induction a as [|x a IH]; [reflexivity|]. rewrite append_cons. cbn [String.length].
  now rewrite IH.
Qed.

Lemma append_cancel_r (a b c : string) : a +:+ c = b +:+ c -> a = b.
Proof.
  revert b. induction a as [|x a IH]; intros [|y b] H.
  - reflexivity.
  - apply (f_equal String.length) in H. rewrite !append_length in H.
    cbn [String.length] in H. lia.
  - apply (f_equal String.length) in H. rewrite !append_length in H.
    cbn [String.length] in H. lia.
  - rewrite !append_cons in H. injection H as -> H. f_equal. now apply IH.
Qed.

Lemma has_colon_append a b : has_colon (a +:+ b) = has_colon a || has_colon b.
Proof.
  induction a as [|x a IH]; [reflexivity|]. rewrite append_cons. cbn [has_colon].
  rewrite IH. now rewrite orb_assoc.
Qed.

Lemma after_last_colon_append a b :
  has_colon b = false -> after_last_colon (a +:+ ":" +:+ b) = b.
Proof.
  intros Hb. induction a as [|x a IH].
  - change ("" +:+ ":" +:+ b) with (String ":" b). cbn [after_last_colon].
    now rewrite Hb.
  - rewrite append_cons. cbn [after_last_colon]. rewrite has_colon_append.
    change (has_colon (":" +:+ b)) with (true || has_colon b).
    rewrite orb_true_r. exact IH.
Qed.

Lemma uint_no_colon d : has_colon (NilEmpty.string_of_uint d) = false.
Proof. induction d; simpl; auto. Qed.

Lemma str_int_no_colon n : has_colon (str_int n) = false.
Proof.
  unfold str_int, NilZero.string_of_int, NilZero.string_of_uint.
  destruct (Z.to_int n) as [d|d]; destruct d; cbn; auto using uint_no_colon.
Qed.

Lemma str_int_inj a b : str_int a = str_int b -> a = b.
Proof.
  unfold str_int. intros H.
  assert (P : forall d, option_map Z.of_int (NilZero.int_of_string (NilZero.string_of_int d))
                        = Some (Z.of_int d)).
  { intros d. destruct (Decimal.int_eq_dec d (Decimal.Pos Decimal.Nil)) as [->|H1];
      [reflexivity|].
    destruct (Decimal.int_eq_dec d (Decimal.Neg Decimal.Nil)) as [->|H2]; [reflexivity|].
    now rewrite NilZero.isi. }
  pose proof (P (Z.to_int a)) as Pa. rewrite H, P in Pa.
  injection Pa as Pa. now rewrite !DecimalZ.of_to in Pa.
Qed.

(** Within a tier, two callers or two windows never share a counter. *)
Lemma key_of_inj id1 id2 is_demo W1 W2 :
  key_of id1 is_demo W1 = key_of id2 is_demo W2 -> id1 = id2 /\ W1 = W2.
Proof.
  intros H.
  assert (E : id1 +:+ ":hour:" +:+ str_int W1 = id2 +:+ ":hour:" +:+ str_int W2).
  { unfold key_of in H. destruct is_demo; now apply append_cancel_l in H. }
  assert (F : forall i W, i +:+ ":hour:" +:+ str_int W
                          = (i +:+ ":hour") +:+ ":" +:+ str_int W).
  { intros i W. rewrite (append_assoc i ":hour"). reflexivity. }
  assert (EW : str_int W1 = str_int W2).
  { apply (f_equal after_last_colon) in E.
    now rewrite !F, !after_last_colon_append in E by apply str_int_no_colon. }
  split; [|now apply str_int_inj].
  rewrite EW in E. now apply append_cancel_r in E.
Qed.

(** A call reads and writes the counter of its own key only. *)
Lemma check_limit_frame self t identifier is_demo is_admin db k :
  k <> key_of identifier is_demo (window_start_of t) ->
  (check_limit self t identifier is_demo is_admin db).2 !! k = db !! k.
Proof.
  intros Hk. unfold check_limit.
  destruct (_ <=? _); cbn [snd]; [reflexivity|].
  unfold pipeline_incr_expire, redis_expire, redis_incr.
  repeat (match goal with
          | |- context [match ?x with _ => _ end] => destruct x eqn:?
          end; rewrite ?lookup_insert_ne by congruence; try reflexivity).
Qed.

Lemma check_limit_seq_frame self times identifier is_demo is_admin k : forall db,
  Forall (fun t => k <> key_of identifier is_demo (window_start_of t)) times ->
  (check_limit_seq self times identifier is_demo is_admin db).2 !! k = db !! k.
Proof.
  induction times as [|t times IH]; intros db Hall; [reflexivity|].
  apply Forall_cons in Hall as [Ht Hall].
  rewrite check_limit_seq_cons_2, IH by exact Hall.
  now apply check_limit_frame.
Qed.

(** *** Usage, reset and windows *)

Lemma check_limit_seq_final self identifier is_demo is_admin W times : forall c db,
  Forall (fun t => window_start_of t = W) times ->
  counted identifier is_demo W c db ->
  0 <= c <= tier_limit self is_demo is_admin ->
  counted identifier is_demo W
    (Z.min (c + Z.of_nat (length times)) (tier_limit self is_demo is_admin))
    (check_limit_seq self times identifier is_demo is_admin db).2.
Proof.
  induction times as [|t times IH]; intros c db Hall Hc Hr.
  - cbn. now replace (Z.min (c + 0) _) with c by lia.
  - apply Forall_cons in Hall as [Ht Hall]. rewrite check_limit_seq_cons_2.
    destruct (Z.lt_ge_cases c (tier_limit self is_demo is_admin)) as [Hlt|Hge].
    + rewrite (check_limit_allowed self identifier is_demo is_admin W t c db Ht Hc Hlt).
      cbn [snd length].
      replace (Z.min (c + Z.of_nat (S (length times))) _)
        with (Z.min (c + 1 + Z.of_nat (length times)) (tier_limit self is_demo is_admin))
        by lia.
      apply IH; [exact Hall| |lia].
      now apply counted_after_allowed.
    + rewrite (check_limit_rejected self identifier is_demo is_admin W t c db Ht Hc Hge).
      cbn [snd length].
      replace (Z.min (c + Z.of_nat (S (length times))) _)
        with (Z.min (c + Z.of_nat (length times)) (tier_limit self is_demo is_admin))
        by lia.
      now apply IH.
Qed.

Lemma get_current_usage_counted self identifier is_demo W t c db :
  window_start_of t = W -> counted identifier is_demo W c db ->
  get_current_usage self t identifier is_demo db = (c, W + window_seconds).
Proof.
  intros Ht Hc. unfold get_current_usage. rewrite Ht.
  now rewrite (redis_get_counted identifier is_demo W t c db Ht Hc).
Qed.

(** [get_current_usage] reports what [check_limit] has counted: after [n]
    calls made one after the other in a window that started without a
    counter, it reports [min n limit] requests, so never more than the
    limit, and the end of the window. *)
Theorem usage_counts_allowed_calls self identifier is_demo is_admin W times t db :
  0 <= tier_limit self is_demo is_admin ->
  db !! key_of identifier is_demo W = None ->
  Forall (fun t => window_start_of t = W) times ->
  window_start_of t = W ->
  get_current_usage self t identifier is_demo
    (check_limit_seq self times identifier is_demo is_admin db).2
  = (Z.min (Z.of_nat (length times)) (tier_limit self is_demo is_admin),
     W + window_seconds).
Proof.
  intros Hlim Hdb Hall Ht.
  apply get_current_usage_counted; [exact Ht|].
  apply (check_limit_seq_final self identifier is_demo is_admin W times 0 db Hall);
    [left; auto|lia].
Qed.

Lemma usage_counts_allowed_calls_witness :
  get_current_usage shipped 9000 "203.0.113.7" true
    (check_limit_seq shipped [7200; 7201; 9000; 10799; 7300] "203.0.113.7" true false ∅).2
  = (3, 10800).
Proof.
  apply (usage_counts_allowed_calls shipped "203.0.113.7" true false 7200
           [7200; 7201; 9000; 10799; 7300] 9000 ∅).
  - cbn. lia.
  - reflexivity.
  - repeat constructor.
  - reflexivity.
Defined.

(** After [reset_limit] the caller has the whole quota of the window again:
    the usage is 0 and, with a positive limit, the next call in that window
    is allowed with [remaining = limit - 1], whatever was counted before. *)
Theorem reset_limit_restores_quota self identifier is_demo is_admin t t' db :
  window_start_of t' = window_start_of t ->
  0 < tier_limit self is_demo is_admin ->
  let db' := reset_limit self t identifier is_demo db in
  get_current_usage self t' identifier is_demo db'
    = (0, window_start_of t + window_seconds) /\
  (check_limit self t' identifier is_demo is_admin db').1
    = (true, tier_limit self is_demo is_admin - 1, window_start_of t + window_seconds).
Proof.
  intros Ht Hlim db'.
  assert (Hc : counted identifier is_demo (window_start_of t) 0 db').
  { left. split; [reflexivity|]. apply lookup_delete_eq. }
  split.
  - now apply get_current_usage_counted.
  - rewrite (check_limit_allowed self identifier is_demo is_admin (window_start_of t)
               t' 0 db' Ht Hc Hlim).
    cbn [fst]. do 2 f_equal. lia.
Qed.

Lemma reset_limit_restores_quota_witness :
  let db := (check_limit_seq shipped [7200; 7201; 9000; 9001] "203.0.113.7" true false ∅).2 in
  (check_limit shipped 9002 "203.0.113.7" true false db).1 = (false, 0, 10800) /\
  (check_limit shipped 9003 "203.0.113.7" true false
     (reset_limit shipped 9002 "203.0.113.7" true db)).1 = (true, 2, 10800).
Proof.
  intros db. split; [vm_compute; reflexivity|].
  exact (proj2 (reset_limit_restores_quota shipped "203.0.113.7" true false 9002 9003 db
                  eq_refl ltac:(cbn; lia))).
Defined.

(** The counter of one window does not limit another: however many calls
    were made in window [W], the first call in a different window that has
    no counter yet is allowed with [remaining = limit - 1]. *)
Theorem new_window_starts_afresh self identifier is_demo is_admin W times t' db :
  0 < tier_limit self is_demo is_admin ->
  Forall (fun t => window_start_of t = W) times ->
  window_start_of t' <> W ->
  db !! key_of identifier is_demo (window_start_of t') = None ->
  (check_limit self t' identifier is_demo is_admin
     (check_limit_seq self times identifier is_demo is_admin db).2).1
  = (true, tier_limit self is_demo is_admin - 1, window_start_of t' + window_seconds).
Proof.
  intros Hlim Hall Hne Hdb.
  set (db1 := (check_limit_seq self times identifier is_demo is_admin db).2).
  assert (Hc : counted identifier is_demo (window_start_of t') 0 db1).
  { left. split; [reflexivity|]. subst db1.
    rewrite check_limit_seq_frame; [exact Hdb|].
    eapply Forall_impl; [exact Hall|]. intros t Ht E. cbn in Ht.
    apply key_of_inj in E as [_ E]. congruence. }
  rewrite (check_limit_allowed self identifier is_demo is_admin (window_start_of t')
             t' 0 db1 eq_refl Hc Hlim).
  cbn [fst]. do 2 f_equal. lia.
Qed.

Lemma new_window_starts_afresh_witness :
  (check_limit shipped 10800 "203.0.113.7" true false
     (check_limit_seq shipped [10797; 10798; 10799; 10799] "203.0.113.7" true false ∅).2).1
  = (true, 2, 14400).
Proof.
  apply (new_window_starts_afresh shipped "203.0.113.7" true false 7200
           [10797; 10798; 10799; 10799] 10800 ∅).
  - cbn. lia.
  - repeat constructor.
  - discriminate.
  - reflexivity.
Defined.

(** Callers of one tier do not share counters: the calls of one identifier,
    in whatever windows, leave the usage of a different identifier of the
    same tier as it was. *)
Theorem callers_of_a_tier_are_separate self id1 id2 is_demo is_admin times t db :
  id1 <> id2 ->
  get_current_usage self t id2 is_demo
    (check_limit_seq self times id1 is_demo is_admin db).2
  = get_current_usage self t id2 is_demo db.
Proof.
  intros Hne. unfold get_current_usage, redis_get.
  rewrite check_limit_seq_frame; [reflexivity|].
  apply Forall_forall. intros t1 _ E.
  apply key_of_inj in E as [E _]. congruence.
Qed.

Lemma callers_of_a_tier_are_separate_witness :
  get_current_usage shipped 7300 "203.0.113.8" true
    (check_limit_seq shipped [7200; 7201] "203.0.113.7" true false ∅).2
  = get_current_usage shipped 7300 "203.0.113.8" true ∅.
Proof. apply callers_of_a_tier_are_separate. discriminate. Defined.

(** The two tiers do share counters: the key of an authenticated caller
    whose identifier is "demo:" followed by [x] is the key of the demo caller
    [x], so a call by the former is counted against the latter. *)
Theorem demo_prefix_shares_counter self x is_admin t db :
  0 < tier_limit self false is_admin ->
  db !! key_of x true (window_start_of t) = None ->
  get_current_usage self t x true
    (check_limit self t ("demo:" +:+ x) false is_admin db).2
  = (1, window_start_of t + window_seconds).
Proof.
  intros Hlim Hdb.
  assert (K : key_of ("demo:" +:+ x) false (window_start_of t)
              = key_of x true (window_start_of t)).
  { unfold key_of. change "rate_limit:demo:" with ("rate_limit:" +:+ "demo:").
    now rewrite !append_assoc. }
  assert (Hc : counted ("demo:" +:+ x) false (window_start_of t) 0 db).
  { left. split; [reflexivity|]. now rewrite K. }
  rewrite (check_limit_allowed self ("demo:" +:+ x) false is_admin (window_start_of t)
             t 0 db eq_refl Hc Hlim).
  cbn [snd]. apply get_current_usage_counted; [reflexivity|].
  right. exists (t + window_seconds). rewrite <- K, lookup_insert_eq.
  split; [reflexivity|]. pose proof (window_start_bounds t). lia.
Qed.

Lemma demo_prefix_shares_counter_witness :
  get_current_usage shipped 7200 "203.0.113.7" true
    (check_limit shipped 7200 "demo:203.0.113.7" false false ∅).2
  = (1, 10800).
Proof.
  apply (demo_prefix_shares_counter shipped "203.0.113.7" false 7200 ∅).
  - cbn. lia.
  - reflexivity.
Defined.

End RateLimiterFacts.

(** ** The rate-limiting dependency *)

Module MiddlewareFacts.
Import RateLimiter Middleware RateLimiterFacts.

Lemma check_rate_limit_eq rl client user now now' db :
  let r := check_limit rl now (caller_identifier client user) (caller_is_demo user)
             (match user with
              | None => false
              | Some u => String.eqb (role u) "admin"
              end) db in
  check_rate_limit rl client user now now' db =
    (mkRequestState r.1.1.2 r.1.2,
     if r.1.1.1 then None
     else Some (mkHTTPException 429 "Rate limit exceeded" (r.1.2 - now') r.1.2
                  (str_int (r.1.2 - now')) (str_int r.1.2)),
     r.2).
Proof.
  unfold check_rate_limit, caller_identifier, caller_is_demo.
  destruct user as [u|]; cbn zeta;
    destruct (check_limit _ _ _ _ _ _) as [[[a rem] rst] db']; now destruct a.
Qed.

Lemma caller_tier rl user :
  tier_limit rl (caller_is_demo user)
    (match user with None => false | Some u => String.eqb (role u) "admin" end)
  = caller_limit rl user.
Proof. destruct user as [u|]; cbn; [now destruct (String.eqb _ _)|reflexivity]. Qed.

Lemma check_rate_limit_seq_cons rl client user now now' times db :
  check_rate_limit_seq rl client user ((now, now') :: times) db =
    let r := check_rate_limit rl client user now now' db in
    ((r.1.1, r.1.2) :: (check_rate_limit_seq rl client user times r.2).1,
     (check_rate_limit_seq rl client user times r.2).2).
Proof.
  cbn [check_rate_limit_seq]. cbn zeta.
  destruct (check_rate_limit rl client user now now' db) as [[st e] db1].
  cbn [fst snd].
  destruct (check_rate_limit_seq rl client user times db1); reflexivity.
Qed.

Lemma check_rate_limit_seq_counted rl client user W times : forall c db,
  Forall (fun tt => window_start_of tt.1 = W) times ->
  counted (caller_identifier client user) (caller_is_demo user) W c db ->
  0 <= c <= caller_limit rl user ->
  forall (i : nat) now now', times !! i = Some (now, now') ->
    (check_rate_limit_seq rl client user times db).1 !! i =
      Some (if c + Z.of_nat i <? caller_limit rl user then
              (mkRequestState (caller_limit rl user - (c + Z.of_nat i) - 1)
                 (W + window_seconds), None)
            else
              (mkRequestState 0 (W + window_seconds),
               Some (mkHTTPException 429 "Rate limit exceeded"
                       (W + window_seconds - now') (W + window_seconds)
                       (str_int (W + window_seconds - now'))
                       (str_int (W + window_seconds))))).
Proof.
  induction times as [|[t t'] times IH]; intros c db Hall Hc Hr i now now' Hi;
    [discriminate|].
  apply Forall_cons in Hall as [Ht Hall]. cbn [fst] in Ht.
  rewrite check_rate_limit_seq_cons. cbn zeta. rewrite check_rate_limit_eq. cbn zeta.
  set (adm := match user with None => false | Some u => String.eqb (role u) "admin" end).
  pose proof (caller_tier rl user) as Htier. fold adm in Htier.
  destruct (Z.lt_ge_cases c (caller_limit rl user)) as [Hlt|Hge].
  - rewrite (check_limit_allowed rl _ _ adm W t c db Ht Hc) by (rewrite Htier; exact Hlt).
    cbn [fst snd]. destruct i as [|i].
    + injection Hi as <- <-. cbn [lookup list_lookup]. rewrite Z.add_0_r.
      destruct (Z.ltb_spec c (caller_limit rl user)); [|lia]. now rewrite Htier.
    + cbn in Hi. change ((?x :: ?l) !! S i) with (l !! i).
      rewrite (IH (c + 1) _ Hall (counted_after_allowed _ _ W t c db Ht) ltac:(lia)
                 i now now' Hi).
      replace (c + 1 + Z.of_nat i) with (c + Z.of_nat (S i)) by lia. reflexivity.
  - rewrite (check_limit_rejected rl _ _ adm W t c db Ht Hc) by (rewrite Htier; exact Hge).
    cbn [fst snd]. destruct i as [|i].
    + injection Hi as <- <-. cbn [lookup list_lookup]. rewrite Z.add_0_r.
      destruct (Z.ltb_spec c (caller_limit rl user)); [lia|]. reflexivity.
    + cbn in Hi. change ((?x :: ?l) !! S i) with (l !! i).
      rewrite (IH c db Hall Hc Hr i now now' Hi).
      destruct (Z.ltb_spec (c + Z.of_nat i) (caller_limit rl user)),
               (Z.ltb_spec (c + Z.of_nat (S i)) (caller_limit rl user)); try lia.
      reflexivity.
Qed.

(** Requests of one caller in one window that starts without a counter: an
    anonymous caller is limited by its host (or "unknown") under the demo
    limit, an authenticated one by its id under the admin or the
    authenticated limit.  Request number [i] (from 0) passes while
    [i < limit], leaving [remaining = limit - i - 1] in the request state;
    from number [limit] on it raises 429 with [Retry-After] equal to the end
    of the window minus the second clock reading, which lies in
    [(0, 3600]] as long as that reading is not before the first and still
    in the window. *)
Theorem requests_beyond_the_limit_get_429 rl client user W times db i now now' :
  0 <= caller_limit rl user ->
  db !! key_of (caller_identifier client user) (caller_is_demo user) W = None ->
  Forall (fun tt => window_start_of tt.1 = W) times ->
  times !! i = Some (now, now') ->
  let answer := (check_rate_limit_seq rl client user times db).1 !! i in
  (Z.of_nat i < caller_limit rl user ->
     answer = Some (mkRequestState (caller_limit rl user - Z.of_nat i - 1)
                      (W + window_seconds), None)) /\
  (caller_limit rl user <= Z.of_nat i ->
     exists e,
       answer = Some (mkRequestState 0 (W + window_seconds), Some e) /\
       status_code e = 429 /\
       detail_reset_at e = W + window_seconds /\
       detail_retry_after e = W + window_seconds - now' /\
       header_Retry_After e = str_int (detail_retry_after e) /\
       (now <= now' < W + window_seconds ->
          0 < detail_retry_after e <= window_seconds)).
Proof.
  intros Hlim Hdb Hall Hi answer.
  pose proof (check_rate_limit_seq_counted rl client user W times 0 db Hall
                ltac:(left; auto) ltac:(lia) i now now' Hi) as H.
  rewrite Z.add_0_l in H. fold answer in H.
  split; intros Hc.
  - destruct (Z.ltb_spec (Z.of_nat i) (caller_limit rl user)); [exact H|lia].
  - destruct (Z.ltb_spec (Z.of_nat i) (caller_limit rl user)); [lia|].
    eexists. split; [exact H|]. cbn. repeat split; try lia.
    pose proof (Forall_lookup_1 _ _ _ _ Hall Hi) as Hw. cbn in Hw.
    pose proof (window_start_bounds now). lia.
Qed.

Lemma requests_beyond_the_limit_get_429_witness :
  exists e,
    (check_rate_limit_seq shipped (Some "203.0.113.7") None
       [(7200, 7200); (7201, 7201); (9000, 9000); (9001, 9002)] ∅).1 !! 3%nat
      = Some (mkRequestState 0 10800, Some e) /\
    status_code e = 429 /\ header_Retry_After e = "1798".
Proof.
  destruct (proj2 (requests_beyond_the_limit_get_429 shipped (Some "203.0.113.7") None 7200
              [(7200, 7200); (7201, 7201); (9000, 9000); (9001, 9002)]
              (∅ : gmap string Entry) 3%nat 9001 9002
              ltac:(cbn; lia) (lookup_empty _) ltac:(repeat constructor) eq_refl)
              ltac:(cbn; lia)) as (e & H1 & H2 & H3 & H4 & H5 & _).
  exists e. split; [exact H1|]. split; [exact H2|]. rewrite H5, H4. reflexivity.
Defined.

End MiddlewareFacts.

(** ** The health checker *)

Module ProviderHealthCheckerFacts.
Import ProviderHealthChecker.

Lemma _check_provider_endpoint_eq env provider url w :
  let b := breaker w in
  let t0 := CircuitBreaker.clock b (CircuitBreaker.ticks b) in
  let t1 := CircuitBreaker.clock b (S (CircuitBreaker.ticks b)) in
  let t2 := CircuitBreaker.clock b (S (S (CircuitBreaker.ticks b))) in
  _check_provider_endpoint env provider url w =
    (mkStatus (probe_status (http_get env url)) t2 (Some ((t1 - t0) * 1000)%Q)
       (probe_message (http_get env url)),
     mkWorld (advance 3 b) (cache w)).
Proof.
  unfold _check_provider_endpoint, probe_status, probe_message.
  destruct (http_get env url) as [c| |e]; try reflexivity.
  destruct (c =? 200); [reflexivity|].
  destruct ((200 <? c) && (c <? 500)); reflexivity.
Qed.

Lemma check_provider_health_miss env provider w :
  cache_get_raises env = true \/ cache w !! _get_cache_key provider = None ->
  check_provider_health env provider w = check_after_miss env provider w.
Proof.
  unfold check_provider_health. intros [->| ->]; [reflexivity|].
  now destruct (cache_get_raises env).
Qed.

Lemma check_after_miss_eq env provider url w :
  endpoint_of provider = Some url ->
  let b := advance 3 (breaker w) in
  let phase := CircuitBreaker.result (CircuitBreaker.get_state provider) b in
  let h := (check_after_miss env provider w).1 in
  let w' := (check_after_miss env provider w).2 in
  status h = fold_phase phase (probe_status (http_get env url)) /\
  breaker w' = CircuitBreaker.run (CircuitBreaker.get_state provider) b /\
  cache w' = if cache_setex_raises env then cache w
             else <[_get_cache_key provider := (h, CACHE_TTL)]> (cache w).
Proof.
  intros Hurl b phase h w'. subst h w'. unfold check_after_miss. rewrite Hurl.
  unfold bind. rewrite _check_provider_endpoint_eq.
  unfold on_breaker. cbn [breaker cache].
  fold b. unfold phase, CircuitBreaker.result, CircuitBreaker.run.
  destruct (CircuitBreaker.get_state provider b) as [st b'].
  cbn [fst snd]. unfold ret.
  destruct (cache_setex_raises env); cbn [setex fst snd status breaker cache];
    (split; [|split; reflexivity]);
    destruct st; cbn; try reflexivity;
    try (destruct (str_truthy _); reflexivity);
    destruct (String.eqb _ "healthy"); reflexivity.
Qed.

(** C4 (as the code has it).  On a cache miss for a provider with a
    registered endpoint: the probe is classified healthy for status 200
    only, degraded for any other status strictly between 200 and 500, and
    down for any other status, a timeout or an exception; the breaker phase
    is then folded in, Open forcing down whatever the probe said and
    Half-Open turning healthy into degraded; and the folded status is what
    the cache holds afterwards (unless the store raises) and what is
    returned. *)
Theorem C4_probe_classification_and_fold env provider url w :
  endpoint_of provider = Some url ->
  cache_get_raises env = true \/ cache w !! _get_cache_key provider = None ->
  let phase := CircuitBreaker.result (CircuitBreaker.get_state provider)
                 (advance 3 (breaker w)) in
  let h := (check_provider_health env provider w).1 in
  let w' := (check_provider_health env provider w).2 in
  (phase = CircuitBreaker.OPEN -> status h = "down") /\
  (phase = CircuitBreaker.HALF_OPEN ->
     forall c, http_get env url = Response c -> 200 <= c < 500 -> status h = "degraded") /\
  (phase = CircuitBreaker.CLOSED ->
     (http_get env url = Response 200 -> status h = "healthy") /\
     (forall c, http_get env url = Response c -> 200 < c < 500 -> status h = "degraded")) /\
  (phase <> CircuitBreaker.OPEN ->
     (forall c, http_get env url = Response c -> c < 200 \/ 500 <= c -> status h = "down") /\
     (http_get env url = TimeoutException -> status h = "down") /\
     (forall e, http_get env url = ProbeError e -> status h = "down")) /\
  (cache_setex_raises env = false ->
     cache w' !! _get_cache_key provider = Some (h, CACHE_TTL)).
Proof.
  intros Hurl Hmiss phase h w'.
  subst h w'. rewrite (check_provider_health_miss env provider w Hmiss).
  destruct (check_after_miss_eq env provider url w Hurl) as (Hst & _ & Hcache).
  fold phase in Hst. rewrite Hst.
  assert (H200 : forall c, 200 < c < 500 ->
            probe_status (Response c) = "degraded").
  { intros c Hc. unfold probe_status.
    destruct (Z.eqb_spec c 200); [lia|].
    destruct (Z.ltb_spec 200 c); [|lia]. destruct (Z.ltb_spec c 500); [|lia].
    reflexivity. }
  assert (Hout : forall c, c < 200 \/ 500 <= c -> probe_status (Response c) = "down").
  { intros c Hc. unfold probe_status.
    destruct (Z.eqb_spec c 200); [lia|].
    destruct (Z.ltb_spec 200 c); cbn; [|reflexivity].
    destruct (Z.ltb_spec c 500); [lia|reflexivity]. }
  repeat split.
  - intros ->. reflexivity.
  - intros -> c Hc Hr. rewrite Hc. cbn [fold_phase].
    destruct (Z.eq_dec c 200) as [->|Hne]; [reflexivity|].
    rewrite H200 by lia. reflexivity.
  - rewrite H. intros ->. reflexivity.
  - rewrite H. intros c -> Hc. cbn [fold_phase]. now apply H200.
  - intros c -> Hc. rewrite (Hout c Hc). now destruct phase.
  - intros ->. now destruct phase.
  - intros e ->. now destruct phase.
  - intros Hok. rewrite Hcache, Hok. apply lookup_insert_eq.
Qed.

Lemma C4_probe_classification_and_fold_witness :
  let env := mkEnv (fun _ => Response 200) false false in
  let w := mkWorld (CircuitBreaker.mkWorld ∅ (fun n => inject_Z (Z.of_nat n)) 0) ∅ in
  status (check_provider_health env "groq" w).1 = "healthy" /\
  cache (check_provider_health env "groq" w).2 !! _get_cache_key "groq"
    = Some ((check_provider_health env "groq" w).1, CACHE_TTL).
Proof.
  intros env w.
  destruct (C4_probe_classification_and_fold env "groq"
              "https://api.groq.com/openai/v1/models" w eq_refl (or_intror eq_refl))
    as (_ & _ & Hclosed & _ & Hcache).
  split.
  - exact (proj1 (Hclosed eq_refl) eq_refl).
  - exact (Hcache eq_refl).
Defined.

(** C4 (as claimed) fails at a 2xx status other than 200: a probe answered
    with 204 while the breaker is Closed is reported degraded, not healthy. *)
Lemma C4_status_204_not_healthy :
  let env := mkEnv (fun _ => Response 204) false false in
  let w := mkWorld (CircuitBreaker.mkWorld ∅ (fun n => inject_Z (Z.of_nat n)) 0) ∅ in
  cache w !! _get_cache_key "groq" = None /\
  200 <= 204 < 300 /\
  CircuitBreaker.result (CircuitBreaker.get_state "groq") (breaker w) = CircuitBreaker.CLOSED /\
  status (check_provider_health env "groq" w).1 = "degraded" /\
  status (check_provider_health env "groq" w).1 <> "healthy".
Proof.
  intros env w. repeat split; try reflexivity; try lia. discriminate.
Qed.

(** *** [check_all_providers] *)

Lemma run_schedule_length {A} schedule : forall (tasks : list (Coro A)) w,
  length (run_schedule schedule tasks w).1 = length tasks.
Proof.
  induction schedule as [|i schedule IH]; intros tasks w; [reflexivity|].
  cbn [run_schedule]. destruct (tasks !! i) as [c|]; [|apply IH].
  unfold bind. destruct (resume c w) as [c' w'].
  now rewrite IH, length_insert.
Qed.

Lemma run_all_to_end_cons {A} (c : Coro A) tasks w :
  run_all_to_end (c :: tasks) w =
    let (o, w1) := run_to_end c w in
    let (os, w2) := run_all_to_end tasks w1 in
    (o :: os, w2).
Proof. reflexivity. Qed.

Lemma run_all_to_end_length {A} (tasks : list (Coro A)) : forall w,
  length (run_all_to_end tasks w).1 = length tasks.
Proof.
  induction tasks as [|c tasks IH]; intros w; [reflexivity|].
  rewrite run_all_to_end_cons. destruct (run_to_end c w) as [o w1].
  specialize (IH w1). destruct (run_all_to_end tasks w1) as [os w2].
  cbn in *. now rewrite IH.
Qed.

Lemma gather_length {A} schedule (tasks : list (Coro A)) w :
  length (gather schedule tasks w).1 = length tasks.
Proof.
  unfold gather, bind.
  pose proof (run_schedule_length schedule tasks w) as H.
  destruct (run_schedule schedule tasks w) as [tasks' w1]. cbn [fst] in H.
  now rewrite run_all_to_end_length.
Qed.

(** The loop as run by a schedule is an interleaved run of the tasks. *)
Lemma run_schedule_interleaving {A} schedule : forall (tasks : list (Coro A)) w,
  interleaving (tasks, w) (run_schedule schedule tasks w).
Proof.
  induction schedule as [|i schedule IH]; intros tasks w; [apply rtc_refl|].
  cbn [run_schedule]. destruct (tasks !! i) as [[o|k]|] eqn:Hi; [| |apply IH].
  - unfold bind, resume, ret. rewrite (list_insert_id _ _ _ Hi). apply IH.
  - unfold bind, resume. destruct (k w) as [c' w'] eqn:Hk.
    eapply rtc_l; [exact (loop_resume tasks w i k c' w' Hi Hk)|apply IH].
Qed.

Fixpoint run_to_end_interleaving {A} (c : Coro A) {struct c} :
  forall tasks (i : nat) w, tasks !! i = Some c ->
    interleaving (tasks, w)
      (<[i := Finished (run_to_end c w).1]> tasks, (run_to_end c w).2).
Proof.
  destruct c as [o|k]; intros tasks i w Hi.
  - cbn. rewrite (list_insert_id _ _ _ Hi). apply rtc_refl.
  - cbn [run_to_end]. destruct (k w) as [c' w'] eqn:Hk.
    eapply rtc_l; [exact (loop_resume tasks w i k c' w' Hi Hk)|].
    pose proof (run_to_end_interleaving A c' (<[i := c']> tasks) i w') as H.
    rewrite list_insert_insert_eq in H. apply H.
    apply list_lookup_insert_eq. eapply lookup_lt_Some, Hi.
Qed.

Lemma run_all_to_end_interleaving {A} (tasks : list (Coro A)) : forall ended w,
  interleaving (map Finished ended ++ tasks, w)
    (map Finished (ended ++ (run_all_to_end tasks w).1), (run_all_to_end tasks w).2).
Proof.
  induction tasks as [|c tasks IH]; intros ended w.
  - cbn. rewrite !app_nil_r. apply rtc_refl.
  - rewrite run_all_to_end_cons.
    pose proof (run_to_end_interleaving c (map Finished ended ++ c :: tasks)
                  (length ended) w) as Hc.
    destruct (run_to_end c w) as [o w1]. cbn [fst snd] in Hc.
    specialize (IH (ended ++ [o]) w1).
    destruct (run_all_to_end tasks w1) as [os w2]. cbn [fst snd] in IH |- *.
    eapply rtc_trans.
    + apply Hc. rewrite lookup_app_r by (rewrite length_map; lia).
      now rewrite length_map, Nat.sub_diag.
    + replace (<[length ended := Finished o]> (map Finished ended ++ c :: tasks))
        with (map Finished (ended ++ [o]) ++ tasks).
      * rewrite <- app_assoc in IH. exact IH.
      * rewrite map_app, <- app_assoc. cbn [map app].
        replace (length ended) with (length (map (@Finished A) ended) + 0)%nat
          by (rewrite length_map; lia).
        now rewrite insert_app_r.
Qed.

(** What [gather] returns are the outcomes of an interleaved run of the
    tasks on the shared state, in which every task has ended. *)
Lemma gather_interleaving {A} schedule (tasks : list (Coro A)) w :
  interleaving (tasks, w)
    (map Finished (gather schedule tasks w).1, (gather schedule tasks w).2).
Proof.
  unfold gather, bind.
  pose proof (run_schedule_interleaving schedule tasks w) as H1.
  destruct (run_schedule schedule tasks w) as [tasks' w1].
  eapply rtc_trans; [exact H1|].
  exact (run_all_to_end_interleaving tasks' [] w1).
Qed.

Lemma collect_spec pairs : forall d0 w,
  NoDup (map fst pairs) ->
  let d := (collect pairs d0 w).1 in
  dom d = dom d0 ∪ list_to_set (map fst pairs) /\
  (forall p o, (p, o) ∈ pairs -> exists h, d !! p = Some h /\ entry_for o h) /\
  (forall p, p ∉ map fst pairs -> d !! p = d0 !! p).
Proof.
  induction pairs as [|[p0 o0] pairs IH]; intros d0 w Hnd d.
  - subst d. cbn. split; [|split].
    + set_solver.
    + intros p o Hin. now apply elem_of_nil in Hin.
    + auto.
  - cbn [map fst] in Hnd. apply NoDup_cons in Hnd as [Hnotin Hnd].
    assert (Hstep : exists h0 w1, entry_for o0 h0 /\
              collect ((p0, o0) :: pairs) d0 w = collect pairs (<[p0 := h0]> d0) w1).
    { destruct o0 as [r|e]; cbn [collect].
      - exists r, w. split; reflexivity.
      - unfold bind. destruct (utcnow w) as [now w1].
        eexists _, w1. split; [eexists; reflexivity|reflexivity]. }
    destruct Hstep as (h0 & w1 & Hent & Heq).
    subst d. rewrite Heq.
    destruct (IH (<[p0 := h0]> d0) w1 Hnd) as (Hdom & Hin & Hout).
    split; [|split].
    + rewrite Hdom, dom_insert_L. cbn [map fst list_to_set]. set_solver.
    + intros p o Hel. apply elem_of_cons in Hel as [Heq'|Hel].
      * injection Heq' as -> ->. exists h0. split; [|exact Hent].
        rewrite (Hout p0 Hnotin). apply lookup_insert_eq.
      * now apply Hin.
    + intros p Hp. cbn [map fst] in Hp. apply not_elem_of_cons in Hp as [Hne Hp].
      rewrite (Hout p Hp). now apply lookup_insert_ne.
Qed.

Lemma providers_NoDup : NoDup (map fst HEALTH_CHECK_ENDPOINTS).
Proof. compute_done. Qed.

(** C7. Whatever the four provider checks do, and in whatever order the
    event loop resumes them, [check_all_providers] returns a dict (it does
    not raise) with one entry for each registered provider and nothing
    else.  The entries are made from the outcomes of an interleaved run of the
    four checks on the shared state in which every check has ended: the entry
    of a provider whose check returned is the status it returned, and the
    entry of a provider whose check raised is a down status carrying the text
    of the exception. *)
Theorem C7_check_all_providers_isolates_failures
    (check : string -> Coro ProviderHealthStatus) schedule w :
  let providers := map fst HEALTH_CHECK_ENDPOINTS in
  exists d results w',
    (check_all_providers_with schedule check w).1 = Returned d /\
    interleaving (map check providers, w) (map Finished results, w') /\
    length results = length providers /\
    dom d = list_to_set providers /\
    size d = length providers /\
    forall (i : nat) p o, providers !! i = Some p -> results !! i = Some o ->
      match o with
      | Returned r => d !! p = Some r
      | Raised e => exists t, d !! p = Some (mkStatus "down" t None (Some (exc_msg e)))
      end.
Proof.
  intros providers.
  unfold check_all_providers_with. fold providers.
  pose proof (gather_interleaving schedule (map check providers) w) as Hrun.
  pose proof (gather_length schedule (map check providers) w) as Hlen.
  rewrite length_map in Hlen.
  unfold bind at 1.
  destruct (gather schedule (map check providers) w) as [results w1].
  cbn [fst snd] in Hrun, Hlen.
  unfold bind, ret.
  destruct (collect (zip providers results) ∅ w1) as [d w2] eqn:E.
  exists d, results, w1. split; [reflexivity|]. split; [exact Hrun|].
  split; [exact Hlen|].
  assert (Hfst : map fst (zip providers results) = providers).
  { apply fst_zip. lia. }
  pose proof (collect_spec (zip providers results) ∅ w1) as Hspec.
  rewrite Hfst, E in Hspec. cbn [fst] in Hspec.
  destruct (Hspec providers_NoDup) as (Hdom & Hin & _).
  assert (Hd : dom d = list_to_set providers) by (rewrite Hdom; set_solver).
  split; [exact Hd|]. split.
  - rewrite <- size_dom, Hd. rewrite size_list_to_set by exact providers_NoDup.
    reflexivity.
  - intros i p o Hp Ho.
    assert (Hel : (p, o) ∈ zip providers results).
    { apply (list_elem_of_lookup_2 _ i).
      apply lookup_zip_with_Some. exists p, o. auto. }
    destruct (Hin p o Hel) as (h & Hh & Hent).
    destruct o as [r|e]; cbn in Hent.
    + now subst h.
    + destruct Hent as [t ->]. now exists t.
Qed.

(** *** The miss path in full, the hit path, unknown providers *)

Lemma check_after_miss_full env provider url w :
  endpoint_of provider = Some url ->
  let b := breaker w in
  let t0 := CircuitBreaker.clock b (CircuitBreaker.ticks b) in
  let t1 := CircuitBreaker.clock b (S (CircuitBreaker.ticks b)) in
  let t2 := CircuitBreaker.clock b (S (S (CircuitBreaker.ticks b))) in
  let phase := CircuitBreaker.result (CircuitBreaker.get_state provider) (advance 3 b) in
  let h := mkStatus (fold_phase phase (probe_status (http_get env url))) t2
             (Some ((t1 - t0) * 1000)%Q)
             (fold_message phase (probe_message (http_get env url))) in
  check_after_miss env provider w =
    (h, mkWorld (CircuitBreaker.run (CircuitBreaker.get_state provider) (advance 3 b))
          (if cache_setex_raises env then cache w
           else <[_get_cache_key provider := (h, CACHE_TTL)]> (cache w))).
Proof.
  intros Hurl b t0 t1 t2 phase h. subst h. unfold check_after_miss. rewrite Hurl.
  unfold bind. rewrite _check_provider_endpoint_eq.
  unfold on_breaker. cbn [breaker cache]. fold b t0 t1 t2.
  unfold phase, CircuitBreaker.result, CircuitBreaker.run.
  destruct (CircuitBreaker.get_state provider (advance 3 b)) as [st b'].
  cbn [fst snd]. unfold ret.
  assert (E : (if String.eqb (CircuitBreaker.value st) "open"
               then
                 let h := set_status "down"
                            (mkStatus (probe_status (http_get env url)) t2
                               (Some ((t1 - t0) * 1000)%Q)
                               (probe_message (http_get env url))) in
                 if negb (str_truthy (error_message h))
                 then set_error_message (Some "Circuit breaker open") h
                 else h
               else if String.eqb (CircuitBreaker.value st) "half_open"
                 then if String.eqb (probe_status (http_get env url)) "healthy"
                      then set_status "degraded"
                             (mkStatus (probe_status (http_get env url)) t2
                                (Some ((t1 - t0) * 1000)%Q)
                                (probe_message (http_get env url)))
                      else mkStatus (probe_status (http_get env url)) t2
                             (Some ((t1 - t0) * 1000)%Q)
                             (probe_message (http_get env url))
                 else mkStatus (probe_status (http_get env url)) t2
                        (Some ((t1 - t0) * 1000)%Q)
                        (probe_message (http_get env url)))
              = mkStatus (fold_phase st (probe_status (http_get env url))) t2
                  (Some ((t1 - t0) * 1000)%Q)
                  (fold_message st (probe_message (http_get env url)))).
  { destruct st; cbn.
    - reflexivity.
    - destruct (str_truthy (probe_message (http_get env url))); reflexivity.
    - destruct (String.eqb (probe_status (http_get env url)) "healthy"); reflexivity. }
  cbn [status error_message] in E |- *. rewrite E.
  destruct (cache_setex_raises env); reflexivity.
Qed.

Lemma probe_status_valid o : valid_status (probe_status o).
Proof.
  unfold valid_status, probe_status. destruct o as [c| |e]; auto.
  destruct (c =? 200); auto. destruct (_ && _); auto.
Qed.

Lemma probe_healthy o :
  probe_status o = "healthy" -> o = Response 200 /\ probe_message o = None.
Proof.
  destruct o as [c| |e]; cbn; try discriminate.
  destruct (Z.eqb_spec c 200) as [->|Hne]; [auto|].
  destruct ((200 <? c) && (c <? 500)); discriminate.
Qed.

Lemma probe_down_message o : probe_status o = "down" -> is_Some (probe_message o).
Proof.
  destruct o as [c| |e]; cbn; eauto.
  destruct (c =? 200); [discriminate|eauto].
Qed.

Lemma fold_phase_valid phase raw : valid_status raw -> valid_status (fold_phase phase raw).
Proof.
  unfold valid_status. intros H. destruct phase; cbn; auto.
  destruct (String.eqb raw "healthy"); auto.
Qed.

(** On a miss for a registered provider the status is healthy, degraded or
    down.  It is healthy only if the endpoint answered 200 and the breaker
    phase is Closed, and then it carries no message; a down status always
    carries a message, and when the breaker is Open the message is not
    empty. *)
Theorem healthy_only_when_200_and_closed env provider url w :
  endpoint_of provider = Some url ->
  cache_get_raises env = true \/ cache w !! _get_cache_key provider = None ->
  let phase := CircuitBreaker.result (CircuitBreaker.get_state provider)
                 (advance 3 (breaker w)) in
  let h := (check_provider_health env provider w).1 in
  valid_status (status h) /\
  (status h = "healthy" ->
     http_get env url = Response 200 /\ phase = CircuitBreaker.CLOSED /\
     error_message h = None) /\
  (status h = "down" -> is_Some (error_message h)) /\
  (phase = CircuitBreaker.OPEN -> str_truthy (error_message h) = true).
Proof.
  intros Hurl Hmiss phase h. subst h.
  rewrite (check_provider_health_miss env provider w Hmiss).
  rewrite (check_after_miss_full env provider url w Hurl). cbn [fst status error_message].
  fold phase. split; [apply fold_phase_valid, probe_status_valid|].
  split; [|split].
  - intros Hh. destruct phase; cbn in Hh |- *.
    + destruct (probe_healthy _ Hh) as [-> ?]. auto.
    + discriminate.
    + destruct (String.eqb (probe_status (http_get env url)) "healthy") eqn:E;
        [discriminate|].
      rewrite Hh, String.eqb_refl in E. discriminate.
  - intros Hd. destruct phase; cbn in Hd |- *.
    + now apply probe_down_message.
    + destruct (str_truthy (probe_message (http_get env url))) eqn:E; [|eauto].
      destruct (probe_message (http_get env url)); [eauto|discriminate].
    + destruct (String.eqb (probe_status (http_get env url)) "healthy");
        [discriminate|]. now apply probe_down_message.
  - intros ->. cbn.
    destruct (str_truthy (probe_message (http_get env url))) eqn:E;
      [exact E|reflexivity].
Qed.

Lemma healthy_only_when_200_and_closed_witness :
  let env := mkEnv (fun _ => ProbeError (mkException "ConnectError" "")) false false in
  let w := mkWorld (CircuitBreaker.fresh (fun n => inject_Z (Z.of_nat n))) ∅ in
  valid_status (status (check_provider_health env "together" w).1).
Proof.
  intros env w.
  exact (proj1 (healthy_only_when_200_and_closed env "together"
                  "https://api.together.xyz/v1/models" w eq_refl (or_intror eq_refl))).
Defined.

(** A provider without a registered endpoint is reported down with the
    message "Unknown provider"; it is not probed, nothing is cached for it,
    so the next call does the same, and the breaker gets no entry for it. *)
Theorem unknown_provider_is_down_and_not_cached env provider w :
  endpoint_of provider = None ->
  cache_get_raises env = true \/ cache w !! _get_cache_key provider = None ->
  let h := (check_provider_health env provider w).1 in
  let w' := (check_provider_health env provider w).2 in
  status h = "down" /\
  error_message h = Some ("Unknown provider: " +:+ provider) /\
  response_time_ms h = None /\
  cache w' = cache w /\
  CircuitBreaker.states (breaker w') = CircuitBreaker.states (breaker w) /\
  status (check_provider_health env provider w').1 = "down".
Proof.
  intros Hurl Hmiss h w'. subst h w'.
  rewrite (check_provider_health_miss env provider w Hmiss).
  assert (E : forall w0, check_after_miss env provider w0 =
            (mkStatus "down"
               (CircuitBreaker.clock (breaker w0) (CircuitBreaker.ticks (breaker w0)))
               None (Some ("Unknown provider: " +:+ provider)),
             mkWorld (advance 1 (breaker w0)) (cache w0))).
  { intros w0. unfold check_after_miss. rewrite Hurl. reflexivity. }
  rewrite E. cbn [fst snd status error_message response_time_ms cache breaker].
  repeat split.
  rewrite check_provider_health_miss, E; [reflexivity|].
  destruct Hmiss as [H|H]; [now left|right; exact H].
Qed.

Lemma unknown_provider_is_down_and_not_cached_witness :
  let env := mkEnv (fun _ => Response 200) false false in
  let w := mkWorld (CircuitBreaker.fresh (fun n => inject_Z (Z.of_nat n))) ∅ in
  error_message (check_provider_health env "ollama" w).1 = Some "Unknown provider: ollama".
Proof.
  intros env w.
  destruct (unknown_provider_is_down_and_not_cached env "ollama" w eq_refl
              (or_intror eq_refl)) as (_ & H & _).
  exact H.
Defined.

(** Once a status has been computed for a registered provider and stored,
    the next call returns that same status from the cache: whatever the
    endpoint would answer now, it is not probed, and neither the breaker nor
    the clock nor the cache changes. *)
Theorem second_check_is_served_from_cache env env' provider url w :
  endpoint_of provider = Some url ->
  cache_get_raises env = false -> cache_setex_raises env = false ->
  cache_get_raises env' = false ->
  let h := (check_provider_health env provider w).1 in
  let w1 := (check_provider_health env provider w).2 in
  check_provider_health env' provider w1 = (h, w1).
Proof.
  intros Hurl Hget Hset Hget' h w1. subst h w1.
  destruct (check_provider_health env provider w) as [h w1] eqn:Hc. cbn [fst snd].
  unfold check_provider_health in Hc |- *. rewrite Hget in Hc. rewrite Hget'.
  destruct (cache w !! _get_cache_key provider) as [[data ttl]|] eqn:E.
  - injection Hc as <- <-. now rewrite E.
  - rewrite (check_after_miss_full env provider url w Hurl), Hset in Hc.
    injection Hc as <- <-. cbn [cache]. now rewrite lookup_insert_eq.
Qed.

Lemma second_check_is_served_from_cache_witness :
  let env := mkEnv (fun _ => Response 200) false false in
  let env' := mkEnv (fun _ => TimeoutException) false true in
  let w := mkWorld (CircuitBreaker.fresh (fun n => inject_Z (Z.of_nat n))) ∅ in
  status (check_provider_health env' "groq" (check_provider_health env "groq" w).2).1
    = "healthy".
Proof.
  intros env env' w.
  rewrite (second_check_is_served_from_cache env env' "groq"
             "https://api.groq.com/openai/v1/models" w eq_refl eq_refl eq_refl eq_refl).
  reflexivity.
Defined.

(** *** What a health check does to the breaker *)

Lemma entry_kept_refl provider q o : entry_kept provider q o o.
Proof.
  destruct o as [s|]; cbn; [|exact I]. unfold same_record. repeat split; auto.
Qed.

Lemma get_state_keeps_record p b q :
  entry_kept p q (CircuitBreaker.states b !! q)
    (CircuitBreaker.states (CircuitBreaker.run (CircuitBreaker.get_state p) b) !! q).
Proof.
  assert (H : forall b0 s0, CircuitBreaker.states b0 !! p = Some s0 ->
            (CircuitBreaker.state s0 <> CircuitBreaker.OPEN ->
             CircuitBreaker.states
               (CircuitBreaker.run (CircuitBreaker.get_state p) b0)
               = CircuitBreaker.states b0) /\
            entry_kept p q (CircuitBreaker.states b0 !! q)
              (CircuitBreaker.states
                 (CircuitBreaker.run (CircuitBreaker.get_state p) b0) !! q)).
  { intros b0 s0 Hs.
    destruct (CircuitBreakerFacts.get_state_cases p b0 s0 Hs)
      as [_ [(E & _)|(O & _ & _ & _ & E)]]; rewrite E.
    - split; [auto|apply entry_kept_refl].
    - split; [congruence|]. destruct (decide (q = p)) as [->|Hne].
      + rewrite lookup_insert_eq, Hs. cbn. unfold same_record. cbn.
        split; [repeat split|congruence].
      + rewrite lookup_insert_ne by congruence. apply entry_kept_refl. }
  destruct (CircuitBreaker.states b !! p) as [s0|] eqn:Ep.
  - exact (proj2 (H b s0 Ep)).
  - unfold CircuitBreaker.run.
    rewrite (CircuitBreakerFacts.get_state_absent p b Ep).
    destruct (H (CircuitBreaker.with_init p b) CircuitBreaker.init_state
                (CircuitBreakerFacts.with_init_lookup p b)) as (Hsame & _).
    unfold CircuitBreaker.run in Hsame.
    rewrite (Hsame ltac:(discriminate)). cbn.
    destruct (decide (q = p)) as [->|Hne].
    + rewrite lookup_insert_eq, Ep. cbn. auto.
    + rewrite lookup_insert_ne by congruence. apply entry_kept_refl.
Qed.

(** A health check never counts against a provider: whatever the probe
    finds, and on the hit, the miss and the unknown-provider path alike, every
    entry of the breaker is still there afterwards, with its failure count,
    its last failure time, its opening time and its timeout; entries of
    other providers are untouched, and the only entry that can appear is a
    fresh one for the checked provider. *)
Theorem health_check_records_no_failure env provider w q :
  entry_kept provider q
    (CircuitBreaker.states (breaker w) !! q)
    (CircuitBreaker.states (breaker (check_provider_health env provider w).2) !! q).
Proof.
  assert (Hmiss : entry_kept provider q
            (CircuitBreaker.states (breaker w) !! q)
            (CircuitBreaker.states (breaker (check_after_miss env provider w).2) !! q)).
  { destruct (endpoint_of provider) as [url|] eqn:Hurl.
    - rewrite (check_after_miss_full env provider url w Hurl). cbn [snd breaker].
      exact (get_state_keeps_record provider (advance 3 (breaker w)) q).
    - unfold check_after_miss. rewrite Hurl. apply entry_kept_refl. }
  unfold check_provider_health.
  destruct (cache_get_raises env); [exact Hmiss|].
  destruct (cache w !! _get_cache_key provider) as [[data ttl]|];
    [apply entry_kept_refl|exact Hmiss].
Qed.

(** *** All providers, with the real check *)

(** The coroutine, resumed with nobody in between, is [check_provider_health]. *)
Lemma check_provider_health_task_alone env provider w :
  run_to_end (check_provider_health_task env provider) w =
    let (h, w') := check_provider_health env provider w in (Returned h, w').
Proof.
  assert (Hmiss :
    run_to_end
      (match endpoint_of provider with
       | None =>
           (now <- utcnow ;;
            ret (Finished
                   (Returned
                      (mkStatus "down" now None
                         (Some ("Unknown provider: " +:+ provider)))))) w
       | Some url =>
           (start_time <- time_time ;;
            ret (Suspended
                   (ret (Suspended (after_probe env provider url start_time))))) w
       end).1
      (match endpoint_of provider with
       | None =>
           (now <- utcnow ;;
            ret (Finished
                   (Returned
                      (mkStatus "down" now None
                         (Some ("Unknown provider: " +:+ provider)))))) w
       | Some url =>
           (start_time <- time_time ;;
            ret (Suspended
                   (ret (Suspended (after_probe env provider url start_time))))) w
       end).2
    = let (h, w') := check_after_miss env provider w in (Returned h, w')).
  { unfold check_after_miss. destruct (endpoint_of provider) as [url|]; [|reflexivity].
    unfold _check_provider_endpoint, after_probe, after_endpoint.
    destruct (http_get env url) as [c| |e];
      try (destruct (c =? 200); [|destruct ((200 <? c) && (c <? 500))]);
      unfold bind, ret, time_time, utcnow, on_breaker, CircuitBreaker.time_time, setex;
      cbn [run_to_end fst snd breaker cache];
      match goal with
      | |- context [CircuitBreaker.get_state provider ?b] =>
          destruct (CircuitBreaker.get_state provider b) as [st b']
      end;
      cbn [run_to_end fst snd breaker cache];
      destruct (cache_setex_raises env); reflexivity. }
  unfold check_provider_health, check_provider_health_task. cbn [run_to_end].
  destruct (cache_get_raises env).
  - destruct (match endpoint_of provider with None => _ | Some url => _ end)
      as [c' w'] eqn:E. cbn [fst snd] in Hmiss. exact Hmiss.
  - destruct (cache w !! _get_cache_key provider) as [[data ttl]|]; [reflexivity|].
    destruct (match endpoint_of provider with None => _ | Some url => _ end)
      as [c' w'] eqn:E. cbn [fst snd] in Hmiss. exact Hmiss.
Qed.

Lemma on_breaker_cache {A} (m : CircuitBreaker.M A) w : cache (on_breaker m w).2 = cache w.
Proof. unfold on_breaker. now destruct (m (breaker w)). Qed.

Lemma cache_valid_same w w' : cache w' = cache w -> cache_valid w -> cache_valid w'.
Proof. unfold cache_valid. intros ->. auto. Qed.

Local Abbreviation valid_task :=
  (keeps_valid cache_valid (fun h => valid_status (status h))).

Lemma after_endpoint_keeps_valid env provider h w :
  valid_status (status h) -> cache_valid w ->
  cache_valid (after_endpoint env provider h w).2 /\
  valid_task (after_endpoint env provider h w).1.
Proof.
  intros Hh Hv. unfold after_endpoint, bind.
  pose proof (on_breaker_cache (CircuitBreaker.get_state provider) w) as Hc.
  destruct (on_breaker (CircuitBreaker.get_state provider) w) as [st w1].
  cbn [fst snd ret] in Hc |- *.
  split; [exact (cache_valid_same w w1 Hc Hv)|].
  set (h' := if String.eqb (CircuitBreaker.value st) "open" then _ else _).
  assert (Hh' : valid_status (status h')).
  { subst h'. unfold valid_status in *. destruct st; cbn.
    - exact Hh.
    - destruct (negb _); cbn; auto.
    - destruct (String.eqb (status h) "healthy"); cbn; auto. }
  cbn [keeps_valid]. intros w0 Hv0.
  destruct (cache_setex_raises env); cbn.
  - split; [exact Hv0|eauto].
  - split; [|eauto]. intros k h0 ttl. cbn [cache].
    destruct (decide (k = _get_cache_key provider)) as [->|Hne].
    + rewrite lookup_insert_eq. intros [= <- _]. exact Hh'.
    + rewrite lookup_insert_ne by congruence. apply Hv0.
Qed.

Lemma timed_endpoint_keeps_valid env provider start_time message w :
  cache_valid w ->
  let m := (t <- time_time ;;
            let response_time_ms := ((t - start_time) * 1000)%Q in
            now <- utcnow ;;
            after_endpoint env provider
              (mkStatus "down" now (Some response_time_ms) message)) in
  cache_valid (m w).2 /\ valid_task (m w).1.
Proof.
  intros Hv m. subst m. unfold bind, time_time, utcnow.
  pose proof (on_breaker_cache CircuitBreaker.time_time w) as H1.
  destruct (on_breaker CircuitBreaker.time_time w) as [t w1]. cbn [snd] in H1.
  pose proof (on_breaker_cache CircuitBreaker.time_time w1) as H2.
  destruct (on_breaker CircuitBreaker.time_time w1) as [now w2]. cbn [snd] in H2.
  apply after_endpoint_keeps_valid.
  - unfold valid_status. cbn. auto.
  - apply (cache_valid_same w); [congruence|exact Hv].
Qed.

Lemma after_probe_keeps_valid env provider url start_time w :
  cache_valid w ->
  cache_valid (after_probe env provider url start_time w).2 /\
  valid_task (after_probe env provider url start_time w).1.
Proof.
  intros Hv. unfold after_probe.
  destruct (http_get env url) as [c| |e].
  - unfold bind, time_time, utcnow.
    pose proof (on_breaker_cache CircuitBreaker.time_time w) as H1.
    destruct (on_breaker CircuitBreaker.time_time w) as [t w1]. cbn [snd] in H1.
    set (se := if c =? 200 then _ else _).
    assert (Hse : valid_status se.1).
    { subst se. unfold valid_status.
      destruct (c =? 200); [|destruct ((200 <? c) && (c <? 500))]; cbn; auto. }
    destruct se as [st msg]. cbn [fst] in Hse.
    pose proof (on_breaker_cache CircuitBreaker.time_time w1) as H2.
    destruct (on_breaker CircuitBreaker.time_time w1) as [now w2]. cbn [snd] in H2.
    cbn [ret fst snd]. split; [apply (cache_valid_same w); [congruence|exact Hv]|].
    cbn [keeps_valid]. intros w0 Hv0.
    pose proof (after_endpoint_keeps_valid env provider
                  (mkStatus st now (Some ((t - start_time) * 1000)%Q) msg) w0 Hse Hv0) as H.
    destruct (after_endpoint _ _ _ w0) as [c' w']. exact H.
  - cbn [ret fst snd]. split; [exact Hv|].
    cbn [keeps_valid]. intros w0 Hv0.
    pose proof (timed_endpoint_keeps_valid env provider start_time
                  (Some "Request timeout") w0 Hv0) as H. cbn zeta in H.
    destruct (bind _ _ w0) as [c' w']. exact H.
  - cbn [ret fst snd]. split; [exact Hv|].
    cbn [keeps_valid]. intros w0 Hv0.
    pose proof (timed_endpoint_keeps_valid env provider start_time
                  (Some (exc_msg e)) w0 Hv0) as H. cbn zeta in H.
    destruct (bind _ _ w0) as [c' w']. exact H.
Qed.

Lemma check_provider_health_task_keeps_valid env provider :
  valid_task (check_provider_health_task env provider).
Proof.
  unfold check_provider_health_task. cbn [keeps_valid]. intros w Hv.
  assert (Hmiss :
    let r := match endpoint_of provider with
             | None =>
                 (now <- utcnow ;;
                  ret (Finished
                         (Returned
                            (mkStatus "down" now None
                               (Some ("Unknown provider: " +:+ provider)))))) w
             | Some url =>
                 (start_time <- time_time ;;
                  ret (Suspended
                         (ret (Suspended (after_probe env provider url start_time))))) w
             end in
    cache_valid r.2 /\ valid_task r.1).
  { destruct (endpoint_of provider) as [url|]; cbn zeta.
    - unfold bind, time_time.
      pose proof (on_breaker_cache CircuitBreaker.time_time w) as H1.
      destruct (on_breaker CircuitBreaker.time_time w) as [t w1]. cbn [snd] in H1.
      cbn [ret fst snd]. split; [exact (cache_valid_same w w1 H1 Hv)|].
      cbn [keeps_valid]. intros w0 Hv0. cbn [ret]. split; [exact Hv0|].
      cbn [keeps_valid]. intros w2 Hv2.
      pose proof (after_probe_keeps_valid env provider url t w2 Hv2) as H.
      destruct (after_probe env provider url t w2) as [c' w']. exact H.
    - unfold bind, utcnow.
      pose proof (on_breaker_cache CircuitBreaker.time_time w) as H1.
      destruct (on_breaker CircuitBreaker.time_time w) as [t w1]. cbn [snd] in H1.
      cbn [ret fst snd]. split; [exact (cache_valid_same w w1 H1 Hv)|].
      cbn [keeps_valid]. eexists. split; [reflexivity|].
      unfold valid_status. cbn. auto. }
  cbn zeta in Hmiss.
  destruct (cache_get_raises env).
  - destruct (match endpoint_of provider with None => _ | Some url => _ end)
      as [c' w']. exact Hmiss.
  - destruct (cache w !! _get_cache_key provider) as [[data ttl]|] eqn:E.
    + split; [exact Hv|]. cbn [keeps_valid]. exists data. split; [reflexivity|].
      exact (Hv _ _ _ E).
    + destruct (match endpoint_of provider with None => _ | Some url => _ end)
        as [c' w']. exact Hmiss.
Qed.

Lemma run_schedule_keeps_valid schedule : forall tasks w,
  Forall valid_task tasks -> cache_valid w ->
  Forall valid_task (run_schedule schedule tasks w).1 /\
  cache_valid (run_schedule schedule tasks w).2.
Proof.
  induction schedule as [|i schedule IH]; intros tasks w Hall Hv; [now split|].
  cbn [run_schedule]. destruct (tasks !! i) as [[o|k]|] eqn:Hi; [| |now apply IH].
  - unfold bind, resume, ret. rewrite (list_insert_id _ _ _ Hi). now apply IH.
  - unfold bind, resume.
    pose proof (Forall_lookup_1 _ _ _ _ Hall Hi) as Hk. cbn [keeps_valid] in Hk.
    specialize (Hk w Hv). destruct (k w) as [c' w']. destruct Hk as [Hv' Hc'].
    apply IH; [|exact Hv']. now apply Forall_insert.
Qed.

Fixpoint run_to_end_keeps_valid (c : Coro ProviderHealthStatus) {struct c} :
  forall w, valid_task c -> cache_valid w ->
    (exists h, (run_to_end c w).1 = Returned h /\ valid_status (status h)) /\
    cache_valid (run_to_end c w).2.
Proof.
  destruct c as [o|k]; intros w Hc Hv.
  - cbn in *. now split.
  - cbn [keeps_valid] in Hc. specialize (Hc w Hv). cbn [run_to_end].
    destruct (k w) as [c' w']. destruct Hc as [Hv' Hc'].
    exact (run_to_end_keeps_valid c' w' Hc' Hv').
Qed.

Lemma run_all_to_end_valid tasks : forall w,
  Forall valid_task tasks -> cache_valid w ->
  Forall (fun o => exists h, o = Returned h /\ valid_status (status h))
    (run_all_to_end tasks w).1.
Proof.
  induction tasks as [|c tasks IH]; intros w Hall Hv; [constructor|].
  apply Forall_cons in Hall as [Hc Hall].
  rewrite run_all_to_end_cons.
  destruct (run_to_end_keeps_valid c w Hc Hv) as [Ho Hv1].
  destruct (run_to_end c w) as [o w1]. cbn [fst snd] in Ho, Hv1.
  specialize (IH w1 Hall Hv1).
  destruct (run_all_to_end tasks w1) as [os w2]. cbn [fst] in IH |- *.
  constructor; [exact Ho|exact IH].
Qed.

(** The order of resumption shows in the result.  The circuit of groq opened
    at time 1 with a timeout of 3.5 and the clock reads 0, 1, 2, ...  When
    the check of groq runs alone its breaker lookup reads time 3 and finds
    the circuit Open; when the four checks have all started before any
    probe is answered, it reads time 6 and finds it Half-Open. *)
Example checks_interleave :
  let env := mkEnv (fun _ => Response 200) false false in
  let groq := CircuitBreaker.mkState CircuitBreaker.OPEN 5 0 (Some 1%Q) (Some 1%Q) (7 # 2) in
  let w := mkWorld (CircuitBreaker.mkWorld {[ "groq" := groq ]}
                      (fun n => inject_Z (Z.of_nat n)) 0) ∅ in
  let tasks := map (check_provider_health_task env) (map fst HEALTH_CHECK_ENDPOINTS) in
  let status_of_first schedule :=
    match (gather schedule tasks w).1 with
    | Returned h :: _ => status h
    | _ => ""
    end in
  status_of_first [] = "down" /\
  status_of_first [0; 1; 2; 3]%nat = "degraded".
Proof. vm_compute. split; reflexivity. Qed.

(** With the real per-provider check, and in whatever order the event loop
    resumes the four checks, [check_all_providers] returns a dict with
    exactly the four registered providers, and, when the cached statuses
    are among healthy, degraded and down, so is every status it returns: no
    entry is made up from an exception. *)
Theorem check_all_providers_statuses_valid schedule env w :
  cache_valid w ->
  exists d,
    (check_all_providers schedule env w).1 = Returned d /\
    dom d = list_to_set (map fst HEALTH_CHECK_ENDPOINTS) /\
    forall p h, d !! p = Some h -> valid_status (status h).
Proof.
  intros Hv. unfold check_all_providers, check_all_providers_with.
  set (providers := map fst HEALTH_CHECK_ENDPOINTS).
  set (tasks := map (check_provider_health_task env) providers).
  assert (Hall : Forall (fun o => exists h, o = Returned h /\ valid_status (status h))
                   (gather schedule tasks w).1).
  { unfold gather, bind.
    assert (Ht : Forall valid_task tasks).
    { subst tasks. apply Forall_map, Forall_forall. intros p _.
      apply check_provider_health_task_keeps_valid. }
    destruct (run_schedule_keeps_valid schedule tasks w Ht Hv) as [Ht' Hv'].
    destruct (run_schedule schedule tasks w) as [tasks' w1].
    now apply run_all_to_end_valid. }
  pose proof (gather_length schedule tasks w) as Hlen.
  unfold tasks at 2 in Hlen. rewrite length_map in Hlen.
  unfold bind at 1.
  destruct (gather schedule tasks w) as [results w1]. cbn [fst] in Hall, Hlen.
  unfold bind, ret.
  destruct (collect (zip providers results) ∅ w1) as [d w2] eqn:E.
  exists d. split; [reflexivity|].
  assert (Hfst : map fst (zip providers results) = providers).
  { apply fst_zip. lia. }
  pose proof (collect_spec (zip providers results) ∅ w1) as Hspec.
  rewrite Hfst, E in Hspec. cbn [fst] in Hspec.
  destruct (Hspec providers_NoDup) as (Hdom & Hin & _).
  assert (Hd : dom d = list_to_set providers) by (rewrite Hdom; set_solver).
  split; [exact Hd|].
  intros p h Hp.
  assert (Hel : p ∈ providers).
  { apply (elem_of_list_to_set (C := gset string)). rewrite <- Hd.
    apply elem_of_dom. eauto. }
  apply list_elem_of_lookup_1 in Hel as [i Hi].
  destruct (lookup_lt_is_Some_2 results i) as [o Ho].
  { rewrite Hlen. eapply lookup_lt_Some, Hi. }
  assert (Hpo : (p, o) ∈ zip providers results).
  { apply (list_elem_of_lookup_2 _ i).
    apply lookup_zip_with_Some. exists p, o. auto. }
  destruct (Hin p o Hpo) as (h' & Hh' & Hent).
  destruct (Forall_lookup_1 _ _ i o Hall Ho) as (h0 & -> & Hst).
  cbn in Hent. congruence.
Qed.

Lemma check_all_providers_statuses_valid_witness :
  let env := mkEnv (fun _ => TimeoutException) false false in
  let w := mkWorld (CircuitBreaker.fresh (fun n => inject_Z (Z.of_nat n))) ∅ in
  exists d, (check_all_providers [0; 1; 2; 3; 3; 2; 1; 0]%nat env w).1 = Returned d /\
            dom d = list_to_set (map fst HEALTH_CHECK_ENDPOINTS).
Proof.
  intros env w.
  destruct (check_all_providers_statuses_valid [0; 1; 2; 3; 3; 2; 1; 0]%nat env w)
    as (d & Hr & Hd & _).
  - intros k h ttl Hk. unfold w in Hk. cbn [cache] in Hk.
    now rewrite (lookup_empty _) in Hk.
  - exists d. auto.
Defined.

End ProviderHealthCheckerFacts.

(** ** The model registry *)

Module ModelRegistryFacts.
Import ModelRegistry.

Lemma Qle_bool_false a b : Qle_bool a b = false <-> (b < a)%Q.
Proof.
  split; intros H.
  - destruct (Qlt_le_dec b a) as [Hlt|Hle]; [exact Hlt|].
    apply Qle_bool_iff in Hle. congruence.
  - destruct (Qle_bool a b) eqn:E; [|reflexivity].
    apply Qle_bool_iff in E. lra.
Qed.

Section MinMax.
Context {A : Type}.
Variable key : A -> Outcome Q.
Local Abbreviation first_least := (ModelRegistry.first_least key).
Local Abbreviation first_greatest := (ModelRegistry.first_greatest key).
Local Abbreviation all_keyed := (ModelRegistry.all_keyed key).

Lemma min_from_first_least rest : forall best bk,
  key best = Returned bk -> all_keyed rest ->
  exists m, min_from key best bk rest = Returned m /\ first_least (best :: rest) m.
Proof.
  induction rest as [|x rest IH]; intros best bk Hb Hall.
  - exists best. split; [reflexivity|].
    exists [], [], bk.
    split; [reflexivity|]. split; [exact Hb|].
    split; intros ? ? Hin; now apply elem_of_nil in Hin.
  - destruct (Hall x ltac:(left)) as [k Hk].
    assert (Hall' : all_keyed rest) by (intros y Hy; apply Hall; now right).
    cbn [min_from]. rewrite Hk.
    destruct (Qle_bool bk k) eqn:E; cbn [negb].
    + (* the best so far stays *)
      apply Qle_bool_iff in E.
      destruct (IH best bk Hb Hall') as (m & Hm & l1 & l2 & km & Hsplit & Hkm & Hlt & Hle).
      exists m. split; [exact Hm|].
      destruct l1 as [|b l1]; cbn in Hsplit; [injection Hsplit as <- <-|injection Hsplit as <- ->].
      * exists [], (x :: rest), km. rewrite Hb in Hkm. injection Hkm as <-.
        split; [reflexivity|]. split; [exact Hb|]. split.
        -- intros ? ? Hin. now apply elem_of_nil in Hin.
        -- intros y ky Hy Hky. apply elem_of_cons in Hy as [->|Hy].
           ++ rewrite Hk in Hky. injection Hky as <-. exact E.
           ++ exact (Hle y ky Hy Hky).
      * exists (best :: x :: l1), l2, km.
        split; [reflexivity|]. split; [exact Hkm|]. split; [|exact Hle].
        intros y ky Hy Hky.
        assert (Hbk : (km < bk)%Q) by (apply (Hlt best bk); [left|exact Hb]).
        apply elem_of_cons in Hy as [->|Hy]; [exact (Hlt best ky ltac:(left) Hky)|].
        apply elem_of_cons in Hy as [->|Hy].
        -- rewrite Hk in Hky. injection Hky as <-. lra.
        -- apply (Hlt y ky); [now right|exact Hky].
    + (* [x] is strictly better *)
      apply Qle_bool_false in E.
      destruct (IH x k Hk Hall') as (m & Hm & l1 & l2 & km & Hsplit & Hkm & Hlt & Hle).
      exists m. split; [exact Hm|].
      exists (best :: l1), l2, km. rewrite Hsplit.
      split; [reflexivity|]. split; [exact Hkm|]. split; [|exact Hle].
      intros y ky Hy Hky.
      assert (Hkmk : (km <= k)%Q).
      { destruct l1 as [|b l1]; cbn in Hsplit; injection Hsplit as <- ->.
        - rewrite Hk in Hkm. injection Hkm as <-. lra.
        - apply Qlt_le_weak. apply (Hlt x k); [left|exact Hk]. }
      apply elem_of_cons in Hy as [->|Hy].
      * rewrite Hb in Hky. injection Hky as <-. lra.
      * exact (Hlt y ky Hy Hky).
Qed.

Lemma max_from_first_greatest rest : forall best bk,
  key best = Returned bk -> all_keyed rest ->
  exists m, max_from key best bk rest = Returned m /\ first_greatest (best :: rest) m.
Proof.
  induction rest as [|x rest IH]; intros best bk Hb Hall.
  - exists best. split; [reflexivity|].
    exists [], [], bk.
    split; [reflexivity|]. split; [exact Hb|].
    split; intros ? ? Hin; now apply elem_of_nil in Hin.
  - destruct (Hall x ltac:(left)) as [k Hk].
    assert (Hall' : all_keyed rest) by (intros y Hy; apply Hall; now right).
    cbn [max_from]. rewrite Hk.
    destruct (Qle_bool k bk) eqn:E; cbn [negb].
    + apply Qle_bool_iff in E.
      destruct (IH best bk Hb Hall') as (m & Hm & l1 & l2 & km & Hsplit & Hkm & Hlt & Hle).
      exists m. split; [exact Hm|].
      destruct l1 as [|b l1]; cbn in Hsplit; [injection Hsplit as <- <-|injection Hsplit as <- ->].
      * exists [], (x :: rest), km. rewrite Hb in Hkm. injection Hkm as <-.
        split; [reflexivity|]. split; [exact Hb|]. split.
        -- intros ? ? Hin. now apply elem_of_nil in Hin.
        -- intros y ky Hy Hky. apply elem_of_cons in Hy as [->|Hy].
           ++ rewrite Hk in Hky. injection Hky as <-. exact E.
           ++ exact (Hle y ky Hy Hky).
      * exists (best :: x :: l1), l2, km.
        split; [reflexivity|]. split; [exact Hkm|]. split; [|exact Hle].
        intros y ky Hy Hky.
        assert (Hbk : (bk < km)%Q) by (apply (Hlt best bk); [left|exact Hb]).
        apply elem_of_cons in Hy as [->|Hy]; [exact (Hlt best ky ltac:(left) Hky)|].
        apply elem_of_cons in Hy as [->|Hy].
        -- rewrite Hk in Hky. injection Hky as <-. lra.
        -- apply (Hlt y ky); [now right|exact Hky].
    + apply Qle_bool_false in E.
      destruct (IH x k Hk Hall') as (m & Hm & l1 & l2 & km & Hsplit & Hkm & Hlt & Hle).
      exists m. split; [exact Hm|].
      exists (best :: l1), l2, km. rewrite Hsplit.
      split; [reflexivity|]. split; [exact Hkm|]. split; [|exact Hle].
      intros y ky Hy Hky.
      assert (Hkmk : (k <= km)%Q).
      { destruct l1 as [|b l1]; cbn in Hsplit; injection Hsplit as <- ->.
        - rewrite Hk in Hkm. injection Hkm as <-. lra.
        - apply Qlt_le_weak. apply (Hlt x k); [left|exact Hk]. }
      apply elem_of_cons in Hy as [->|Hy].
      * rewrite Hb in Hky. injection Hky as <-. lra.
      * exact (Hlt y ky Hy Hky).
Qed.

Lemma py_min_key_first_least l :
  l <> [] -> all_keyed l ->
  exists m, py_min_key l key = Returned m /\ first_least l m.
Proof.
  intros Hne Hall. destruct l as [|x rest]; [congruence|].
  destruct (Hall x ltac:(left)) as [k Hk]. cbn [py_min_key]. rewrite Hk.
  apply min_from_first_least; [exact Hk|]. intros y Hy. apply Hall. now right.
Qed.

Lemma py_max_key_first_greatest l :
  l <> [] -> all_keyed l ->
  exists m, py_max_key l key = Returned m /\ first_greatest l m.
Proof.
  intros Hne Hall. destruct l as [|x rest]; [congruence|].
  destruct (Hall x ltac:(left)) as [k Hk]. cbn [py_max_key]. rewrite Hk.
  apply max_from_first_greatest; [exact Hk|]. intros y Hy. apply Hall. now right.
Qed.

End MinMax.

Lemma registry_NoDup : NoDup (map fst MODEL_REGISTRY).
Proof. compute_done. Qed.

Lemma find_key {V} (l : list (string * V)) k v :
  NoDup (map fst l) -> (k, v) ∈ l ->
  List.find (fun kv => String.eqb (fst kv) k) l = Some (k, v).
Proof.
  induction l as [|[k0 v0] l IH]; intros Hnd Hin; [now apply elem_of_nil in Hin|].
  cbn [map fst] in Hnd. apply NoDup_cons in Hnd as [Hnotin Hnd].
  cbn [List.find fst]. apply elem_of_cons in Hin as [Heq|Hin].
  - injection Heq as -> ->. now rewrite String.eqb_refl.
  - destruct (String.eqb_spec k0 k) as [->|Hne].
    + exfalso. apply Hnotin. apply list_elem_of_In, in_map_iff.
      exists (k, v). split; [reflexivity|]. now apply list_elem_of_In.
    + now apply IH.
Qed.

Lemma get_model_config_registered m config :
  (m, config) ∈ MODEL_REGISTRY -> get_model_config m = Returned config.
Proof.
  intros Hin. unfold get_model_config.
  now rewrite (find_key MODEL_REGISTRY m config registry_NoDup Hin).
Qed.

Lemma filter_map_elem {A B} (P : A -> bool) (f : A -> B) l x :
  x ∈ map f (List.filter P l) <-> exists y, y ∈ l /\ P y = true /\ f y = x.
Proof.
  rewrite list_elem_of_In, in_map_iff. split.
  - intros (y & Hf & Hy). apply filter_In in Hy as [Hy HP].
    exists y. rewrite list_elem_of_In. auto.
  - intros (y & Hy & HP & Hf). exists y. split; [exact Hf|].
    apply filter_In. rewrite <- list_elem_of_In. auto.
Qed.

Lemma filter_map_split {A B} (P : A -> bool) (f : A -> B) reg : forall a x b,
  map f (List.filter P reg) = a ++ x :: b ->
  exists r1 y r2,
    reg = r1 ++ y :: r2 /\ P y = true /\ f y = x /\
    map f (List.filter P r1) = a /\ map f (List.filter P r2) = b.
Proof.
  induction reg as [|z reg IH]; intros a x b H.
  - destruct a; discriminate.
  - cbn [List.filter] in H. destruct (P z) eqn:Pz.
    + destruct a as [|a0 a]; cbn in H; injection H as Hz H.
      * exists [], z, reg. repeat split; auto.
      * destruct (IH a x b H) as (r1 & y & r2 & -> & Py & Hy & H1 & H2).
        exists (z :: r1), y, r2. repeat split; auto.
        cbn [List.filter]. rewrite Pz. cbn. now rewrite Hz, H1.
    + destruct (IH a x b H) as (r1 & y & r2 & -> & Py & Hy & H1 & H2).
      exists (z :: r1), y, r2. repeat split; auto.
      cbn [List.filter]. now rewrite Pz.
Qed.

Lemma models_nonempty t :
  has_registered_model t -> get_models_for_task_type t <> [].
Proof.
  intros (m & config & Hin & Hs) E.
  assert (Hm : m ∈ get_models_for_task_type t).
  { apply filter_map_elem. exists (m, config). auto. }
  rewrite E in Hm. now apply elem_of_nil in Hm.
Qed.

Lemma models_empty t :
  ~ has_registered_model t -> get_models_for_task_type t = [].
Proof.
  intros Hno. destruct (get_models_for_task_type t) as [|m l] eqn:E; [reflexivity|].
  exfalso. apply Hno.
  assert (Hm : m ∈ get_models_for_task_type t) by (rewrite E; left).
  apply filter_map_elem in Hm as ([m' config] & Hin & Hs & Hf).
  cbn in Hs, Hf. subst m'. now exists m, config.
Qed.

Lemma models_all_keyed t metric :
  all_keyed (field_of metric) (get_models_for_task_type t).
Proof.
  intros m Hm. apply filter_map_elem in Hm as ([m' config] & Hin & _ & Hf).
  cbn in Hf. subst m'. exists (metric config). unfold field_of.
  now rewrite (get_model_config_registered m config Hin).
Qed.

Lemma field_of_registered metric m config k :
  (m, config) ∈ MODEL_REGISTRY -> field_of metric m = Returned k -> k = metric config.
Proof.
  intros Hin. unfold field_of.
  rewrite (get_model_config_registered m config Hin). now intros [= <-].
Qed.

Lemma first_least_minimal t metric m :
  first_least (field_of metric) (get_models_for_task_type t) m ->
  minimal_in_catalog t metric m.
Proof.
  intros (l1 & l2 & km & Hsplit & Hkm & Hlt & Hle).
  apply filter_map_split in Hsplit
    as (r1 & [m0 config] & r2 & Hreg & Hs & Hf & H1 & H2).
  cbn in Hs, Hf. subst m0.
  assert (Hin : forall m' config', (m', config') ∈ r1 \/ (m', config') ∈ r2 \/
                  (m', config') = (m, config) -> (m', config') ∈ MODEL_REGISTRY).
  { intros m' config' H. rewrite Hreg, elem_of_app, elem_of_cons. tauto. }
  pose proof (field_of_registered metric m config km
                (Hin m config (or_intror (or_intror eq_refl))) Hkm) as ->.
  exists config, r1, r2. split; [exact Hreg|]. split; [exact Hs|]. split.
  - intros m' config' Hel Hs'. apply (Hlt m').
    + rewrite <- H1. apply filter_map_elem. exists (m', config'). auto.
    + unfold field_of.
      now rewrite (get_model_config_registered _ _ (Hin m' config' (or_introl Hel))).
  - intros m' config' Hel Hs'. apply (Hle m').
    + rewrite <- H2. apply filter_map_elem. exists (m', config'). auto.
    + unfold field_of.
      now rewrite (get_model_config_registered _ _
                     (Hin m' config' (or_intror (or_introl Hel)))).
Qed.

Lemma first_greatest_maximal t metric m :
  first_greatest (field_of metric) (get_models_for_task_type t) m ->
  maximal_in_catalog t metric m.
Proof.
  intros (l1 & l2 & km & Hsplit & Hkm & Hlt & Hle).
  apply filter_map_split in Hsplit
    as (r1 & [m0 config] & r2 & Hreg & Hs & Hf & H1 & H2).
  cbn in Hs, Hf. subst m0.
  assert (Hin : forall m' config', (m', config') ∈ r1 \/ (m', config') ∈ r2 \/
                  (m', config') = (m, config) -> (m', config') ∈ MODEL_REGISTRY).
  { intros m' config' H. rewrite Hreg, elem_of_app, elem_of_cons. tauto. }
  pose proof (field_of_registered metric m config km
                (Hin m config (or_intror (or_intror eq_refl))) Hkm) as ->.
  exists config, r1, r2. split; [exact Hreg|]. split; [exact Hs|]. split.
  - intros m' config' Hel Hs'. apply (Hlt m').
    + rewrite <- H1. apply filter_map_elem. exists (m', config'). auto.
    + unfold field_of.
      now rewrite (get_model_config_registered _ _ (Hin m' config' (or_introl Hel))).
  - intros m' config' Hel Hs'. apply (Hle m').
    + rewrite <- H2. apply filter_map_elem. exists (m', config'). auto.
    + unfold field_of.
      now rewrite (get_model_config_registered _ _
                     (Hin m' config' (or_intror (or_introl Hel)))).
Qed.

(** What the selectors return on this catalog. *)
Example cheapest_on_catalog :
  map get_cheapest_model_for_task [REASONING; CODE_GENERATION; FACT_CHECKING; DEBUGGING]
  = [Returned "ollama-llama2"; Returned "ollama-mistral";
     Returned "openrouter-claude-3-sonnet"; Returned "ollama-codellama"].
Proof. vm_compute. reflexivity. Qed.

Example fastest_on_catalog :
  map get_fastest_model_for_task [REASONING; CODE_GENERATION; FACT_CHECKING; DEBUGGING]
  = [Returned "groq-mixtral-8x7b"; Returned "groq-llama3-70b";
     Returned "openrouter-claude-3-sonnet"; Returned "openrouter-gpt4-turbo"].
Proof. vm_compute. reflexivity. Qed.

Example best_quality_on_catalog :
  map get_best_quality_model_for_task [REASONING; CREATIVE_OUTPUT; DEBUGGING]
  = [Returned "openrouter-claude-3-sonnet"; Returned "groq-mixtral-8x7b";
     Returned "openrouter-gpt4-turbo"].
Proof. vm_compute. reflexivity. Qed.

(** C6. For a capability that some registered model declares, each selector
    returns a model that declares the capability and is optimal among those
    that do: least [cost_per_input_token + cost_per_output_token] for the
    cheapest, least [average_latency] for the fastest, greatest
    [reliability_score] for the best quality, the earlier model in catalog
    order winning a tie.  For a capability that no registered model
    declares, each selector raises the [ValueError] "No models found". *)
Theorem C6_selectors_optimal t :
  (has_registered_model t ->
     (exists m, get_cheapest_model_for_task t = Returned m /\
                minimal_in_catalog t total_cost m) /\
     (exists m, get_fastest_model_for_task t = Returned m /\
                minimal_in_catalog t average_latency m) /\
     (exists m, get_best_quality_model_for_task t = Returned m /\
                maximal_in_catalog t reliability_score m)) /\
  (~ has_registered_model t ->
     get_cheapest_model_for_task t = Raised (no_models_found t) /\
     get_fastest_model_for_task t = Raised (no_models_found t) /\
     get_best_quality_model_for_task t = Raised (no_models_found t)).
Proof.
  split.
  - intros Hreg. pose proof (models_nonempty t Hreg) as Hne.
    unfold get_cheapest_model_for_task, get_fastest_model_for_task,
      get_best_quality_model_for_task.
    pose proof (py_min_key_first_least (field_of total_cost) _ Hne
                  (models_all_keyed t total_cost)) as (m1 & E1 & F1).
    pose proof (py_min_key_first_least (field_of average_latency) _ Hne
                  (models_all_keyed t average_latency)) as (m2 & E2 & F2).
    pose proof (py_max_key_first_greatest (field_of reliability_score) _ Hne
                  (models_all_keyed t reliability_score)) as (m3 & E3 & F3).
    apply first_least_minimal in F1, F2. apply first_greatest_maximal in F3.
    destruct (get_models_for_task_type t) as [|m0 l]; [congruence|].
    split; [exists m1; auto|]. split; [exists m2; auto|exists m3; auto].
  - intros Hno.
    unfold get_cheapest_model_for_task, get_fastest_model_for_task,
      get_best_quality_model_for_task.
    rewrite (models_empty t Hno). auto.
Qed.

Lemma C6_selectors_optimal_witness :
  (exists m, get_cheapest_model_for_task REASONING = Returned m /\
             minimal_in_catalog REASONING total_cost m) /\
  get_best_quality_model_for_task VERIFICATION = Raised (no_models_found VERIFICATION).
Proof.
  split.
  - apply (proj1 (C6_selectors_optimal REASONING)).
    exists "groq-llama3-70b", (mkModel "groq" "llama3-70b-8192"
      [REASONING; RESEARCH; CODE_GENERATION] 0.00000059 0.00000079 0.5 8192 0.95 None).
    split; [left|reflexivity].
  - apply (proj2 (C6_selectors_optimal VERIFICATION)).
    intros (m & config & Hin & Hs). unfold MODEL_REGISTRY in Hin.
    repeat (apply elem_of_cons in Hin as [Heq|Hin];
            [injection Heq as -> ->; discriminate|]).
    now apply elem_of_nil in Hin.
Defined.

(** *** Cloud and local models *)

Lemma find_elem {V} (l : list (string * V)) k kv :
  List.find (fun kv => String.eqb (fst kv) k) l = Some kv -> kv ∈ l /\ fst kv = k.
Proof.
  intros H. apply find_some in H as [Hin Heq].
  split; [now apply list_elem_of_In|now apply String.eqb_eq].
Qed.

Lemma find_absent {V} (l : list (string * V)) k v :
  List.find (fun kv => String.eqb (fst kv) k) l = None -> (k, v) ∉ l.
Proof.
  intros H Hin. apply list_elem_of_In in Hin.
  pose proof (find_none _ _ H _ Hin) as Hne. cbn in Hne.
  now rewrite String.eqb_refl in Hne.
Qed.

(** The registry is split in two by the local-only mark: an id is listed by
    [get_local_models_only] exactly when [is_local_model] holds of it, and
    by [get_cloud_models_only] exactly when it is registered and
    [is_local_model] does not hold; no id is in both lists, and for an id
    that is not registered [is_local_model] answers false where
    [get_model_config] raises [KeyError]. *)
Theorem local_and_cloud_models_partition model_id :
  (model_id ∈ get_local_models_only <-> is_local_model model_id = true) /\
  (model_id ∈ get_cloud_models_only <->
     is_local_model model_id = false /\
     exists config, get_model_config model_id = Returned config) /\
  ~ (model_id ∈ get_local_models_only /\ model_id ∈ get_cloud_models_only) /\
  ((forall config, get_model_config model_id <> Returned config) ->
     is_local_model model_id = false /\
     get_model_config model_id = Raised (mkException "KeyError" model_id)).
Proof.
  assert (Hl : model_id ∈ get_local_models_only <-> is_local_model model_id = true).
  { unfold get_local_models_only, is_local_model. rewrite filter_map_elem. split.
    - intros ([k c] & Hin & Hlo & Hk). cbn in Hlo, Hk. subst k.
      now rewrite (find_key _ _ _ registry_NoDup Hin).
    - destruct (List.find _ MODEL_REGISTRY) as [kv|] eqn:E; [|discriminate].
      intros Hlo. apply find_elem in E as [Hin Hk]. exists kv. auto. }
  assert (Hc : model_id ∈ get_cloud_models_only <->
               is_local_model model_id = false /\
               exists config, get_model_config model_id = Returned config).
  { unfold get_cloud_models_only, is_local_model, get_model_config.
    rewrite filter_map_elem. split.
    - intros ([k c] & Hin & Hlo & Hk). cbn in Hlo, Hk. subst k.
      rewrite (find_key _ _ _ registry_NoDup Hin). cbn.
      split; [now apply negb_true_iff|eauto].
    - destruct (List.find _ MODEL_REGISTRY) as [kv|] eqn:E.
      + intros [Hlo _]. apply find_elem in E as [Hin Hk]. exists kv.
        split; [exact Hin|]. split; [now apply negb_true_iff|exact Hk].
      + intros [_ [config Hcfg]]. discriminate. }
  split; [exact Hl|]. split; [exact Hc|]. split.
  - intros [H1 H2]. apply Hl in H1. apply Hc in H2 as [H2 _]. congruence.
  - intros Hno. unfold is_local_model, get_model_config in *.
    destruct (List.find _ MODEL_REGISTRY) as [kv|] eqn:E; [|auto].
    exfalso. exact (Hno (snd kv) eq_refl).
Qed.

End ModelRegistryFacts.

(** ** The execution-mode presets *)

Module ExecutionModeConfigsFacts.
Import ExecutionModeConfigs.

(** C8. The three presets exist and are ordered: fast allows no more
    parallel executions than balanced, and balanced no more than
    best-quality; the same holds of the accuracy requirement; and the cost
    limit of fast is strictly below the cost limit of every other preset that
    has one. *)
Theorem C8_presets_ordered :
  exists fast balanced best_quality,
    get_execution_mode_config FAST = Returned fast /\
    get_execution_mode_config BALANCED = Returned balanced /\
    get_execution_mode_config BEST_QUALITY = Returned best_quality /\
    max_parallel_executions fast <= max_parallel_executions balanced
      <= max_parallel_executions best_quality /\
    (accuracy_requirement fast <= accuracy_requirement balanced)%Q /\
    (accuracy_requirement balanced <= accuracy_requirement best_quality)%Q /\
    forall limit, cost_limit fast = Some limit ->
      forall name config other,
        (name, config) ∈ EXECUTION_MODE_CONFIGS -> name <> "fast" ->
        cost_limit config = Some other -> (limit < other)%Q.
Proof.
  eexists _, _, _.
  split; [reflexivity|]. split; [reflexivity|]. split; [reflexivity|].
  split; [cbn; lia|]. split; [cbn; lra|]. split; [cbn; lra|].
  intros limit [= <-] name config other Hin Hne Hc.
  unfold EXECUTION_MODE_CONFIGS in Hin.
  repeat (apply elem_of_cons in Hin as [Heq|Hin];
          [injection Heq as -> ->; cbn in Hc; try congruence|]).
  - injection Hc as <-. lra.
  - now apply elem_of_nil in Hin.
Qed.

(** For each of the three modes [get_execution_mode_config] returns, without
    raising, the preset made for that mode, and every model the mode
    prefers is registered in [MODEL_REGISTRY] as a cloud model: looking a
    preferred model up never raises [KeyError], and none is local-only. *)
Theorem preferred_models_are_registered_cloud_models execution_mode :
  exists config,
    get_execution_mode_config execution_mode = Returned config /\
    mode config = execution_mode /\
    get_model_preferences_for_mode execution_mode
      = Returned (preferred_model_types config) /\
    preferred_model_types config <> [] /\
    forall m, m ∈ preferred_model_types config ->
      m ∈ ModelRegistry.get_cloud_models_only /\
      ModelRegistry.is_local_model m = false /\
      exists model_config, ModelRegistry.get_model_config m = Returned model_config.
Proof.
  destruct execution_mode; eexists; (split; [reflexivity|]);
    (split; [reflexivity|]); (split; [reflexivity|]); (split; [discriminate|]);
    cbn [preferred_model_types]; intros m Hm;
    repeat (apply elem_of_cons in Hm as [->|Hm];
            [split; [compute_done|split; [reflexivity|eexists; reflexivity]]|]);
    now apply elem_of_nil in Hm.
Qed.

(** Every model that the fast mode prefers costs less, input and output
    price together, than every model that the best-quality mode prefers. *)
Theorem fast_preferences_cheaper_than_best_quality fast_models best_models m m' c c' :
  get_model_preferences_for_mode FAST = Returned fast_models ->
  get_model_preferences_for_mode BEST_QUALITY = Returned best_models ->
  m ∈ fast_models -> m' ∈ best_models ->
  ModelRegistry.get_model_config m = Returned c ->
  ModelRegistry.get_model_config m' = Returned c' ->
  (ModelRegistry.total_cost c < ModelRegistry.total_cost c')%Q.
Proof.
  intros [= <-] [= <-] Hm Hm'. cbn [preferred_model_types] in Hm, Hm'.
  repeat (apply elem_of_cons in Hm as [->|Hm]);
    try (now apply elem_of_nil in Hm);
    repeat (apply elem_of_cons in Hm' as [->|Hm']);
    try (now apply elem_of_nil in Hm');
    intros [= <-] [= <-]; reflexivity.
Qed.

Lemma fast_preferences_cheaper_than_best_quality_witness :
  (ModelRegistry.total_cost
     (ModelRegistry.mkModel "together" "mistralai/Mixtral-8x7B-Instruct-v0.1"
        [ModelRegistry.REASONING; ModelRegistry.CODE_GENERATION]
        0.0000006 0.0000006 1.2 32768 0.92 None)
   < ModelRegistry.total_cost
       (ModelRegistry.mkModel "groq" "llama3-70b-8192"
          [ModelRegistry.REASONING; ModelRegistry.RESEARCH; ModelRegistry.CODE_GENERATION]
          0.00000059 0.00000079 0.5 8192 0.95 None))%Q.
Proof.
  apply (fast_preferences_cheaper_than_best_quality
           ["groq-mixtral-8x7b"; "huggingface-mistral-7b"; "together-mixtral-8x7b"]
           ["openrouter-claude-3-sonnet"; "openrouter-gpt4-turbo"; "groq-llama3-70b";
            "together-llama2-70b"]
           "together-mixtral-8x7b" "groq-llama3-70b");
    first [reflexivity | compute_done].
Defined.

End ExecutionModeConfigsFacts.

(** ** Provider selection *)

Module CloudConfigFacts.
Import CloudConfig.

Lemma get_available_providers_eq env :
  get_available_providers env =
    (if should_use_cloud_providers env then
       (if truthy_str (getenv env "GROQ_API_KEY") then ["groq"] else []) ++
       (if truthy_str (getenv env "TOGETHER_API_KEY") then ["together"] else []) ++
       (if truthy_str (getenv env "OPENROUTER_API_KEY") then ["openrouter"] else []) ++
       (if truthy_str (getenv env "HUGGINGFACE_API_KEY") then ["huggingface"] else [])
     else []) ++
    (if should_use_local_providers env && is_ollama_available env then ["ollama"] else []).
Proof.
  unfold get_available_providers.
  destruct (should_use_cloud_providers env);
    destruct (should_use_local_providers env && is_ollama_available env);
    try reflexivity;
    destruct (truthy_str (getenv env "GROQ_API_KEY"));
    destruct (truthy_str (getenv env "TOGETHER_API_KEY"));
    destruct (truthy_str (getenv env "OPENROUTER_API_KEY"));
    destruct (truthy_str (getenv env "HUGGINGFACE_API_KEY")); reflexivity.
Qed.

Lemma truthy_str_set env name :
  truthy_str (getenv env name) = true ->
  exists v, environ env !! name = Some v /\ v <> "".
Proof.
  unfold truthy_str, getenv. destruct (environ env !! name) as [v|]; [|discriminate].
  intros H. exists v. split; [reflexivity|]. intros ->. discriminate.
Qed.

Ltac not_listed H :=
  repeat (apply elem_of_cons in H as [H|H]; [discriminate H|]);
  now apply elem_of_nil in H.

Ltac listed :=
  repeat first [apply list_elem_of_here | apply list_elem_of_further].

(** The providers [get_available_providers] offers are always taken from
    the priority list of the deployment mode, in the order of that list:
    local mode offers nothing but Ollama whatever API keys are set, and
    cloud mode never offers Ollama.  A cloud provider is offered only if its
    API key is set to a non-empty value, and Ollama exactly when the mode
    uses local providers and the tags endpoint answers 200. *)
Theorem available_providers_follow_priority env :
  sublist (get_available_providers env) (get_provider_priority env) /\
  (forall p key, p ∈ get_available_providers env -> (p, key) ∈ API_KEY_NAMES ->
     exists v, environ env !! key = Some v /\ v <> "") /\
  ("ollama" ∈ get_available_providers env <->
     should_use_local_providers env = true /\ is_ollama_available env = true).
Proof.
  rewrite get_available_providers_eq.
  unfold get_provider_priority, should_use_cloud_providers, should_use_local_providers.
  pose proof (truthy_str_set env "GROQ_API_KEY") as Hg.
  pose proof (truthy_str_set env "TOGETHER_API_KEY") as Ht.
  pose proof (truthy_str_set env "OPENROUTER_API_KEY") as Ho.
  pose proof (truthy_str_set env "HUGGINGFACE_API_KEY") as Hh.
  assert (Hkeys : forall p key, (p, key) ∈ API_KEY_NAMES ->
            (p = "groq" /\ key = "GROQ_API_KEY") \/
            (p = "together" /\ key = "TOGETHER_API_KEY") \/
            (p = "openrouter" /\ key = "OPENROUTER_API_KEY") \/
            (p = "huggingface" /\ key = "HUGGINGFACE_API_KEY")).
  { intros p key Hin. unfold API_KEY_NAMES in Hin.
    repeat (apply elem_of_cons in Hin as [[= -> ->]|Hin]; [tauto|]).
    now apply elem_of_nil in Hin. }
  destruct (get_deployment_mode env); cbn [andb];
    destruct (is_ollama_available env);
    destruct (truthy_str (getenv env "GROQ_API_KEY"));
    destruct (truthy_str (getenv env "TOGETHER_API_KEY"));
    destruct (truthy_str (getenv env "OPENROUTER_API_KEY"));
    destruct (truthy_str (getenv env "HUGGINGFACE_API_KEY"));
    cbn [app];
    (split; [repeat first [apply sublist_nil | apply sublist_skip | apply sublist_cons]|]);
    (split;
     [intros p key Hp Hk;
      destruct (Hkeys p key Hk) as [[-> ->]|[[-> ->]|[[-> ->]|[-> ->]]]];
      first [ now apply Hg | now apply Ht | now apply Ho | now apply Hh
            | exfalso; not_listed Hp ]
     |split;
      [intros Hin; first [ now split | exfalso; not_listed Hin ]
      |intros [H1 H2]; first [ discriminate | listed ]]]).
Qed.

End CloudConfigFacts.
